(** * asyncmd.mdconfig: the line based configuration store

    A shallow embedding of [src/asyncmd/mdconfig.py]: the change tracking
    lists [FlagChangeList] / [TypedFlagChangeList], the type dispatch built by
    [LineBasedMDConfig._construct_type_dispatch], and the store operations
    [__getitem__], [__setitem__], [__delitem__], [changed], the
    [original_file] setter, [parse] and [write].

    Python objects that are mutated in place (the lists held by the store)
    live in an explicit heap and are referred to by location, so that a
    reference obtained from [store[key]] aliases the object the store holds.
    Exceptions are values of [exn]; a raising call keeps the side effects it
    made before raising.

    The helpers of [src/asyncmd/gromacs/utils.py] that work on such a store
    and on the listing of a folder follow the store: [get_all_file_parts],
    [ensure_mdp_options] and [nstout_from_mdp]; then the table of semaphores
    of [src/asyncmd/_semaphores.py]. *)

From Stdlib Require Import ZArith Ascii DecimalString.
From Stdlib Require String DecimalPos.
From stdpp Require Import base option list gmap strings.

Open Scope Z_scope.

(** ** Exceptions *)

(** The classes of the exceptions that the module raises itself or receives
    from the builtins it calls.  Messages are not modelled. *)
Inductive exn : Type :=
  | ValueError
  | TypeError
  | KeyError
  | IndexError
  | OverflowError
  | AttributeError
  | FileNotFoundError
  | IsADirectoryError
  | SameFileError
  | OtherError (name : string).

Definition result (A : Type) : Type := exn + A.

Definition raise {A} (e : exn) : result A := inl e.

Definition result_bind {A B} (f : A → result B) (r : result A) : result B :=
  match r with
  | inl e => inl e
  | inr a => f a
  end.

#[global] Instance result_ret : MRet result := λ A a, inr a.
#[global] Instance result_mbind : MBind result := @result_bind.
#[global] Instance result_fmap : FMap result :=
  λ A B f r, match r with inl e => inl e | inr a => inr (f a) end.

Definition is_ok {A} (r : result A) : bool :=
  match r with inr _ => true | inl _ => false end.

(** [[f(x) for x in l]] for an [f] that may raise: the first exception
    aborts the comprehension. *)
Fixpoint result_map {A B} (f : A → result B) (l : list A) : result (list B) :=
  match l with
  | [] => inr []
  | x :: l' =>
      match f x with
      | inl e => inl e
      | inr y =>
          match result_map f l' with
          | inl e => inl e
          | inr ys => inr (y :: ys)
          end
      end
  end.

(** ** The Python runtime the module runs on

    What the interpreter and [os.path] provide and the module only calls:
    floating point numbers with their conversions, [repr] of a string, and
    [os.path.abspath] (which depends on the working directory). *)
Class Python : Type := {
  pyfloat : Type;
  (** [float(i)] for an int; [OverflowError] when too large. *)
  float_of_int : Z → result pyfloat;
  (** [float(s)] for a str; [ValueError] when malformed. *)
  float_of_str : string → result pyfloat;
  (** [int(x)] for a float: truncation; raises on infinities and NaN. *)
  int_of_float : pyfloat → result Z;
  (** [repr(x)], which is also [str(x)], for a float. *)
  repr_float : pyfloat → string;
  (** [repr(s)] for a str: quoting and escaping. *)
  repr_str : string → string;
  abspath : string → string;
}.

Section WithPython.
Context `{Python}.

(** ** Values *)

(** The values that reach the store: what [_parse_line] returns, what a
    caller assigns, and what the conversions produce.  A [FlagChangeList]
    passed as a value behaves as the [PList] of its items (it has a length,
    is not a str, and is indexed and iterated like a list). *)
#[warnings="-register-all"]
Inductive pyval : Type :=
  | PNone
  | PInt (z : Z)
  | PFloat (x : pyfloat)
  | PStr (s : string)
  | PList (l : list pyval).

(** [getattr(v, '__len__', None) is None] is false for these. *)
Definition has_len (v : pyval) : bool :=
  match v with
  | PStr _ | PList _ => true
  | PNone | PInt _ | PFloat _ => false
  end.

Definition chars (s : string) : list pyval :=
  (λ c, PStr (String c EmptyString)) <$> String.list_ascii_of_string s.

(** The items an iteration over [v] yields; [TypeError] when [v] is not
    iterable. *)
Definition py_iter (v : pyval) : result (list pyval) :=
  match v with
  | PStr s => inr (chars s)
  | PList l => inr l
  | PNone | PInt _ | PFloat _ => raise TypeError
  end.

(** [len(v)]. *)
Definition py_len (v : pyval) : result nat :=
  length <$> py_iter v.

(** [v[0]]. *)
Definition py_first (v : pyval) : result pyval :=
  match py_iter v with
  | inl e => inl e
  | inr [] => raise IndexError
  | inr (x :: _) => inr x
  end.

(** ** Builtin conversions: [str], [int], [float] *)

Definition str_of_Z (z : Z) : string := NilZero.string_of_int (Z.to_int z).

Fixpoint py_repr (v : pyval) : string :=
  match v with
  | PNone => "None"
  | PInt z => str_of_Z z
  | PFloat x => repr_float x
  | PStr s => repr_str s
  | PList l => "[" +:+ String.concat ", " (py_repr <$> l) +:+ "]"
  end.

Definition py_str (v : pyval) : string :=
  match v with
  | PStr s => s
  | _ => py_repr v
  end.

(** Whitespace that [int] strips from both ends of a str: the blanks of
    ASCII (tab to carriage return, and the space) and, of the characters
    beyond ASCII that a character of the model can be, the two that Unicode
    counts as blanks (U+0085 and U+00A0).  The separators 28 to 31 are not
    stripped. *)
Definition is_space (c : ascii) : bool :=
  let n := nat_of_ascii c in
  ((9 <=? n) && (n <=? 13) || (n =? 32) || (n =? 133) || (n =? 160))%nat.

Definition is_digit (c : ascii) : bool :=
  let n := nat_of_ascii c in ((48 <=? n) && (n <=? 57))%nat.

Definition digit_val (c : ascii) : Z := Z.of_nat (nat_of_ascii c) - 48.

(** Decimal digits, single underscores allowed between digits only. *)
Fixpoint digits_value (acc : Z) (after_digit : bool) (l : list ascii) : option Z :=
  match l with
  | [] => if after_digit then Some acc else None
  | c :: l' =>
      if is_digit c then digits_value (10 * acc + digit_val c) true l'
      else if Ascii.eqb c "_" then
        if after_digit then digits_value acc false l' else None
      else None
  end.

Fixpoint lstrip (l : list ascii) : list ascii :=
  match l with
  | c :: l' => if is_space c then lstrip l' else l
  | [] => []
  end.

Definition strip (l : list ascii) : list ascii :=
  reverse (lstrip (reverse (lstrip l))).

(** [int(s)] for a str [s], base 10. *)
Definition int_of_str (s : string) : result Z :=
  let parsed :=
    match strip (String.list_ascii_of_string s) with
    | "-"%char :: l => Z.opp <$> digits_value 0 false l
    | "+"%char :: l => digits_value 0 false l
    | l => digits_value 0 false l
    end in
  match parsed with
  | Some z => inr z
  | None => raise ValueError
  end.

Definition py_int (v : pyval) : result pyval :=
  match v with
  | PInt z => inr (PInt z)
  | PFloat x => PInt <$> int_of_float x
  | PStr s => PInt <$> int_of_str s
  | PNone | PList _ => raise TypeError
  end.

Definition py_float (v : pyval) : result pyval :=
  match v with
  | PInt z => PFloat <$> float_of_int z
  | PFloat x => inr (PFloat x)
  | PStr s => PFloat <$> float_of_str s
  | PNone | PList _ => raise TypeError
  end.

(** The callables passed as [dtype]: the module passes [str], [int] and
    [float]; custom conversions may construct lists with another one. *)
Inductive dtype : Type :=
  | Dstr
  | Dint
  | Dfloat
  | Dother (f : pyval → result pyval).

(** [dtype(v)] *)
Definition apply_dtype (d : dtype) (v : pyval) : result pyval :=
  match d with
  | Dstr => inr (PStr (py_str v))
  | Dint => py_int v
  | Dfloat => py_float v
  | Dother f => f v
  end.

End WithPython.

(** ** Python dicts

    A dict keeps its keys in insertion order; assigning to a key that is
    present replaces the value where the key stands. *)
Module Dict.
Section Dict.
Context {A : Type}.

Definition t : Type := list (string * A).

Fixpoint get (k : string) (d : t) : option A :=
  match d with
  | [] => None
  | (k', v) :: d' => if String.eqb k k' then Some v else get k d'
  end.

(** [d[k] = v] *)
Fixpoint set (k : string) (v : A) (d : t) : t :=
  match d with
  | [] => [(k, v)]
  | (k', v') :: d' =>
      if String.eqb k k' then (k', v) :: d' else (k', v') :: set k v d'
  end.

(** [d.update(other)] *)
Definition update (d other : t) : t :=
  fold_left (λ acc kv, set kv.1 kv.2 acc) other d.

(** [del d[k]] for a key that is present. *)
Fixpoint remove (k : string) (d : t) : t :=
  match d with
  | [] => []
  | (k', v) :: d' => if String.eqb k k' then d' else (k', v) :: remove k d'
  end.

Definition keys (d : t) : list string := fst <$> d.

(** [{k: v for k in ks}] *)
Definition from_keys (ks : list string) (v : A) : t :=
  fold_left (λ acc k, set k v acc) ks [].

End Dict.
Arguments t : clear implicits.
End Dict.

(** ** FlagChangeList and TypedFlagChangeList *)
Module FlagChangeList.
Section FlagChangeList.
Context `{Python}.

(** The attributes of an instance.  [_dtype] is [None] for an instance of
    [FlagChangeList] itself and set for a [TypedFlagChangeList]. *)
Record t : Type := mk {
  _data : list pyval;
  _changed : bool;
  _dtype : option dtype;
}.

(** [FlagChangeList.__init__] *)
Definition __init__ (data : pyval) : result t :=
  match data with
  | PList l => inr {| _data := l; _changed := false; _dtype := None |}
  | _ => raise TypeError
  end.

(** [TypedFlagChangeList.__init__] *)
Definition typed__init__ (data : pyval) (dtype : dtype) : result t :=
  let data :=
    if negb (has_len data) then [data]
    else match data with
         | PStr _ => [data]
         | PList l => l
         | _ => [data]
         end in
  typed_data ← result_map (apply_dtype dtype) data;
  inr {| _data := typed_data; _changed := false; _dtype := Some dtype |}.

(** [_convert_type]; the base class stores the value as it is. *)
Definition _convert_type (self : t) (value : pyval) : result pyval :=
  match _dtype self with
  | Some dtype => apply_dtype dtype value
  | None => inr value
  end.

(** The position an int index denotes in a list of [n] items. *)
Definition index (n : nat) (key : Z) : result nat :=
  if (0 <=? key) && (key <? Z.of_nat n) then inr (Z.to_nat key)
  else if (key <? 0) && (- Z.of_nat n <=? key) then inr (Z.to_nat (Z.of_nat n + key))
  else raise IndexError.

Definition __getitem__ (self : t) (key : Z) : result pyval :=
  i ← index (length (_data self)) key;
  match _data self !! i with
  | Some v => inr v
  | None => raise IndexError
  end.

Definition __len__ (self : t) : nat := length (_data self).

Definition __setitem__ (self : t) (key : Z) (value : pyval) : result t :=
  typed_value ← _convert_type self value;
  i ← index (length (_data self)) key;
  inr {| _data := <[i := typed_value]> (_data self);
         _changed := true;
         _dtype := _dtype self |}.

Definition __delitem__ (self : t) (key : Z) : result t :=
  i ← index (length (_data self)) key;
  inr {| _data := delete i (_data self);
         _changed := true;
         _dtype := _dtype self |}.

(** [list.insert] clips the position to the ends of the list. *)
Definition insert_pos (n : nat) (key : Z) : nat :=
  if key <? 0 then Z.to_nat (Z.max 0 (Z.of_nat n + key))
  else Z.to_nat (Z.min key (Z.of_nat n)).

(** The index of [list.insert] is read as a C [ssize_t], of 64 bits here. *)
Definition fits_ssize_t (key : Z) : bool :=
  (- 2 ^ 63 <=? key) && (key <? 2 ^ 63).

(** [insert]: the value is converted, then [list.insert] refuses an index
    that does not fit, before anything is changed. *)
Definition insert (self : t) (key : Z) (value : pyval) : result t :=
  typed_value ← _convert_type self value;
  if negb (fits_ssize_t key) then raise OverflowError
  else
    let i := insert_pos (length (_data self)) key in
    inr {| _data := take i (_data self) ++ typed_value :: drop i (_data self);
           _changed := true;
           _dtype := _dtype self |}.

End FlagChangeList.
End FlagChangeList.

(** ** Files

    Paths are the absolute paths [os.path.abspath] returns; there are no
    links, so two paths name the same file exactly when they are equal.
    Every path can be created and every file can be read and written (no
    permissions, no missing parent directories).  Text is 8-bit
    transparent. *)
Inductive node : Type :=
  | File (content : string)
  | Dir.

Abbreviation filesystem := (gmap string node).

Definition isfile (fs : filesystem) (path : string) : bool :=
  match fs !! path with Some (File _) => true | _ => false end.

Definition exists_ (fs : filesystem) (path : string) : bool :=
  match fs !! path with Some _ => true | None => false end.

(** [s.split(sep)] for a one character separator. *)
Fixpoint split (sep : ascii) (s : string) : list string :=
  match s with
  | EmptyString => [""]
  | String c s' =>
      if Ascii.eqb c sep then "" :: split sep s'
      else match split sep s' with
           | h :: t => String c h :: t
           | [] => [String c ""]
           end
  end.

Definition newline : ascii := ascii_of_nat 10.
Definition carriage_return : ascii := ascii_of_nat 13.
Definition lf : string := String newline EmptyString.

(** What reading in text mode does to line ends: CR LF and a lone CR become
    LF. *)
Fixpoint universal_newlines (s : string) : string :=
  match s with
  | EmptyString => EmptyString
  | String c s' =>
      if Ascii.eqb c carriage_return then
        match s' with
        | String c' s'' =>
            if Ascii.eqb c' newline then String newline (universal_newlines s'')
            else String newline (universal_newlines s')
        | EmptyString => String newline EmptyString
        end
      else String c (universal_newlines s')
  end.

(** [with open(path, "r") as f: f.read()] *)
Definition read_text (fs : filesystem) (path : string) : result string :=
  match fs !! path with
  | Some (File content) => inr (universal_newlines content)
  | Some Dir => raise IsADirectoryError
  | None => raise FileNotFoundError
  end.

(** [with open(path, "w") as f: f.write(text)] *)
Definition write_text (fs : filesystem) (path text : string) : result unit * filesystem :=
  match fs !! path with
  | Some Dir => (raise IsADirectoryError, fs)
  | _ => (inr (), <[path := File text]> fs)
  end.

Definition basename (path : string) : string :=
  List.last (split "/" path) "".

Definition ends_with_slash (path : string) : bool :=
  match reverse (String.list_ascii_of_string path) with
  | c :: _ => Ascii.eqb c "/"
  | [] => false
  end.

(** [os.path.join(dir, name)] for a relative [name]. *)
Definition path_join (dir name : string) : string :=
  if ends_with_slash dir || String.eqb dir "" then dir +:+ name
  else dir +:+ "/" +:+ name.

(** [shutil.copy2(src, dst)]: into [dst] when it is a directory, refusing to
    copy a file onto itself (two paths are the same file when they are equal
    and something is there), then the bytes of [src]. *)
Definition copy2 (fs : filesystem) (src dst : string) : result unit * filesystem :=
  let dst := match fs !! dst with
             | Some Dir => path_join dst (basename src)
             | _ => dst
             end in
  if String.eqb src dst && exists_ fs src then (raise SameFileError, fs)
  else match fs !! src with
       | None => (raise FileNotFoundError, fs)
       | Some Dir => (raise IsADirectoryError, fs)
       | Some (File content) =>
           match fs !! dst with
           | Some Dir => (raise IsADirectoryError, fs)
           | _ => (inr (), <[dst := File content]> fs)
           end
       end.

(** ** The store *)
Section Store.
Context `{Python}.

(** What a custom conversion of [_SPECIAL_PARAM_DISPATCH] hands back: any
    plain value, or a list object it has just constructed (whose flag
    [__init__] has set to [False]), given by its items and its [_dtype]. *)
Inductive constructed : Type :=
  | NewPlain (v : pyval)
  | NewList (data : list pyval) (dtype : option dtype).

(** The class attributes and the one abstract method a subclass of
    [LineBasedMDConfig] supplies. *)
Record MDClass : Type := {
  _KEY_VALUE_SEPARATOR : string;
  _INTER_VALUE_CHAR : string;
  _FLOAT_PARAMS : list string;
  _FLOAT_SINGLETON_PARAMS : list string;
  _INT_PARAMS : list string;
  _INT_SINGLETON_PARAMS : list string;
  _SPECIAL_PARAM_DISPATCH : Dict.t (pyval → result constructed);
  (** The items of the dict that [_parse_line] returns for a line, in the
      order in which the method enters them. *)
  _parse_line : string → result (list (string * pyval));
}.

(** The values of the type dispatch: the lambdas of
    [_construct_type_dispatch] and the custom functions. *)
Inductive rule : Type :=
  | TypedList (dtype : dtype)
  | Len1ListOrSingleton (dtype : dtype)
  | Special (f : pyval → result constructed).

Definition convert_len1_list_or_singleton (val : pyval) (dtype : dtype)
  : result pyval :=
  if negb (has_len val) then apply_dtype dtype val
  else (v0 ← py_first val; apply_dtype dtype v0).

Definition _construct_type_dispatch (cls : MDClass) : Dict.t rule :=
  let type_dispatch := [] in
  let type_dispatch :=
    Dict.update type_dispatch
      (Dict.from_keys (_FLOAT_PARAMS cls) (TypedList Dfloat)) in
  let type_dispatch :=
    Dict.update type_dispatch
      (Dict.from_keys (_FLOAT_SINGLETON_PARAMS cls) (Len1ListOrSingleton Dfloat)) in
  let type_dispatch :=
    Dict.update type_dispatch
      (Dict.from_keys (_INT_PARAMS cls) (TypedList Dint)) in
  let type_dispatch :=
    Dict.update type_dispatch
      (Dict.from_keys (_INT_SINGLETON_PARAMS cls) (Len1ListOrSingleton Dint)) in
  let type_dispatch :=
    Dict.update type_dispatch (prod_map id Special <$> _SPECIAL_PARAM_DISPATCH cls) in
  type_dispatch.

(** [type_dispatch[key]]: the default factory answers for a missing key. *)
Definition type_dispatch_get (type_dispatch : Dict.t rule) (key : string) : rule :=
  default (TypedList Dstr) (Dict.get key type_dispatch).

(** What calling a rule on a value constructs. *)
Definition run_rule (r : rule) (value : pyval) : result constructed :=
  match r with
  | TypedList d =>
      l ← FlagChangeList.typed__init__ value d;
      inr (NewList (FlagChangeList._data l) (FlagChangeList._dtype l))
  | Len1ListOrSingleton d =>
      NewPlain <$> convert_len1_list_or_singleton value d
  | Special f => f value
  end.

(** A value of the store's table: a plain value, or a reference to a list
    object. *)
Inductive entry : Type :=
  | Plain (v : pyval)
  | Ref (l : nat).

(** The world outside the store object: files, the records of the module's
    logger, and the list objects. *)
Record world : Type := mkWorld {
  fs : filesystem;
  log : list string;
  heap : list FlagChangeList.t;
}.

Definition set_fs (w : world) (fs' : filesystem) : world :=
  {| fs := fs'; log := log w; heap := heap w |}.
Definition set_log (w : world) (log' : list string) : world :=
  {| fs := fs w; log := log'; heap := heap w |}.
Definition set_heap (w : world) (heap' : list FlagChangeList.t) : world :=
  {| fs := fs w; log := log w; heap := heap' |}.

(** A new object goes to the end of the heap. *)
Definition place (c : constructed) (hp : list FlagChangeList.t)
  : entry * list FlagChangeList.t :=
  match c with
  | NewPlain v => (Plain v, hp)
  | NewList data dtype =>
      (Ref (length hp),
       hp ++ [{| FlagChangeList._data := data;
                 FlagChangeList._changed := false;
                 FlagChangeList._dtype := dtype |}])
  end.

(** [self._type_dispatch[key](value)] *)
Definition dispatch (cls : MDClass) (key : string) (value : pyval)
    (hp : list FlagChangeList.t) : result entry * list FlagChangeList.t :=
  match run_rule (type_dispatch_get (_construct_type_dispatch cls) key) value with
  | inl e => (inl e, hp)
  | inr c => let '(en, hp') := place c hp in (inr en, hp')
  end.

(** The attributes of a [LineBasedMDConfig] instance ([_type_dispatch] is
    [_construct_type_dispatch] of the class throughout). *)
Record LineBasedMDConfig : Type := mkStore {
  _config : Dict.t entry;
  _changed : bool;
  _original_file : option string;
}.

End Store.

Section Methods.
Context `{Python} (cls : MDClass).

(** A method call on the list object at location [l]: the object is
    updated in place, unless the method raises.  No program holds a location
    that was never allocated; such a call is answered with an error. *)
Definition call (l : nat) (method : FlagChangeList.t → result FlagChangeList.t)
    (w : world) : result unit * world :=
  match heap w !! l with
  | None => (raise (OtherError "invalid reference"), w)
  | Some self =>
      match method self with
      | inl e => (inl e, w)
      | inr self' => (inr (), set_heap w (<[l := self']> (heap w)))
      end
  end.

(** A method that leaves the flag of the object set when it returns. *)
Definition sets_flag (method : FlagChangeList.t → result FlagChangeList.t) : Prop :=
  ∀ o o', method o = inr o' → FlagChangeList._changed o' = true.

(** [getattr(v, "changed", False)] for an entry of the table. *)
Definition entry_changed (hp : list FlagChangeList.t) (v : entry) : bool :=
  match v with
  | Plain _ => false
  | Ref l =>
      match hp !! l with
      | Some o => FlagChangeList._changed o
      | None => false
      end
  end.

(** [LineBasedMDConfig.changed] *)
Definition changed (self : LineBasedMDConfig) (w : world) : bool :=
  let single_vals_changed := (λ kv, entry_changed (heap w) kv.2) <$> _config self in
  _changed self || existsb id single_vals_changed.

Definition __getitem__ (self : LineBasedMDConfig) (key : string) : result entry :=
  match Dict.get key (_config self) with
  | Some v => inr v
  | None => raise KeyError
  end.

Definition __setitem__ (self : LineBasedMDConfig) (key : string) (value : pyval)
    (w : world) : result unit * LineBasedMDConfig * world :=
  match dispatch cls key value (heap w) with
  | (inl e, _) => (inl e, self, w)
  | (inr typed_value, hp) =>
      (inr (),
       {| _config := Dict.set key typed_value (_config self);
          _changed := true;
          _original_file := _original_file self |},
       set_heap w hp)
  end.

Definition __delitem__ (self : LineBasedMDConfig) (key : string)
  : result unit * LineBasedMDConfig :=
  match Dict.get key (_config self) with
  | None => (raise KeyError, self)
  | Some _ =>
      (inr (),
       {| _config := Dict.remove key (_config self);
          _changed := true;
          _original_file := _original_file self |})
  end.

Definition __len__ (self : LineBasedMDConfig) : nat := length (_config self).

Definition __iter__ (self : LineBasedMDConfig) : list string := Dict.keys (_config self).

(** The getter of [original_file]. *)
Definition original_file (self : LineBasedMDConfig) : result string :=
  match _original_file self with
  | Some path => inr path
  | None => raise AttributeError
  end.

Definition duplicate_warning (key : string) : string :=
  "Parsed duplicate configuration option " +:+
  "(" +:+ key +:+ "). Last values encountered take " +:+ "precedence.".

(** The inner loop of [parse]: one warning for every key of the line that
    the table already has. *)
Definition warn_duplicates (parsed line_parsed : Dict.t pyval) (lg : list string)
  : list string :=
  fold_left
    (λ lg key,
       match Dict.get key parsed with
       | None => lg
       | Some _ => lg ++ [duplicate_warning key]
       end)
    (Dict.keys line_parsed) lg.

(** [self._parse_line(line)]: the dict of the items. *)
Definition parse_line (line : string) : result (Dict.t pyval) :=
  Dict.update [] <$> _parse_line cls line.

(** The outer loop of [parse] over the lines of the file. *)
Fixpoint parse_lines (lines : list string) (parsed : Dict.t pyval) (lg : list string)
  : result (Dict.t pyval) * list string :=
  match lines with
  | [] => (inr parsed, lg)
  | line :: lines' =>
      match parse_line line with
      | inl e => (inl e, lg)
      | inr line_parsed =>
          let lg := warn_duplicates parsed line_parsed lg in
          parse_lines lines' (Dict.update parsed line_parsed) lg
      end
  end.

(** [{key: self._type_dispatch[key](value) for key, value in parsed.items()}] *)
Fixpoint convert_items (items : list (string * pyval)) (acc : Dict.t entry)
    (hp : list FlagChangeList.t) : result (Dict.t entry) * list FlagChangeList.t :=
  match items with
  | [] => (inr acc, hp)
  | (key, value) :: items' =>
      match dispatch cls key value hp with
      | (inl e, hp') => (inl e, hp')
      | (inr typed_value, hp') =>
          convert_items items' (Dict.set key typed_value acc) hp'
      end
  end.

(** [LineBasedMDConfig.parse] *)
Definition parse (self : LineBasedMDConfig) (w : world)
  : result unit * LineBasedMDConfig * world :=
  match original_file self with
  | inl e => (inl e, self, w)
  | inr path =>
      match read_text (fs w) path with
      | inl e => (inl e, self, w)
      | inr file_content =>
          match parse_lines (split newline file_content) [] (log w) with
          | (inl e, lg) => (inl e, self, set_log w lg)
          | (inr parsed, lg) =>
              match convert_items parsed [] (heap w) with
              | (inl e, hp) => (inl e, self, set_heap (set_log w lg) hp)
              | (inr config, hp) =>
                  (inr (),
                   {| _config := config;
                      _changed := false;
                      _original_file := _original_file self |},
                   set_heap (set_log w lg) hp)
              end
          end
      end
  end.

(** The setter of [original_file]. *)
Definition set_original_file (self : LineBasedMDConfig) (value : string) (w : world)
  : result unit * LineBasedMDConfig * world :=
  let value := abspath value in
  if negb (isfile (fs w) value) then (raise ValueError, self, w)
  else
    parse {| _config := _config self;
             _changed := _changed self;
             _original_file := Some value |} w.

(** [LineBasedMDConfig.__init__]: the new instance, unless binding it to the
    file raises. *)
Definition __init__ (original_file : string) (w : world)
  : result LineBasedMDConfig * world :=
  let self := {| _config := []; _changed := false; _original_file := None |} in
  match set_original_file self original_file w with
  | (inl e, _, w') => (inl e, w')
  | (inr _, self', w') => (inr self', w')
  end.

(** The line [write] makes of one entry: the key and the separator, then
    the items joined, nothing when there are none; a value on which
    [len(value)] raises [TypeError] is put in its string form. *)
Definition joined (items : list pyval) : string :=
  match items with
  | [] => ""
  | _ => String.concat (_INTER_VALUE_CHAR cls) (py_str <$> items)
  end.

Definition entry_line (hp : list FlagChangeList.t) (key : string) (value : entry)
  : result string :=
  let line := key +:+ _KEY_VALUE_SEPARATOR cls in
  match value with
  | Ref l =>
      match hp !! l with
      | Some o => inr (line +:+ joined (FlagChangeList._data o))
      | None => raise (OtherError "invalid reference")
      end
  | Plain v =>
      match py_iter v with
      | inr items => inr (line +:+ joined items)
      | inl _ => inr (line +:+ py_str v)
      end
  end.

(** [LineBasedMDConfig.write] *)
Definition write (self : LineBasedMDConfig) (outfile : string) (overwrite : bool)
    (w : world) : result unit * LineBasedMDConfig * world :=
  let outfile := abspath outfile in
  if exists_ (fs w) outfile && negb overwrite then (raise ValueError, self, w)
  else if negb (changed self w) then
    match original_file self with
    | inl e => (inl e, self, w)
    | inr src =>
        let '(r, fs') := copy2 (fs w) src outfile in
        (r, self, set_fs w fs')
    end
  else
    match result_map (λ kv, entry_line (heap w) kv.1 kv.2) (_config self) with
    | inl e => (inl e, self, w)
    | inr lines =>
        let out_str := String.concat lf lines in
        let '(r, fs') := write_text (fs w) outfile out_str in
        (r, self, set_fs w fs')
    end.

End Methods.

(** ** What a caller sees of the table *)
Section Views.
Context `{Python} (cls : MDClass).

(** An entry as a caller sees it: the plain value, or the list object the
    reference leads to. *)
Inductive shown : Type :=
  | ShownPlain (v : pyval)
  | ShownList (o : FlagChangeList.t).

Definition resolve (hp : list FlagChangeList.t) (v : entry) : option shown :=
  match v with
  | Plain v => Some (ShownPlain v)
  | Ref l => ShownList <$> hp !! l
  end.

Definition view (hp : list FlagChangeList.t) (acc : Dict.t entry)
  : Dict.t (option shown) :=
  prod_map id (resolve hp) <$> acc.

(** The table of a store, key by key, with the objects in place of the
    references. *)
Definition table (self : LineBasedMDConfig) (w : world) : Dict.t (option shown) :=
  view (heap w) (_config self).

Definition valid (hp : list FlagChangeList.t) (kv : string * entry) : Prop :=
  is_Some (resolve hp kv.2).

(** Every reference of the table leads to an object. *)
Definition valid_refs (self : LineBasedMDConfig) (w : world) : Prop :=
  Forall (valid (heap w)) (_config self).

Definition as_new (c : constructed) : shown :=
  match c with
  | NewPlain v => ShownPlain v
  | NewList data dtype =>
      ShownList {| FlagChangeList._data := data;
                   FlagChangeList._changed := false;
                   FlagChangeList._dtype := dtype |}
  end.

(** An entry as a conversion has just made it. *)
Definition is_new (kv : string * option shown) : Prop := ∃ c, kv.2 = Some (as_new c).

Definition rule_of (key : string) : rule :=
  type_dispatch_get (_construct_type_dispatch cls) key.

(** The conversions of [parse] without the heap: what each kept value is
    converted to. *)
Fixpoint construct_items (items : list (string * pyval)) (acc : Dict.t (option shown))
  : result (Dict.t (option shown)) :=
  match items with
  | [] => inr acc
  | (key, value) :: items' =>
      match run_rule (rule_of key) value with
      | inl e => inl e
      | inr c => construct_items items' (Dict.set key (Some (as_new c)) acc)
      end
  end.

(** The table that [parse] builds from the bytes of a file. *)
Definition parsed_table (content : string) : result (Dict.t (option shown)) :=
  match parse_lines cls (split newline (universal_newlines content)) [] [] with
  | (inl e, _) => inl e
  | (inr parsed, _) => construct_items parsed []
  end.

(** The store holds what its original file says. *)
Definition in_sync (self : LineBasedMDConfig) (w : world) : Prop :=
  ∃ path content,
    _original_file self = Some path ∧
    fs w !! path = Some (File content) ∧
    parsed_table content = inr (table self w).

(** The meaning of the [changed] property: when it is false, the store
    holds what its original file says. *)
Definition consistent (self : LineBasedMDConfig) (w : world) : Prop :=
  changed self w = false → in_sync self w.

(** The line of an entry as the description of the format has it: the key
    and the separator, followed for a container by its items joined, by
    nothing when it has none, and for a value that is not a container by its
    string form. *)
Definition container_line (key : string) (items : list pyval) : string :=
  match items with
  | [] => key +:+ _KEY_VALUE_SEPARATOR cls
  | _ =>
      key +:+ _KEY_VALUE_SEPARATOR cls +:+
      String.concat (_INTER_VALUE_CHAR cls) (py_str <$> items)
  end.

Definition key_value_line (key : string) (value : shown) : string :=
  match value with
  | ShownList o => container_line key (FlagChangeList._data o)
  | ShownPlain v =>
      match py_iter v with
      | inr items => container_line key items
      | inl _ => key +:+ _KEY_VALUE_SEPARATOR cls +:+ py_str v
      end
  end.

(** [key] is declared in the singleton family of [d] and no family that
    [_construct_type_dispatch] enters later declares it too. *)
Definition singleton_key (key : string) (d : dtype) : Prop :=
  (key ∉ Dict.keys (_SPECIAL_PARAM_DISPATCH cls)) ∧
  (match d with
   | Dint => key ∈ _INT_SINGLETON_PARAMS cls
   | Dfloat =>
       (key ∈ _FLOAT_SINGLETON_PARAMS cls) ∧
       (key ∉ _INT_PARAMS cls) ∧ (key ∉ _INT_SINGLETON_PARAMS cls)
   | Dstr | Dother _ => False
   end).

(** A scalar of the element type, as opposed to a list. *)
Definition scalar_of (d : dtype) (v : pyval) : bool :=
  match d, v with
  | Dint, PInt _ => true
  | Dfloat, PFloat _ => true
  | Dstr, PStr _ => true
  | _, _ => false
  end.

End Views.

(** ** Using a store

    What a caller may do with a store it has bound, short of binding it
    anew: assign and delete entries, call the mutating methods of a list it
    holds a reference to, and write the store out.  A step keeps the state
    in which the operation ends, whether it returns or raises. *)
Section Use.
Context `{Python} (cls : MDClass).

Inductive op : Type :=
  | SetEntry (key : string) (value : pyval)
  | DelEntry (key : string)
  | ListSetItem (l : nat) (i : Z) (value : pyval)
  | ListDelItem (l : nat) (i : Z)
  | ListInsert (l : nat) (i : Z) (value : pyval)
  | WriteOut (outfile : string) (overwrite : bool).

Definition step (o : op) (st : LineBasedMDConfig * world) : LineBasedMDConfig * world :=
  let '(self, w) := st in
  match o with
  | SetEntry key value =>
      let '(_, self', w') := __setitem__ cls self key value w in (self', w')
  | DelEntry key => ((__delitem__ self key).2, w)
  | ListSetItem l i value =>
      (self, (call l (λ o, FlagChangeList.__setitem__ o i value) w).2)
  | ListDelItem l i =>
      (self, (call l (λ o, FlagChangeList.__delitem__ o i) w).2)
  | ListInsert l i value =>
      (self, (call l (λ o, FlagChangeList.insert o i value) w).2)
  | WriteOut outfile overwrite =>
      let '(_, self', w') := write cls self outfile overwrite w in (self', w')
  end.

Definition steps (ops : list op) (st : LineBasedMDConfig * world)
  : LineBasedMDConfig * world :=
  fold_left (λ st o, step o st) ops st.

(** What every step keeps: the meaning of [changed], and the validity of
    the references of the table. *)
Definition sound (st : LineBasedMDConfig * world) : Prop :=
  consistent cls st.1 st.2 ∧ valid_refs st.1 st.2.

End Use.

(** ** What the lists and the table keep *)
Section Kept.
Context `{Python}.

(** Every item of a typed list is a scalar of the element type. *)
Definition items_typed (o : FlagChangeList.t) : Prop :=
  match FlagChangeList._dtype o with
  | Some d => Forall (λ v, scalar_of d v = true) (FlagChangeList._data o)
  | None => True
  end.

(** The items a constructor of a typed list converts: those of a list, the
    value itself otherwise (a str included). *)
Definition items_of_value (value : pyval) : list pyval :=
  match value with
  | PList l => l
  | _ => [value]
  end.

(** [str(v)] returns.  The interpreter refuses to convert an int of more
    than 4300 digits to a str (the default of [sys.int_max_str_digits]);
    [py_str] is the text that [str] gives when it returns, and the limit is
    stated where a value of any size is converted. *)
Fixpoint str_returns (v : pyval) : bool :=
  match v with
  | PInt z => Z.abs z <? 10 ^ 4300
  | PList l => forallb str_returns l
  | PNone | PFloat _ | PStr _ => true
  end.

(** [str] returns for every item that [write] converts of an entry. *)
Definition entry_str_returns (s : shown) : bool :=
  match s with
  | ShownPlain v => str_returns v
  | ShownList o => forallb str_returns (FlagChangeList._data o)
  end.

(** The keys in the order in which they are first seen. *)
Definition first_seen (ks : list string) : list string :=
  fold_left (λ acc k, if decide (k ∈ acc) then acc else acc ++ [k]) ks [].

End Kept.

(** ** What the lines of a file yield *)
Section Yielded.
Context `{Python} (cls : MDClass).

(** The keys that the lines yield, in the order of the file, with their
    repetitions; a line that does not parse yields none. *)
Definition yielded_keys (lines : list string) : list string :=
  concat ((λ line, match parse_line cls line with
                   | inr d => Dict.keys d
                   | inl _ => []
                   end) <$> lines).

End Yielded.

(** ** Reading back what was written *)
Section ReadBack.
Context `{Python}.


(** The characters of a str. *)
Definition chars_of (s : string) : list ascii := String.list_ascii_of_string s.

End ReadBack.

(** * asyncmd.gromacs.utils

    The helpers of [src/asyncmd/gromacs/utils.py]: [get_all_file_parts],
    which names the parts of a simulation from the listing of its folder,
    and [ensure_mdp_options] and [nstout_from_mdp], which work on a store.
    [get_all_traj_parts] wraps the names that [get_all_file_parts] returns in
    objects of another module and is not modelled. *)

(** ** The methods of [str] that the helpers call *)

Fixpoint is_prefix (p l : list ascii) : bool :=
  match p, l with
  | [], _ => true
  | c :: p', c' :: l' => Ascii.eqb c c' && is_prefix p' l'
  | _ :: _, [] => false
  end.

(** [s.startswith(prefix)] *)
Definition str_startswith (s prefix : string) : bool :=
  is_prefix (chars_of prefix) (chars_of s).

(** [s.endswith(suffix)] *)
Definition str_endswith (s suffix : string) : bool :=
  is_prefix (reverse (chars_of suffix)) (reverse (chars_of s)).

Definition in_chars (c : ascii) (set : list ascii) : bool :=
  existsb (Ascii.eqb c) set.

Fixpoint lstrip_set (set l : list ascii) : list ascii :=
  match l with
  | c :: l' => if in_chars c set then lstrip_set set l' else l
  | [] => []
  end.

(** [s.lstrip(chars)]: the leading characters that occur in [chars] go, in
    whatever order they stand. *)
Definition str_lstrip (s chars : string) : string :=
  String.string_of_list_ascii (lstrip_set (chars_of chars) (chars_of s)).

(** [s.rstrip(chars)] *)
Definition str_rstrip (s chars : string) : string :=
  String.string_of_list_ascii
    (reverse (lstrip_set (chars_of chars) (reverse (chars_of s)))).

(** ** get_all_file_parts *)
Section FileParts.

(** [os.listdir]: the names in a folder, in the order in which the file
    system gives them, or the exception it raises. *)
Variable listdir : string → result (list string).

(** The loop [while len(num_suffix) < 4: num_suffix = "0" + num_suffix]; it
    runs at most four times. *)
Fixpoint zero_pad (fuel : nat) (num_suffix : string) : string :=
  match fuel with
  | O => num_suffix
  | S fuel' =>
      if (String.length num_suffix <? 4)%nat then zero_pad fuel' ("0" +:+ num_suffix)
      else num_suffix
  end.

Definition partnum_suffix (num : Z) : string :=
  let num_suffix := str_of_Z num in
  let num_suffix := zero_pad 4 num_suffix in
  let num_suffix := ".part" +:+ num_suffix in
  num_suffix.

(** [os.path.join(a, b)] *)
Definition os_path_join (a b : string) : string :=
  if str_startswith b "/" then b else path_join a b.

(** [np.max] of a list of ints; numpy holds them as 64 bit integers, so the
    value is that of numpy for numbers below [2^63 - 1]. *)
Definition np_max (l : list Z) : result Z :=
  match l with
  | [] => raise ValueError
  | x :: l' => inr (fold_left Z.max l' x)
  end.

(** The file ending with its dot. *)
Definition dotted (file_ending : string) : string :=
  if negb (str_startswith file_ending ".") then "." +:+ file_ending else file_ending.

(** The test of the filter, for a file ending that has its dot. *)
Definition is_part (deffnm file_ending f : string) : bool :=
  str_endswith f file_ending && str_startswith f (deffnm +:+ ".part").

(** [int(f.lstrip(f"{deffnm}.part").rstrip(file_ending))] *)
Definition partnum (deffnm file_ending f : string) : result Z :=
  int_of_str (str_rstrip (str_lstrip f (deffnm +:+ ".part")) file_ending).

Definition get_all_file_parts (folder deffnm file_ending : string) : result (list string) :=
  let file_ending := dotted file_ending in
  content ← listdir folder;
  let filtered := filter (λ f, is_part deffnm file_ending f = true) content in
  partnums ← result_map (partnum deffnm file_ending) filtered;
  max_num ← (if (0 <? length partnums)%nat then np_max partnums else inr 0);
  let parts :=
    (λ num, os_path_join folder (deffnm +:+ partnum_suffix num +:+ file_ending))
      <$> seqZ 1 max_num in
  inr parts.

End FileParts.

(** The name of the file of part [num]. *)
Definition part_file (deffnm file_ending : string) (num : Z) : string :=
  deffnm +:+ partnum_suffix num +:+ file_ending.

(** ** ensure_mdp_options *)

(** The levels of the records that the helpers log. *)
Inductive level : Type :=
  | INFO
  | WARNING.

Section MdpOptions.
Context `{Python} (cls : MDClass).

(** [value[0]] for an entry of the table: the first item of a list object,
    what indexing gives for a plain value. *)
Definition entry_first (hp : list FlagChangeList.t) (value : entry) : result pyval :=
  match value with
  | Plain v => py_first v
  | Ref l =>
      match hp !! l with
      | Some o => FlagChangeList.__getitem__ o 0
      | None => raise (OtherError "invalid reference")
      end
  end.

(** [v != s] for a str [s]: only an equal str is equal to it. *)
Definition differs (v : pyval) (s : string) : bool :=
  match v with
  | PStr s' => negb (String.eqb s' s)
  | _ => true
  end.

(** The state that [ensure_mdp_options] works on: the store, the world, and
    the records of the logger of [gromacs/utils.py]. *)
Definition mdp_state : Type := LineBasedMDConfig * world * list (level * string).

(** What the function does for one option, written out in it once for
    [gen-vel] and once for [continuation]. *)
Definition ensure_option (key value : string) (st : mdp_state) : result unit * mdp_state :=
  let '(mdp, w, lg) := st in
  match __getitem__ mdp key with
  | inl KeyError =>
      let lg := lg ++ [(INFO, "Setting '" +:+ key +:+ " = " +:+ value +:+ "' in mdp.")] in
      let '(r, mdp', w') := __setitem__ cls mdp key (PStr value) w in
      (r, (mdp', w', lg))
  | inl e => (inl e, st)
  | inr test =>
      match entry_first (heap w) test with
      | inl e => (inl e, st)
      | inr first =>
          if differs first value then
            let lg :=
              lg ++ [(WARNING,
                      "Setting '" +:+ key +:+ " = " +:+ value +:+ "' in mdp " +:+
                      "(was '" +:+ py_str first +:+ "').")] in
            let '(r, mdp', w') := __setitem__ cls mdp key (PStr value) w in
            (r, (mdp', w', lg))
          else (inr (), st)
      end
  end.

(** The store is modified in place and returned; the state is the one in
    which the function ends, whether it returns or raises. *)
Definition ensure_mdp_options (mdp : LineBasedMDConfig) (genvel continuation : string)
    (w : world) (lg : list (level * string)) : result unit * mdp_state :=
  match ensure_option "gen-vel" genvel (mdp, w, lg) with
  | (inl e, st) => (inl e, st)
  | (inr _, st) => ensure_option "continuation" continuation st
  end.

(** [mdp[key][0] == value] *)
Definition option_is (key value : string) (mdp : LineBasedMDConfig) (w : world) : Prop :=
  ∃ v, __getitem__ mdp key = inr v ∧ entry_first (heap w) v = inr (PStr value).

End MdpOptions.

(** ** nstout_from_mdp *)

(** What the runtime answers when two plain values are compared. *)
Class PythonCompare `{Python} : Type := {
  (** [a == b] *)
  py_eq : pyval → pyval → bool;
  (** [a < b]; [TypeError] when the two are not ordered. *)
  py_lt : pyval → pyval → result bool;
}.

(** [c.upper()] for a character of the ASCII range. *)
Definition upper_char (c : ascii) : ascii :=
  let n := nat_of_ascii c in
  if ((97 <=? n) && (n <=? 122))%nat then ascii_of_nat (n - 32) else c.

(** [s.upper()] *)
Definition str_upper (s : string) : string :=
  String.string_of_list_ascii (upper_char <$> chars_of s).

Section Nstout.
Context `{PythonCompare}.

(** [a == b] for two values of the table.  A list object defines no
    comparison: it is equal to itself only. *)
Definition entry_eq (a b : entry) : bool :=
  match a, b with
  | Plain x, Plain y => py_eq x y
  | Ref l, Ref l' => bool_decide (l = l')
  | _, _ => false
  end.

(** [a < b] *)
Definition entry_lt (a b : entry) : result bool :=
  match a, b with
  | Plain x, Plain y => py_lt x y
  | _, _ => raise TypeError
  end.

(** [float("inf")] *)
Definition float_inf : result entry :=
  x ← float_of_str "inf"; inr (Plain (PFloat x)).

(** The loop of [min]: an item replaces the one kept when it is less. *)
Fixpoint min_from (kept : entry) (items : list entry) : result entry :=
  match items with
  | [] => inr kept
  | item :: items' =>
      less ← entry_lt item kept;
      min_from (if less : bool then item else kept) items'
  end.

(** [min(vals, default=None)] *)
Definition py_min (vals : list entry) : result (option entry) :=
  match vals with
  | [] => inr None
  | item :: items => Some <$> min_from item items
  end.

(** The loop over the keys: a key that the store does not hold is passed
    over, a value that is equal to 0 counts as infinity. *)
Fixpoint collect_vals (mdp : LineBasedMDConfig) (keys : list string) (vals : list entry)
  : result (list entry) :=
  match keys with
  | [] => inr vals
  | k :: keys' =>
      let attempt :=
        v ← __getitem__ mdp k;
        v ← (if entry_eq v (Plain (PInt 0)) then float_inf else inr v);
        inr (vals ++ [v]) in
      match attempt with
      | inl KeyError => collect_vals mdp keys' vals
      | inl e => inl e
      | inr vals => collect_vals mdp keys' vals
      end
  end.

(** The keys that hold the output frequencies of a trajectory type. *)
Definition nstout_keys (traj_type : string) : result (list string) :=
  if String.eqb (str_upper traj_type) "TRR" then inr ["nstxout"; "nstvout"; "nstfout"]
  else if String.eqb (str_upper traj_type) "XTC" then inr ["nstxout-compressed"; "nstxtcout"]
  else raise ValueError.

Definition nstout_from_mdp (mdp : LineBasedMDConfig) (traj_type : string) : result entry :=
  keys ← nstout_keys traj_type;
  vals ← collect_vals mdp keys [];
  nstout ← py_min vals;
  match nstout with
  | None => raise ValueError
  | Some nstout =>
      inf ← float_inf;
      if entry_eq nstout inf then raise ValueError else inr nstout
  end.

(** What the comparisons of Python answer on ints and on the infinity
    [inf] of the floats. *)
Definition compares_ints (inf : pyfloat) : Prop :=
  float_of_str "inf" = inr inf ∧
  (∀ a b, py_eq (PInt a) (PInt b) = (a =? b)) ∧
  (∀ a, py_eq (PInt a) (PFloat inf) = false) ∧
  py_eq (PFloat inf) (PFloat inf) = true ∧
  (∀ a b, py_lt (PInt a) (PInt b) = inr (a <? b)) ∧
  (∀ a, py_lt (PInt a) (PFloat inf) = inr true) ∧
  (∀ a, py_lt (PFloat inf) (PInt a) = inr false) ∧
  py_lt (PFloat inf) (PFloat inf) = inr false.

(** A value of [vals] when the store holds ints: an int, or the infinity
    that stands for 0. *)
Definition frequency (inf : pyfloat) (z : option Z) : entry :=
  match z with
  | Some z => Plain (PInt z)
  | None => Plain (PFloat inf)
  end.

End Nstout.

(** * asyncmd._semaphores

    The table of semaphores of [src/asyncmd/_semaphores.py].  A semaphore is
    given by the value it is constructed with. *)

(** [asyncio.BoundedSemaphore(value)]: a value below 0 is refused. *)
Definition BoundedSemaphore (value : Z) : result Z :=
  if value <? 0 then raise ValueError else inr value.

(** [set_max_process]; [cpu_count] is what [os.cpu_count()] answers.  The
    quotient [int(logical_cpu_count / 4)] goes through a float: it is the
    quotient of the integers for counts up to [2^53]. *)
Definition set_max_process (cpu_count : option Z) (num max_num : option Z)
    (_SEMAPHORES : Dict.t (option Z)) : result unit * Dict.t (option Z) :=
  let num :=
    match num with
    | Some num => num
    | None =>
        match cpu_count with
        | Some logical_cpu_count => Z.quot logical_cpu_count 4
        | None => 2
        end
    end in
  let num :=
    match max_num with
    | Some max_num => Z.min num max_num
    | None => num
    end in
  match BoundedSemaphore num with
  | inl e => (inl e, _SEMAPHORES)
  | inr sem => (inr (), Dict.set "MAX_PROCESS" (Some sem) _SEMAPHORES)
  end.

Definition set_max_slurm_jobs (num : Z) (_SEMAPHORES : Dict.t (option Z))
  : result unit * Dict.t (option Z) :=
  match BoundedSemaphore num with
  | inl e => (inl e, _SEMAPHORES)
  | inr sem => (inr (), Dict.set "SLURM_MAX_JOB" (Some sem) _SEMAPHORES)
  end.

(** What importing the module runs; [nofile_soft] is the soft limit that
    [resource.getrlimit(resource.RLIMIT_NOFILE)] answers. *)
Definition import_semaphores (cpu_count : option Z) (nofile_soft : Z)
  : result (Dict.t (option Z)) :=
  let _SEMAPHORES := [] in
  match set_max_process cpu_count None None _SEMAPHORES with
  | (inl e, _) => inl e
  | (inr _, _SEMAPHORES) =>
      sem ← BoundedSemaphore (nofile_soft - 30);
      let _SEMAPHORES := Dict.set "MAX_FILES_OPEN" (Some sem) _SEMAPHORES in
      sem ← BoundedSemaphore 1;
      let _SEMAPHORES := Dict.set "SLURM_CLUSTER_MEDIATOR" (Some sem) _SEMAPHORES in
      let _SEMAPHORES := Dict.set "SLURM_MAX_JOB" None _SEMAPHORES in
      inr _SEMAPHORES
  end.

(** ** A concrete subclass on a concrete runtime

    Used to run the model: a runtime whose floats are the integral values
    and whose paths are absolute already, and a subclass with an
    [key = value value ...] line format in which [;] starts a comment
    line. *)
Module Example.

Definition python : Python := {|
  pyfloat := Z;
  float_of_int := λ z, inr z;
  float_of_str := int_of_str;
  int_of_float := λ x, inr x;
  repr_float := λ x, str_of_Z x +:+ ".0";
  repr_str := λ s, "'" +:+ s +:+ "'";
  abspath := λ path, path;
|}.
#[local] Existing Instance python.

(** The maximal runs of characters other than blanks. *)
Fixpoint words (cur : list ascii) (l : list ascii) : list string :=
  let flush := match cur with
               | [] => []
               | _ => [String.string_of_list_ascii (reverse cur)]
               end in
  match l with
  | [] => flush
  | c :: l' => if is_space c then flush ++ words [] l' else words (c :: cur) l'
  end.

Fixpoint break_at (sep : ascii) (l : list ascii) : option (list ascii * list ascii) :=
  match l with
  | [] => None
  | c :: l' =>
      if Ascii.eqb c sep then Some ([], l')
      else prod_map (cons c) id <$> break_at sep l'
  end.

Definition mdp_parse_line (line : string) : result (list (string * pyval)) :=
  match strip (String.list_ascii_of_string line) with
  | [] => inr []
  | ";"%char :: _ => inr []
  | stripped =>
      match break_at "=" stripped with
      | None => raise ValueError
      | Some (key, values) =>
          inr [(String.string_of_list_ascii (strip key), PList (PStr <$> words [] values))]
      end
  end.

Definition MDP : MDClass := {|
  _KEY_VALUE_SEPARATOR := " = ";
  _INTER_VALUE_CHAR := " ";
  _FLOAT_PARAMS := ["ref_t"];
  _FLOAT_SINGLETON_PARAMS := ["dt"];
  _INT_PARAMS := ["x"];
  _INT_SINGLETON_PARAMS := ["nsteps"];
  _SPECIAL_PARAM_DISPATCH := [];
  _parse_line := mdp_parse_line;
|}.

Definition run_mdp : string :=
  "; run control" +:+ lf +:+ "nsteps = 5000" +:+ lf +:+
  "x = 1 2 3" +:+ lf +:+ "tcoupl = v-rescale" +:+ lf +:+ "define =".

Definition dup_mdp : string := "x = 1" +:+ lf +:+ "x = 2".

(** A directory with a well formed file, a file with a repeated key, a file
    whose value for the int key [x] is not a number, and a file that gives
    no value to the singleton key [nsteps]. *)
Definition disk : filesystem :=
  {[ "/md" := Dir;
     "/md/run.mdp" := File run_mdp;
     "/md/dup.mdp" := File dup_mdp;
     "/md/bad.mdp" := File "x = abc";
     "/md/empty.mdp" := File "nsteps =" ]}.

Definition world0 : world := {| fs := disk; log := []; heap := [] |}.

(** The store bound to [/md/run.mdp] in [world0], and the world after. *)
Definition store1 : LineBasedMDConfig := {|
  _config := [("nsteps", Plain (PInt 5000)); ("x", Ref 0);
              ("tcoupl", Ref 1); ("define", Ref 2)];
  _changed := false;
  _original_file := Some "/md/run.mdp";
|}.

Definition heap1 : list FlagChangeList.t :=
  [FlagChangeList.mk [PInt 1; PInt 2; PInt 3] false (Some Dint);
   FlagChangeList.mk [PStr "v-rescale"] false (Some Dstr);
   FlagChangeList.mk [] false (Some Dstr)].

Definition world1 : world := {| fs := disk; log := []; heap := heap1 |}.

(** [store1] after [store["nsteps"] = 10]. *)
Definition store2 : LineBasedMDConfig := {|
  _config := [("nsteps", Plain (PInt 10)); ("x", Ref 0);
              ("tcoupl", Ref 1); ("define", Ref 2)];
  _changed := true;
  _original_file := Some "/md/run.mdp";
|}.

(** A second store, bound to [/md/dup.mdp] in [world1], and the world after
    it has been written over [/md/run.mdp]. *)
Definition store_dup : LineBasedMDConfig := {|
  _config := [("x", Ref 3)];
  _changed := false;
  _original_file := Some "/md/dup.mdp";
|}.

Definition heap2 : list FlagChangeList.t :=
  heap1 ++ [FlagChangeList.mk [PInt 2] false (Some Dint)].

Definition world2 : world :=
  {| fs := disk; log := [duplicate_warning "x"]; heap := heap2 |}.

Definition world3 : world :=
  {| fs := <["/md/run.mdp" := File dup_mdp]> disk;
     log := [duplicate_warning "x"];
     heap := heap2 |}.

(** The world after [store1] has then been written to [/md/copy.mdp], and
    the store bound to that copy. *)
Definition world4 : world :=
  {| fs := <["/md/copy.mdp" := File dup_mdp]> (<["/md/run.mdp" := File dup_mdp]> disk);
     log := [duplicate_warning "x"];
     heap := heap2 |}.

Definition store_copy : LineBasedMDConfig := {|
  _config := [("x", Ref 4)];
  _changed := false;
  _original_file := Some "/md/copy.mdp";
|}.

Definition world5 : world :=
  {| fs := fs world4;
     log := [duplicate_warning "x"; duplicate_warning "x"];
     heap := heap2 ++ [FlagChangeList.mk [PInt 2] false (Some Dint)] |}.

End Example.

(** ** A runtime that compares

    A runtime whose floats are the integral values and an infinity, with
    the comparisons of plain values: numbers by value, strs and lists in
    lexicographic order, and the subclass of the first example on it. *)
Module ExampleInf.

Definition python : Python := {|
  pyfloat := option Z;
  float_of_int := λ z, inr (Some z);
  float_of_str := λ s, if String.eqb s "inf" then inr None else Some <$> int_of_str s;
  int_of_float := λ x, match x with Some z => inr z | None => raise OverflowError end;
  repr_float := λ x, match x with Some z => str_of_Z z +:+ ".0" | None => "inf" end;
  repr_str := λ s, "'" +:+ s +:+ "'";
  abspath := λ path, path;
|}.
#[local] Existing Instance python.

Definition float_eq (x y : option Z) : bool :=
  match x, y with
  | Some a, Some b => a =? b
  | None, None => true
  | _, _ => false
  end.

Definition float_lt (x y : option Z) : bool :=
  match x, y with
  | Some a, Some b => a <? b
  | Some _, None => true
  | None, _ => false
  end.

Fixpoint val_eq (a b : pyval) {struct a} : bool :=
  match a, b with
  | PNone, PNone => true
  | PInt x, PInt y => x =? y
  | PInt x, PFloat y => float_eq (Some x) y
  | PFloat x, PInt y => float_eq x (Some y)
  | PFloat x, PFloat y => float_eq x y
  | PStr s, PStr t => String.eqb s t
  | PList l, PList l' =>
      (fix all2 (l l' : list pyval) {struct l} : bool :=
         match l, l' with
         | [], [] => true
         | x :: l, y :: l' => val_eq x y && all2 l l'
         | _, _ => false
         end) l l'
  | _, _ => false
  end.

Fixpoint val_lt (a b : pyval) {struct a} : result bool :=
  match a, b with
  | PInt x, PInt y => inr (x <? y)
  | PInt x, PFloat y => inr (float_lt (Some x) y)
  | PFloat x, PInt y => inr (float_lt x (Some y))
  | PFloat x, PFloat y => inr (float_lt x y)
  | PStr s, PStr t => inr (String.ltb s t)
  | PList l, PList l' =>
      (fix lex (l l' : list pyval) {struct l} : result bool :=
         match l, l' with
         | [], [] => inr false
         | [], _ :: _ => inr true
         | _ :: _, [] => inr false
         | x :: l, y :: l' => if val_eq x y then lex l l' else val_lt x y
         end) l l'
  | _, _ => raise TypeError
  end.

Definition comparisons : PythonCompare := {| py_eq := val_eq; py_lt := val_lt |}.

(** A store that holds the output frequencies of the [TRR] keys, that of
    [nstvout] being 0. *)
Definition store_out : LineBasedMDConfig := {|
  _config := [("nstxout", Plain (PInt 5000)); ("nstvout", Plain (PInt 0));
              ("nstfout", Plain (PInt 1000))];
  _changed := false;
  _original_file := Some "/md/out.mdp";
|}.

End ExampleInf.

(** ** Keys without value that bind

    Two files that give a singleton key no value and are bound all the
    same: one gives [nsteps] a value in a later line; the other is read by a
    subclass that declares [dt] as a singleton float and again as a list of
    ints, the family that the type dispatch enters later. *)
Module ExampleEmpty.
#[local] Existing Instance Example.python.

Definition MDP_over : MDClass := {|
  _KEY_VALUE_SEPARATOR := " = ";
  _INTER_VALUE_CHAR := " ";
  _FLOAT_PARAMS := [];
  _FLOAT_SINGLETON_PARAMS := ["dt"];
  _INT_PARAMS := ["dt"];
  _INT_SINGLETON_PARAMS := [];
  _SPECIAL_PARAM_DISPATCH := [];
  _parse_line := Example.mdp_parse_line;
|}.

Definition disk : filesystem :=
  {[ "/md/twice.mdp" := File ("nsteps =" +:+ lf +:+ "nsteps = 5");
     "/md/dt.mdp" := File "dt =" ]}.

Definition world0 : world := {| fs := disk; log := []; heap := [] |}.

End ExampleEmpty.

(** * Properties *)

(** ** Writing *)
Section WriteFacts.
Context `{Python} (cls : MDClass).

Lemma changed_heap (self : LineBasedMDConfig) (w w' : world) :
  heap w' = heap w → changed self w' = changed self w.
Proof. unfold changed. by intros ->. Qed.

Lemma table_heap (self : LineBasedMDConfig) (w w' : world) :
  heap w' = heap w → table self w' = table self w.
Proof. unfold table. by intros ->. Qed.

(** [write] only reads the instance and the list objects. *)
Lemma write_reads_only (self : LineBasedMDConfig) (outfile : string)
    (overwrite : bool) (w : world) :
  (write cls self outfile overwrite w).1.2 = self ∧
  heap (write cls self outfile overwrite w).2 = heap w.
Proof.
  unfold write.
  destruct (exists_ (fs w) (abspath outfile) && negb overwrite); [done|].
  destruct (negb (changed self w)).
  - destruct (original_file self) as [e|src]; [done|].
    by destruct (copy2 (fs w) src (abspath outfile)).
  - destruct (result_map _ (_config self)) as [e|lines]; [done|].
    by destruct (write_text (fs w) (abspath outfile) _).
Qed.

(** C9: [write] leaves the store as it was, whatever its outcome: the
    instance (table of references, store flag, original file), the list
    objects with their flags, hence the table a caller sees and the
    [changed] property, which stays true when it was true. *)
Theorem write_keeps_store (self : LineBasedMDConfig) (outfile : string)
    (overwrite : bool) (w : world) :
  let out := write cls self outfile overwrite w in
  out.1.2 = self ∧
  heap out.2 = heap w ∧
  table out.1.2 out.2 = table self w ∧
  changed out.1.2 out.2 = changed self w.
Proof.
  assert (Hq : (write cls self outfile overwrite w).1.2 = self ∧
               heap (write cls self outfile overwrite w).2 = heap w).
  { unfold write.
    destruct (exists_ (fs w) (abspath outfile) && negb overwrite); [done|].
    destruct (negb (changed self w)).
    - destruct (original_file self) as [e|src]; [done|].
      by destruct (copy2 (fs w) src (abspath outfile)).
    - destruct (result_map _ (_config self)) as [e|lines]; [done|].
      by destruct (write_text (fs w) (abspath outfile) _). }
  destruct Hq as [Hs Hh]. cbv zeta. rewrite Hs.
  split_and!; [done|done|by apply table_heap|by apply changed_heap].
Qed.

(** C7: with [overwrite=False], [write] to a path that exists raises (the
    [ValueError] of the guard) and changes nothing: no file, so the content
    of the target neither, and nothing of the store. *)
Theorem write_existing_target_refused (self : LineBasedMDConfig) (outfile : string)
    (w : world) :
  exists_ (fs w) (abspath outfile) = true →
  write cls self outfile false w = (raise ValueError, self, w) ∧
  fs (write cls self outfile false w).2 !! abspath outfile = fs w !! abspath outfile.
Proof.
  intros Hex. unfold write. by rewrite Hex.
Qed.

(** C8: when the conversion that the type dispatch holds for [key] raises on
    [value], [store[key] = value] raises the same exception and the store is
    as before: the entry of [key], every other entry, the store flag, and the
    list objects. *)
Theorem setitem_failure_keeps_store (self : LineBasedMDConfig) (key : string)
    (value : pyval) (w : world) (e : exn) :
  run_rule (rule_of cls key) value = inl e →
  __setitem__ cls self key value w = (inl e, self, w) ∧
  __getitem__ (__setitem__ cls self key value w).1.2 key = __getitem__ self key ∧
  _changed (__setitem__ cls self key value w).1.2 = _changed self ∧
  table (__setitem__ cls self key value w).1.2 (__setitem__ cls self key value w).2
    = table self w.
Proof.
  intros Hr.
  assert (Hs : __setitem__ cls self key value w = (inl e, self, w)).
  { unfold __setitem__, dispatch. fold (rule_of cls key). by rewrite Hr. }
  by rewrite Hs.
Qed.

End WriteFacts.

(** ** Dicts *)
Section DictFacts.
Context {A : Type}.
Implicit Types (d other : Dict.t A) (k : string) (v : A).

Lemma get_set_eq k v d : Dict.get k (Dict.set k v d) = Some v.
Proof.
  induction d as [|[k' v'] d IH]; simpl.
  - by rewrite String.eqb_refl.
  - destruct (String.eqb_spec k k') as [->|Hne]; simpl.
    + by rewrite String.eqb_refl.
    + by destruct (String.eqb_spec k k').
Qed.

Lemma get_set_ne k k' v d : k ≠ k' → Dict.get k' (Dict.set k v d) = Dict.get k' d.
Proof.
  intros Hne. induction d as [|[k0 v0] d IH]; simpl.
  - by destruct (String.eqb_spec k' k) as [->|].
  - destruct (String.eqb_spec k k0) as [->|Hne0]; simpl.
    + by destruct (String.eqb_spec k' k0) as [->|].
    + by rewrite IH.
Qed.

Lemma get_None k d : Dict.get k d = None ↔ k ∉ Dict.keys d.
Proof.
  unfold Dict.keys. induction d as [|[k' v'] d IH]; simpl.
  - split; [intros _; apply not_elem_of_nil | done].
  - rewrite not_elem_of_cons. destruct (String.eqb_spec k k') as [->|Hne].
    + split; [done | by intros [? _]].
    + rewrite IH. tauto.
Qed.

Lemma get_Some_keys k v d : Dict.get k d = Some v → k ∈ Dict.keys d.
Proof.
  intros Hg. destruct (decide (k ∈ Dict.keys d)) as [|Hn]; [done|].
  apply get_None in Hn. congruence.
Qed.

Lemma get_elem_of k v d : Dict.get k d = Some v → (k, v) ∈ d.
Proof.
  induction d as [|[k' v'] d IH]; simpl; [done|].
  destruct (String.eqb_spec k k') as [->|Hne].
  - intros [= ->]. apply list_elem_of_here.
  - intros Hg. apply list_elem_of_further. by apply IH.
Qed.

Lemma set_absent k v d : Dict.get k d = None → Dict.set k v d = d ++ [(k, v)].
Proof.
  induction d as [|[k' v'] d IH]; simpl; [done|].
  destruct (String.eqb_spec k k') as [->|Hne]; [done|].
  intros Hg. by rewrite IH.
Qed.

Lemma keys_set_present k v d :
  is_Some (Dict.get k d) → Dict.keys (Dict.set k v d) = Dict.keys d.
Proof.
  unfold Dict.keys. induction d as [|[k' v'] d IH]; simpl.
  - by intros [? ?].
  - destruct (String.eqb_spec k k') as [->|Hne]; csimpl; [done|].
    intros Hs. f_equal. by apply IH.
Qed.

Lemma NoDup_keys_set k v d : NoDup (Dict.keys d) → NoDup (Dict.keys (Dict.set k v d)).
Proof.
  intros Hnd. destruct (Dict.get k d) as [v0|] eqn:Hg.
  - by rewrite keys_set_present.
  - rewrite (set_absent _ _ _ Hg). unfold Dict.keys in *. rewrite fmap_app. simpl.
    apply NoDup_app. split_and!; [done| |apply NoDup_singleton].
    intros x Hx ->%list_elem_of_singleton. by apply get_None in Hg.
Qed.

Lemma NoDup_keys_update d other :
  NoDup (Dict.keys d) → NoDup (Dict.keys (Dict.update d other)).
Proof.
  unfold Dict.update. revert d. induction other as [|[k v] other IH]; simpl; [done|].
  intros d Hnd. apply IH. by apply NoDup_keys_set.
Qed.

Lemma get_update_absent k d other :
  k ∉ Dict.keys other → Dict.get k (Dict.update d other) = Dict.get k d.
Proof.
  unfold Dict.update, Dict.keys. revert d.
  induction other as [|[k' v'] other IH]; simpl; [done|].
  intros d [Hne Hn]%not_elem_of_cons. rewrite IH; [|done].
  by apply get_set_ne.
Qed.

(** The items of [other] replace those of [d]. *)
Lemma get_update k d other :
  NoDup (Dict.keys other) →
  Dict.get k (Dict.update d other) =
    match Dict.get k other with
    | Some v => Some v
    | None => Dict.get k d
    end.
Proof.
  unfold Dict.update, Dict.keys. revert d.
  induction other as [|[k' v'] other IH]; simpl; [done|].
  intros d [Hn Hnd]%NoDup_cons. destruct (String.eqb_spec k k') as [->|Hne].
  - pose proof (get_update_absent k' (Dict.set k' v' d) other Hn) as Ha.
    unfold Dict.update in Ha. rewrite Ha. apply get_set_eq.
  - rewrite IH; [|done]. destruct (Dict.get k other); [done|].
    by apply get_set_ne.
Qed.

Lemma update_nil_NoDup other : NoDup (Dict.keys (Dict.update ([] : Dict.t A) other)).
Proof. apply NoDup_keys_update. apply NoDup_nil_2. Qed.

Lemma get_from_keys k ks v :
  Dict.get k (Dict.from_keys ks v) = if decide (k ∈ ks) then Some v else None.
Proof.
  unfold Dict.from_keys.
  assert (Hgen : ∀ acc,
    Dict.get k (fold_left (λ acc k, Dict.set k v acc) ks acc) =
      if decide (k ∈ ks) then Some v else Dict.get k acc).
  { induction ks as [|k0 ks IH]; intros acc; simpl.
    - destruct (decide (k ∈ [])) as [Hin|]; [by apply elem_of_nil in Hin | done].
    - rewrite IH. destruct (decide (k ∈ ks)) as [Hin|Hnin].
      + rewrite decide_True; [done | by apply list_elem_of_further].
      + destruct (decide (k = k0)) as [->|Hne].
        * rewrite decide_True; [apply get_set_eq | apply list_elem_of_here].
        * rewrite decide_False; [by apply get_set_ne|].
          by intros [?|?]%elem_of_cons. }
  by rewrite Hgen.
Qed.

Lemma NoDup_from_keys ks v : NoDup (Dict.keys (Dict.from_keys ks v)).
Proof.
  unfold Dict.from_keys.
  assert (Hgen : ∀ acc, NoDup (Dict.keys acc) →
    NoDup (Dict.keys (fold_left (λ acc k, Dict.set k v acc) ks acc))).
  { induction ks as [|k0 ks IH]; intros acc Hnd; simpl; [done|].
    apply IH. by apply NoDup_keys_set. }
  apply Hgen. apply NoDup_nil_2.
Qed.

End DictFacts.

Lemma keys_fmap_snd {A B} (f : A → B) (d : Dict.t A) :
  Dict.keys (prod_map id f <$> d) = Dict.keys d.
Proof.
  unfold Dict.keys. rewrite <- list_fmap_compose.
  apply list_fmap_ext. by intros ? [? ?].
Qed.

Lemma set_fmap_snd {A B} (f : A → B) (k : string) (v : A) (d : Dict.t A) :
  Dict.set k (f v) (prod_map id f <$> d) = prod_map id f <$> Dict.set k v d.
Proof.
  induction d as [|[k' v'] d IH]; csimpl; [done|].
  destruct (String.eqb k k'); csimpl; [done|]. f_equal. apply IH.
Qed.

(** ** Assignment and change tracking *)
Section SetFacts.
Context `{Python} (cls : MDClass).

Lemma set_heap_same (w : world) : set_heap w (heap w) = w.
Proof. by destruct w. Qed.

(** The rule that [_construct_type_dispatch] leaves for a key of a singleton
    family. *)
Lemma rule_of_singleton (key : string) (d : dtype) :
  singleton_key cls key d → rule_of cls key = Len1ListOrSingleton d.
Proof.
  intros [Hsp Hd]. unfold rule_of, type_dispatch_get, _construct_type_dispatch.
  rewrite get_update_absent; [|by rewrite keys_fmap_snd].
  rewrite get_update; [|apply NoDup_from_keys]. rewrite get_from_keys.
  destruct d; try done.
  - by rewrite decide_True.
  - destruct Hd as (Hfs & Hip & His). rewrite decide_False; [|done].
    rewrite get_update; [|apply NoDup_from_keys]. rewrite get_from_keys.
    rewrite decide_False; [|done].
    rewrite get_update; [|apply NoDup_from_keys]. rewrite get_from_keys.
    by rewrite decide_True.
Qed.

Lemma apply_dtype_scalar (d : dtype) (x tv : pyval) :
  (∀ f, d ≠ Dother f) → apply_dtype d x = inr tv → scalar_of d tv = true.
Proof.
  intros Hd. destruct d; simpl.
  - by intros [= <-].
  - destruct x; simpl; try done.
    + by intros [= <-].
    + destruct (int_of_float x); simpl; [done | by intros [= <-]].
    + destruct (int_of_str s); simpl; [done | by intros [= <-]].
  - destruct x; simpl; try done.
    + destruct (float_of_int z); simpl; [done | by intros [= <-]].
    + by intros [= <-].
    + destruct (float_of_str s); simpl; [done | by intros [= <-]].
  - by destruct (Hd f).
Qed.

(** C3, as the code has it: for a key of a singleton family, assigning a
    value without length, a str of one character, or a sequence of one or of
    several items, stores one converted scalar, not a list: the conversion of
    the value, respectively of the first item, provided that converts.  The
    items after the first are not looked at, so a sequence of several items
    is accepted like the sequence of its first item. *)
Theorem singleton_assignment (self : LineBasedMDConfig) (key : string) (d : dtype)
    (value x tv : pyval) (w : world) :
  singleton_key cls key d →
  (has_len value = false ∧ x = value) ∨
    (∃ c, value = PStr (String c EmptyString) ∧ x = value) ∨
    (∃ rest, value = PList (x :: rest)) →
  apply_dtype d x = inr tv →
  __setitem__ cls self key value w =
    (inr (),
     {| _config := Dict.set key (Plain tv) (_config self);
        _changed := true;
        _original_file := _original_file self |},
     w) ∧
  __getitem__ (__setitem__ cls self key value w).1.2 key = inr (Plain tv) ∧
  scalar_of d tv = true.
Proof.
  intros Hkey Hval Hconv.
  assert (Hrule : run_rule (rule_of cls key) value = inr (NewPlain tv)).
  { rewrite (rule_of_singleton _ _ Hkey). simpl. unfold convert_len1_list_or_singleton.
    destruct Hval as [[-> ->]|[[c [-> ->]]|[rest ->]]]; simpl; by rewrite Hconv. }
  assert (Hs : __setitem__ cls self key value w =
    (inr (),
     {| _config := Dict.set key (Plain tv) (_config self);
        _changed := true;
        _original_file := _original_file self |},
     w)).
  { unfold __setitem__, dispatch. fold (rule_of cls key). rewrite Hrule. simpl.
    by rewrite set_heap_same. }
  rewrite Hs. split_and!; [done| |].
  - unfold __getitem__. simpl. by rewrite get_set_eq.
  - apply (apply_dtype_scalar d x); [|done].
    intros f ->. by destruct Hkey as [_ ?].
Qed.

Lemma existsb_fmap_true {A} (f : A → bool) (l : list A) :
  existsb id (f <$> l) = true ↔ ∃ x, x ∈ l ∧ f x = true.
Proof.
  induction l as [|a l IH]; csimpl.
  - split; [done | by intros (x & Hx%elem_of_nil & _)].
  - rewrite orb_true_iff, IH. unfold id. split.
    + intros [Ha|(x & Hx & Hf)]; [exists a | exists x]; split; try done.
      * apply list_elem_of_here.
      * by apply list_elem_of_further.
    + intros (x & [->|Hx]%elem_of_cons & Hf); [by left | right; eauto].
Qed.

(** The [changed] property, entry by entry. *)
Lemma changed_true_iff (self : LineBasedMDConfig) (w : world) :
  changed self w = true ↔
    _changed self = true ∨
    ∃ key v, (key, v) ∈ _config self ∧ entry_changed (heap w) v = true.
Proof.
  unfold changed. rewrite orb_true_iff, existsb_fmap_true.
  split; (intros [?|Hex]; [by left | right]).
  - destruct Hex as ([key v] & Hin & Hc). eauto.
  - destruct Hex as (key & v & Hin & Hc). by exists (key, v).
Qed.

Lemma setitem_sets_flag (i : Z) (value : pyval) :
  sets_flag (λ o, FlagChangeList.__setitem__ o i value).
Proof.
  intros o o'. unfold FlagChangeList.__setitem__.
  destruct (FlagChangeList._convert_type o value); simpl; [done|].
  destruct (FlagChangeList.index _ i); simpl; [done|]. by intros [= <-].
Qed.

Lemma delitem_sets_flag (i : Z) : sets_flag (λ o, FlagChangeList.__delitem__ o i).
Proof.
  intros o o'. unfold FlagChangeList.__delitem__.
  destruct (FlagChangeList.index _ i); simpl; [done|]. by intros [= <-].
Qed.

Lemma insert_sets_flag (i : Z) (value : pyval) :
  sets_flag (λ o, FlagChangeList.insert o i value).
Proof.
  intros o o'. unfold FlagChangeList.insert.
  destruct (FlagChangeList._convert_type o value); simpl; [done|].
  destruct (negb (FlagChangeList.fits_ssize_t i)); [done|]. by intros [= <-].
Qed.

(** A successful call of such a method on the object that [store[key]]
    returns makes [changed] true. *)
Lemma mutation_makes_changed (self : LineBasedMDConfig) (w w' : world) (key : string)
    (l : nat) (method : FlagChangeList.t → result FlagChangeList.t) :
  __getitem__ self key = inr (Ref l) →
  sets_flag method →
  call l method w = (inr (), w') →
  changed self w' = true.
Proof.
  intros Hget Hflag. unfold call.
  destruct (heap w !! l) as [o|] eqn:Hl; [|done].
  destruct (method o) as [e|o'] eqn:Hm; [done|]. intros [= <-].
  apply changed_true_iff. right. exists key, (Ref l). split.
  - apply get_elem_of. unfold __getitem__ in Hget.
    destruct (Dict.get key (_config self)); by simplify_eq.
  - simpl. rewrite list_lookup_insert_eq; [|by eapply lookup_lt_Some].
    by apply (Hflag o).
Qed.

(** C2: [changed] is true exactly when the store flag is true or the flag of
    some entry is; and assigning to one item of the list that [store[key]]
    returns, which succeeds when the index is in range and the value
    converts, updates the object the store holds and makes [changed] true,
    the store itself not being assigned to. *)
Theorem changed_tracks_entries (self : LineBasedMDConfig) (w : world) :
  (changed self w = true ↔
     _changed self = true ∨
     ∃ key v, (key, v) ∈ _config self ∧ entry_changed (heap w) v = true) ∧
  (∀ key l o i value typed_value n,
     __getitem__ self key = inr (Ref l) →
     heap w !! l = Some o →
     FlagChangeList._convert_type o value = inr typed_value →
     FlagChangeList.index (length (FlagChangeList._data o)) i = inr n →
     ∃ w',
       call l (λ o, FlagChangeList.__setitem__ o i value) w = (inr (), w') ∧
       heap w' !! l =
         Some {| FlagChangeList._data := <[n := typed_value]> (FlagChangeList._data o);
                 FlagChangeList._changed := true;
                 FlagChangeList._dtype := FlagChangeList._dtype o |} ∧
       changed self w' = true).
Proof.
  split; [apply changed_true_iff|].
  intros key l o i value typed_value n Hget Hl Hconv Hidx.
  assert (Hcall : call l (λ o, FlagChangeList.__setitem__ o i value) w =
    (inr (),
     set_heap w
       (<[l := {| FlagChangeList._data := <[n := typed_value]> (FlagChangeList._data o);
                  FlagChangeList._changed := true;
                  FlagChangeList._dtype := FlagChangeList._dtype o |}]> (heap w)))).
  { unfold call, FlagChangeList.__setitem__. rewrite Hl, Hconv. simpl. by rewrite Hidx. }
  eexists. split; [exact Hcall|]. split.
  - simpl. apply list_lookup_insert_eq. by eapply lookup_lt_Some.
  - eapply mutation_makes_changed; [exact Hget | apply setitem_sets_flag | exact Hcall].
Qed.

End SetFacts.

(** ** Parsing *)
Section ParseFacts.
Context `{Python} (cls : MDClass).

Implicit Types (parsed : Dict.t pyval) (lg : list string) (hp : list FlagChangeList.t).

Lemma parse_line_NoDup (line : string) (d : Dict.t pyval) :
  parse_line cls line = inr d → NoDup (Dict.keys d).
Proof.
  unfold parse_line. destruct (_parse_line cls line) as [e|items]; simpl; [done|].
  intros [= <-]. apply update_nil_NoDup.
Qed.

(** The records of a run of the loops, apart from where the log stood. *)
Lemma warn_duplicates_log parsed (line_parsed : Dict.t pyval) lg :
  warn_duplicates parsed line_parsed lg = lg ++ warn_duplicates parsed line_parsed [].
Proof.
  unfold warn_duplicates.
  generalize (Dict.keys line_parsed) as ks. intros ks.
  assert (Hgen : ∀ pre lg,
    fold_left (λ lg key, match Dict.get key parsed with
                         | None => lg
                         | Some _ => lg ++ [duplicate_warning key]
                         end) ks (lg ++ pre) =
    lg ++ fold_left (λ lg key, match Dict.get key parsed with
                               | None => lg
                               | Some _ => lg ++ [duplicate_warning key]
                               end) ks pre).
  { induction ks as [|k ks IH]; intros pre lg0; simpl; [done|].
    destruct (Dict.get k parsed); [|apply IH].
    rewrite <- (assoc_L (++)). apply IH. }
  specialize (Hgen [] lg). by rewrite app_nil_r in Hgen.
Qed.

Lemma parse_lines_log (lines : list string) parsed lg :
  parse_lines cls lines parsed lg =
    ((parse_lines cls lines parsed []).1, lg ++ (parse_lines cls lines parsed []).2).
Proof.
  revert parsed lg. induction lines as [|line lines IH]; intros parsed lg; simpl.
  - by rewrite app_nil_r.
  - destruct (parse_line cls line) as [e|d]; simpl; [by rewrite app_nil_r|].
    rewrite (IH _ (warn_duplicates parsed d lg)).
    rewrite (IH _ (warn_duplicates parsed d [])).
    rewrite (warn_duplicates_log parsed d lg). simpl.
    by rewrite (assoc_L (++)).
Qed.

Lemma parse_lines_app (l1 l2 : list string) parsed lg :
  parse_lines cls (l1 ++ l2) parsed lg =
    match parse_lines cls l1 parsed lg with
    | (inl e, lg') => (inl e, lg')
    | (inr parsed', lg') => parse_lines cls l2 parsed' lg'
    end.
Proof.
  revert parsed lg. induction l1 as [|line l1 IH]; intros parsed lg; simpl; [done|].
  destruct (parse_line cls line) as [e|d]; [done|]. apply IH.
Qed.

Lemma parse_lines_NoDup (lines : list string) parsed parsed' lg lg' :
  NoDup (Dict.keys parsed) →
  parse_lines cls lines parsed lg = (inr parsed', lg') →
  NoDup (Dict.keys parsed').
Proof.
  revert parsed lg. induction lines as [|line lines IH]; intros parsed lg Hnd; simpl.
  - by intros [= <- _].
  - destruct (parse_line cls line) as [e|d]; [done|].
    apply IH. by apply NoDup_keys_update.
Qed.

(** When every line parses, the loop reaches its end. *)
Lemma parse_lines_total (lines : list string) parsed lg :
  Forall (λ line, is_ok (parse_line cls line) = true) lines →
  ∃ parsed' ws, parse_lines cls lines parsed lg = (inr parsed', lg ++ ws).
Proof.
  revert parsed lg. induction lines as [|line lines IH]; intros parsed lg Hok; simpl.
  - exists parsed, []. by rewrite app_nil_r.
  - apply Forall_cons in Hok as [Hline Hok].
    destruct (parse_line cls line) as [e|d]; [done|].
    destruct (IH (Dict.update parsed d) (warn_duplicates parsed d lg) Hok)
      as (parsed' & ws & ->).
    rewrite (warn_duplicates_log parsed d lg).
    exists parsed', (warn_duplicates parsed d [] ++ ws).
    by rewrite (assoc_L (++)).
Qed.

(** Lines that do not yield [key] leave its value alone. *)
Lemma parse_lines_other_key (key : string) (lines : list string) parsed parsed' lg lg' :
  Forall (λ line, ∀ d, parse_line cls line = inr d → Dict.get key d = None) lines →
  parse_lines cls lines parsed lg = (inr parsed', lg') →
  Dict.get key parsed' = Dict.get key parsed.
Proof.
  revert parsed lg. induction lines as [|line lines IH]; intros parsed lg Hno; simpl.
  - by intros [= <- _].
  - apply Forall_cons in Hno as [Hline Hno].
    destruct (parse_line cls line) as [e|d] eqn:Hd; [done|].
    intros Hrest. rewrite (IH _ _ Hno Hrest).
    apply get_update_absent. apply get_None. by apply Hline.
Qed.

(** A key that the table has stays in it. *)
Lemma parse_lines_keeps_key (key : string) (lines : list string) parsed parsed' lg lg' :
  is_Some (Dict.get key parsed) →
  parse_lines cls lines parsed lg = (inr parsed', lg') →
  is_Some (Dict.get key parsed').
Proof.
  revert parsed lg. induction lines as [|line lines IH]; intros parsed lg Hin; simpl.
  - by intros [= <- _].
  - destruct (parse_line cls line) as [e|d] eqn:Hd; [done|].
    apply IH. rewrite get_update; [|by eapply parse_line_NoDup].
    by destruct (Dict.get key d).
Qed.

Lemma warn_duplicates_elem (key : string) parsed (line_parsed : Dict.t pyval) :
  is_Some (Dict.get key parsed) →
  key ∈ Dict.keys line_parsed →
  duplicate_warning key ∈ warn_duplicates parsed line_parsed [].
Proof.
  intros [v Hv]. unfold warn_duplicates.
  generalize (Dict.keys line_parsed) as ks. intros ks.
  assert (Hmono : ∀ ks lg x, x ∈ lg →
    x ∈ fold_left (λ lg key, match Dict.get key parsed with
                             | None => lg
                             | Some _ => lg ++ [duplicate_warning key]
                             end) ks lg).
  { clear. induction ks as [|k ks IH]; intros lg x Hx; simpl; [done|].
    apply IH. destruct (Dict.get k parsed); [|done].
    apply elem_of_app. by left. }
  assert (Hgen : ∀ lg, key ∈ ks →
    duplicate_warning key ∈
      fold_left (λ lg key, match Dict.get key parsed with
                           | None => lg
                           | Some _ => lg ++ [duplicate_warning key]
                           end) ks lg).
  { induction ks as [|k ks IH]; intros lg Hin; simpl.
    - by apply elem_of_nil in Hin.
    - apply elem_of_cons in Hin as [<-|Hin]; [|by apply IH].
      rewrite Hv. apply Hmono. apply elem_of_app. right. apply list_elem_of_here. }
  apply Hgen.
Qed.

End ParseFacts.

(** ** The conversions of [parse], with and without the heap *)
Section ConvertFacts.
Context `{Python} (cls : MDClass).

Implicit Types (hp ext : list FlagChangeList.t) (acc : Dict.t entry).

Lemma resolve_app hp ext (v : entry) :
  is_Some (resolve hp v) → resolve (hp ++ ext) v = resolve hp v.
Proof.
  destruct v as [v|l]; simpl; [done|].
  intros [s Hs]. destruct (hp !! l) as [o|] eqn:Hl; [|done].
  by rewrite (lookup_app_l_Some _ _ _ _ Hl).
Qed.

Lemma valid_app hp ext acc : Forall (valid hp) acc → Forall (valid (hp ++ ext)) acc.
Proof.
  intros Hv. eapply Forall_impl; [exact Hv|].
  intros kv Hkv. unfold valid. by rewrite resolve_app.
Qed.

Lemma view_app hp ext acc : Forall (valid hp) acc → view (hp ++ ext) acc = view hp acc.
Proof.
  intros Hv. unfold view. apply Forall_fmap_ext_1.
  eapply Forall_impl; [exact Hv|]. intros [k v] Hkv. simpl.
  by rewrite resolve_app.
Qed.

Lemma Forall_set {A} (Q : string * A → Prop) (k : string) (v : A) (d : Dict.t A) :
  (∀ k' k'' v', Q (k', v') → Q (k'', v')) →
  Forall Q d → Q (k, v) → Forall Q (Dict.set k v d).
Proof.
  intros Hkey Hd Hv. induction Hd as [|[k' v'] d Hx Hd IH]; simpl.
  - by apply Forall_singleton.
  - destruct (String.eqb k k'); apply Forall_cons; split; try done.
    by apply (Hkey k).
Qed.

Lemma place_spec (c : constructed) hp :
  resolve (place c hp).2 (place c hp).1 = Some (as_new c) ∧
  ∃ ext, (place c hp).2 = hp ++ ext.
Proof.
  destruct c as [v|data dt]; simpl.
  - split; [done|]. exists []. by rewrite app_nil_r.
  - split; [|by eexists].
    rewrite lookup_app_r; [|done]. by rewrite Nat.sub_diag.
Qed.

(** [convert_items] builds on the heap what [construct_items] describes. *)
Lemma convert_items_spec (items : list (string * pyval)) acc hp :
  Forall (valid hp) acc →
  match convert_items cls items acc hp with
  | (inl e, hp') =>
      construct_items cls items (view hp acc) = inl e ∧ ∃ ext, hp' = hp ++ ext
  | (inr config, hp') =>
      construct_items cls items (view hp acc) = inr (view hp' config) ∧
      Forall (valid hp') config ∧ ∃ ext, hp' = hp ++ ext
  end.
Proof.
  revert acc hp. induction items as [|[key value] items IH]; intros acc hp Hv; simpl.
  - split_and!; [done|done|]. exists []. by rewrite app_nil_r.
  - unfold dispatch. fold (rule_of cls key).
    destruct (run_rule (rule_of cls key) value) as [e|c]; simpl.
    { split; [done|]. exists []. by rewrite app_nil_r. }
    destruct (place_spec c hp) as [Hres [ext Hext]].
    destruct (place c hp) as [en hp1] eqn:Hplace. simpl in Hres, Hext. subst hp1.
    assert (Hv1 : Forall (valid (hp ++ ext)) (Dict.set key en acc)).
    { apply Forall_set; [done|by apply valid_app|].
      unfold valid. simpl. by rewrite Hres. }
    specialize (IH (Dict.set key en acc) (hp ++ ext) Hv1).
    assert (Hview : view (hp ++ ext) (Dict.set key en acc)
                    = Dict.set key (Some (as_new c)) (view hp acc)).
    { unfold view. rewrite <- set_fmap_snd, Hres. f_equal. by apply view_app. }
    rewrite Hview in IH.
    destruct (convert_items cls items (Dict.set key en acc) (hp ++ ext))
      as [[e|config] hp'].
    + destruct IH as [IH1 [ext' ->]]. split; [done|].
      exists (ext ++ ext'). by rewrite (assoc_L (++)).
    + destruct IH as (IH1 & IH2 & [ext' ->]). split_and!; [done|done|].
      exists (ext ++ ext'). by rewrite (assoc_L (++)).
Qed.

Lemma construct_items_new (items : list (string * pyval)) (tbl0 tbl : Dict.t (option shown)) :
  Forall is_new tbl0 →
  construct_items cls items tbl0 = inr tbl →
  Forall is_new tbl.
Proof.
  revert tbl0. induction items as [|[key value] items IH]; intros tbl0 Hnew; simpl.
  - by intros [= <-].
  - destruct (run_rule (rule_of cls key) value) as [e|c]; [done|].
    apply IH. apply Forall_set; [done|done|]. by exists c.
Qed.

(** When every kept value converts, the conversions reach their end. *)
Lemma construct_items_total (items : list (string * pyval)) (tbl0 : Dict.t (option shown)) :
  Forall (λ kv, is_ok (run_rule (rule_of cls kv.1) kv.2) = true) items →
  ∃ tbl, construct_items cls items tbl0 = inr tbl.
Proof.
  revert tbl0. induction items as [|[key value] items IH]; intros tbl0 Hok; simpl.
  - by eexists.
  - apply Forall_cons in Hok as [Hkv Hok]. simpl in Hkv.
    destruct (run_rule (rule_of cls key) value) as [e|c]; [done|]. by apply IH.
Qed.

Lemma construct_items_other_key (key : string) (items : list (string * pyval))
    (tbl0 tbl : Dict.t (option shown)) :
  key ∉ Dict.keys items →
  construct_items cls items tbl0 = inr tbl →
  Dict.get key tbl = Dict.get key tbl0.
Proof.
  revert tbl0. unfold Dict.keys.
  induction items as [|[k v] items IH]; intros tbl0 Hn; csimpl.
  - by intros [= <-].
  - apply not_elem_of_cons in Hn as [Hne Hn].
    destruct (run_rule (rule_of cls k) v) as [e|c]; [done|].
    intros Hc. rewrite (IH _ Hn Hc). by apply get_set_ne.
Qed.

(** The entry of a kept key is the conversion of its value. *)
Lemma construct_items_get (key : string) (value : pyval) (items : list (string * pyval))
    (tbl0 tbl : Dict.t (option shown)) :
  NoDup (Dict.keys items) →
  Dict.get key items = Some value →
  construct_items cls items tbl0 = inr tbl →
  ∃ c, run_rule (rule_of cls key) value = inr c ∧
       Dict.get key tbl = Some (Some (as_new c)).
Proof.
  revert tbl0. unfold Dict.keys.
  induction items as [|[k v] items IH]; intros tbl0 Hnd; csimpl; [done|].
  apply NoDup_cons in Hnd as [Hn Hnd].
  destruct (String.eqb_spec key k) as [->|Hne].
  - intros [= ->]. destruct (run_rule (rule_of cls k) value) as [e|c]; [done|].
    intros Hc. exists c. split; [done|].
    rewrite (construct_items_other_key k items _ tbl Hn Hc). apply get_set_eq.
  - intros Hg. destruct (run_rule (rule_of cls k) v) as [e|c]; [done|].
    by apply IH.
Qed.

(** A kept value that does not convert makes the conversions raise; the
    exception is its own when the values before it convert. *)
Lemma construct_items_raises (key : string) (value : pyval) (e : exn)
    (before after : list (string * pyval)) (tbl0 : Dict.t (option shown)) :
  run_rule (rule_of cls key) value = inl e →
  (∃ e', construct_items cls (before ++ (key, value) :: after) tbl0 = inl e') ∧
  (Forall (λ kv, is_ok (run_rule (rule_of cls kv.1) kv.2) = true) before →
   construct_items cls (before ++ (key, value) :: after) tbl0 = inl e).
Proof.
  intros Hr. revert tbl0. induction before as [|[k v] before IH]; intros tbl0; simpl.
  - rewrite Hr. split; [by eexists | done].
  - destruct (run_rule (rule_of cls k) v) as [e0|c] eqn:Hk.
    + split; [by eexists|]. intros Hok. apply Forall_cons in Hok as [Hkv _].
      simpl in Hkv. by rewrite Hk in Hkv.
    + destruct (IH (Dict.set k (Some (as_new c)) tbl0)) as [IH1 IH2].
      split; [done|]. intros Hok. apply Forall_cons in Hok as [_ Hok]. by apply IH2.
Qed.

End ConvertFacts.

(** ** Binding a store to a file *)
Section BindFacts.
Context `{Python} (cls : MDClass).

Lemma changed_false_new (self : LineBasedMDConfig) (w : world) :
  _changed self = false →
  Forall is_new (table self w) →
  (∀ key v, (key, v) ∈ _config self → entry_changed (heap w) v = false) ∧
  changed self w = false.
Proof.
  intros Hflag Hnew.
  assert (Hall : ∀ key v, (key, v) ∈ _config self → entry_changed (heap w) v = false).
  { intros key v Hin.
    assert (Hin' : (key, resolve (heap w) v) ∈ table self w).
    { unfold table, view. apply (list_elem_of_fmap_2 (prod_map id (resolve (heap w))) _ (key, v) Hin). }
    rewrite Forall_forall in Hnew. destruct (Hnew _ Hin') as [c Hc]. simpl in Hc.
    destruct v as [v|l]; simpl in *; [done|].
    destruct (heap w !! l) as [o|]; [|done]. simpl in Hc.
    destruct c as [?|data dt]; simpl in Hc; [done|]. by simplify_eq. }
  split; [done|].
  destruct (changed self w) eqn:Hc; [|done].
  apply changed_true_iff in Hc as [Hc|(key & v & Hin & Hc)]; [congruence|].
  by rewrite (Hall key v Hin) in Hc.
Qed.

(** What [parse] does, in terms of the table that the bytes of the file
    describe: it installs that table with every flag false, or raises and
    leaves the instance alone. *)
Lemma parse_spec (self : LineBasedMDConfig) (w : world) (path content : string) :
  _original_file self = Some path →
  fs w !! path = Some (File content) →
  match parsed_table cls content with
  | inr tbl =>
      ∃ self' w',
        parse cls self w = (inr (), self', w') ∧
        table self' w' = tbl ∧
        _changed self' = false ∧
        _original_file self' = Some path ∧
        fs w' = fs w ∧
        valid_refs self' w' ∧
        Forall is_new tbl
  | inl e =>
      ∃ w', parse cls self w = (inl e, self, w') ∧ fs w' = fs w
  end.
Proof.
  intros Horig Hfile. unfold parse, parsed_table, original_file, read_text.
  rewrite Horig, Hfile. rewrite (parse_lines_log cls _ [] (log w)).
  destruct (parse_lines cls (split newline (universal_newlines content)) [] [])
    as [[e|parsed] ws]; simpl.
  { by eexists. }
  pose proof (convert_items_spec cls parsed [] (heap w) (Forall_nil_2 _)) as Hconv.
  change (view (heap w) []) with (@nil (string * option shown)) in Hconv.
  destruct (convert_items cls parsed [] (heap w)) as [[e|config] hp'].
  - destruct Hconv as [-> _]. by eexists.
  - destruct Hconv as (Hc & Hv & _). rewrite Hc.
    eexists _, _. split_and!; try done.
    eapply construct_items_new; [|exact Hc]. apply Forall_nil_2.
Qed.

(** C5: assigning to [original_file] the path of a file that parses
    replaces the table by the one the file describes, whatever the store held
    and whatever its flags were, and leaves the store flag and the flag of
    every entry false. *)
Theorem repointing_reparses (self : LineBasedMDConfig) (value : string) (w : world)
    (content : string) (tbl : Dict.t (option shown)) :
  fs w !! abspath value = Some (File content) →
  parsed_table cls content = inr tbl →
  ∃ self' w',
    set_original_file cls self value w = (inr (), self', w') ∧
    _original_file self' = Some (abspath value) ∧
    table self' w' = tbl ∧
    _changed self' = false ∧
    (∀ key v, (key, v) ∈ _config self' → entry_changed (heap w') v = false) ∧
    changed self' w' = false.
Proof.
  intros Hfile Htbl. unfold set_original_file, isfile. rewrite Hfile. simpl.
  pose proof (parse_spec
    {| _config := _config self; _changed := _changed self;
       _original_file := Some (abspath value) |} w (abspath value) content
    eq_refl Hfile) as Hp.
  rewrite Htbl in Hp. destruct Hp as (self' & w' & -> & Ht & Hc & Ho & _ & _ & Hnew).
  exists self', w'. rewrite <- Ht in Hnew.
  destruct (changed_false_new self' w' Hc Hnew) as [Hall Hch].
  by split_and!.
Qed.

(** On a file that does not parse the setter raises after it has stored the
    new path: the table and the flags stay. *)
Lemma repointing_raises (self : LineBasedMDConfig) (value : string) (w : world)
    (content : string) (e : exn) :
  fs w !! abspath value = Some (File content) →
  parsed_table cls content = inl e →
  ∃ w',
    set_original_file cls self value w =
      (inl e,
       {| _config := _config self;
          _changed := _changed self;
          _original_file := Some (abspath value) |},
       w') ∧
    fs w' = fs w.
Proof.
  intros Hfile Htbl. unfold set_original_file, isfile. rewrite Hfile. simpl.
  pose proof (parse_spec
    {| _config := _config self; _changed := _changed self;
       _original_file := Some (abspath value) |} w (abspath value) content
    eq_refl Hfile) as Hp.
  by rewrite Htbl in Hp.
Qed.

(** A store that has just been bound holds what its file says. *)
Lemma init_in_sync (path : string) (w w' : world) (self : LineBasedMDConfig) :
  __init__ cls path w = (inr self, w') →
  in_sync cls self w' ∧ changed self w' = false ∧ valid_refs self w'.
Proof.
  unfold __init__, set_original_file, isfile.
  destruct (fs w !! abspath path) as [[content|]|] eqn:Hfile; simpl; try done.
  pose proof (parse_spec
    {| _config := []; _changed := false; _original_file := Some (abspath path) |}
    w (abspath path) content eq_refl Hfile) as Hp.
  destruct (parsed_table cls content) as [e|tbl] eqn:Htbl.
  - destruct Hp as (w1 & -> & _). done.
  - destruct Hp as (self1 & w1 & -> & Ht & Hc & Ho & Hfs & Hv & Hnew).
    intros [= <- <-]. rewrite <- Ht in Hnew.
    destruct (changed_false_new self1 w1 Hc Hnew) as [_ Hch].
    split_and!; try done.
    exists (abspath path), content. rewrite Hfs, Ht. by split_and!.
Qed.

(** C1: a store whose [changed] is false and that holds what its original
    file says is written, to a path that does not exist yet, as a copy of
    the bytes of that file, no other file being touched; and a new store
    bound to the copy has the same table, entry by entry. *)
Theorem unchanged_round_trip (self : LineBasedMDConfig) (out : string) (w : world) :
  changed self w = false →
  in_sync cls self w →
  fs w !! abspath out = None →
  ∃ path content w1 self2 w2,
    _original_file self = Some path ∧
    fs w !! path = Some (File content) ∧
    write cls self out false w = (inr (), self, w1) ∧
    fs w1 = <[abspath out := File content]> (fs w) ∧
    fs w1 !! abspath out = fs w !! path ∧
    __init__ cls out w1 = (inr self2, w2) ∧
    table self2 w2 = table self w.
Proof.
  intros Hch (path & content & Horig & Hfile & Htbl) Hout.
  assert (Hne : path ≠ abspath out) by (intros ->; congruence).
  exists path, content, (set_fs w (<[abspath out := File content]> (fs w))).
  assert (Hw : write cls self out false w
               = (inr (), self, set_fs w (<[abspath out := File content]> (fs w)))).
  { unfold write, exists_, original_file, copy2. rewrite Hout, Hch, Horig. simpl.
    rewrite Hout. destruct (String.eqb_spec path (abspath out)); [done|].
    by rewrite Hfile. }
  assert (Hnew : fs (set_fs w (<[abspath out := File content]> (fs w))) !! abspath out
                 = Some (File content)).
  { simpl. apply lookup_insert_eq. }
  pose proof (parse_spec
    {| _config := []; _changed := false; _original_file := Some (abspath out) |}
    _ (abspath out) content eq_refl Hnew) as Hp.
  rewrite Htbl in Hp. destruct Hp as (self2 & w2 & Hparse & Ht & _).
  exists self2, w2. split_and!; try done.
  - by rewrite Hnew, Hfile.
  - unfold __init__, set_original_file, isfile. rewrite Hnew. simpl.
    by rewrite Hparse.
Qed.

(** ** References stay valid *)


Lemma setitem_valid_refs (self self' : LineBasedMDConfig) (key : string)
    (value : pyval) (r : result ()) (w w' : world) :
  valid_refs self w →
  __setitem__ cls self key value w = (r, self', w') →
  valid_refs self' w'.
Proof.
  unfold valid_refs, __setitem__, dispatch. intros Hv.
  destruct (run_rule _ value) as [e|c]; simpl; [by intros [= _ <- <-]|].
  destruct (place_spec c (heap w)) as [Hres [ext Hext]].
  destruct (place c (heap w)) as [en hp]. simpl in *. subst hp.
  intros [= _ <- <-]. simpl.
  apply Forall_set; [done|by apply valid_app|].
  unfold valid. simpl. by rewrite Hres.
Qed.

Lemma delitem_valid_refs (self self' : LineBasedMDConfig) (key : string)
    (r : result ()) (w : world) :
  valid_refs self w →
  __delitem__ self key = (r, self') →
  valid_refs self' w.
Proof.
  unfold valid_refs, __delitem__. intros Hv.
  destruct (Dict.get key (_config self)); [|by intros [= _ <-]]. intros [= _ <-]. simpl.
  clear -Hv. induction Hv as [|[k v] config Hx Hv IH]; simpl; [done|].
  destruct (String.eqb key k); [done|]. by apply Forall_cons.
Qed.

Lemma call_valid_refs (self : LineBasedMDConfig) (l : nat)
    (method : FlagChangeList.t → result FlagChangeList.t) (r : result ()) (w w' : world) :
  valid_refs self w →
  call l method w = (r, w') →
  valid_refs self w'.
Proof.
  unfold valid_refs, call. intros Hv.
  destruct (heap w !! l) as [o|]; [|by intros [= _ <-]].
  destruct (method o) as [e|o']; intros [= _ <-]; [done|]. simpl.
  eapply Forall_impl; [exact Hv|]. intros [k [v|l']]; unfold valid; simpl; [done|].
  intros [s Hs]. destruct (heap w !! l') as [o0|] eqn:Hl'; [|done].
  destruct (decide (l = l')) as [->|Hne].
  - rewrite list_lookup_insert_eq; [by eexists | by eapply lookup_lt_Some].
  - rewrite list_lookup_insert_ne; [|done]. rewrite Hl'. by eexists.
Qed.

End BindFacts.

(** ** The meaning of [changed] along the use of a store

    Binding establishes [consistent]; assignment, deletion, the mutating
    methods of the lists and [write] keep it.  (A setter of [original_file]
    that raises in [parse] does not: see [repointing_raises].) *)
Section SyncFacts.
Context `{Python} (cls : MDClass).

Lemma init_consistent (path : string) (w w' : world) (self : LineBasedMDConfig) :
  __init__ cls path w = (inr self, w') → consistent cls self w'.
Proof. intros Hinit _. by destruct (init_in_sync cls path w w' self Hinit). Qed.

Lemma setitem_consistent (self self' : LineBasedMDConfig) (key : string)
    (value : pyval) (r : result ()) (w w' : world) :
  consistent cls self w →
  __setitem__ cls self key value w = (r, self', w') →
  consistent cls self' w'.
Proof.
  unfold __setitem__. intros Hc.
  destruct (dispatch cls key value (heap w)) as [[e|typed_value] hp].
  - by intros [= _ <- <-].
  - intros [= _ <- <-]. intros Hch. unfold changed in Hch. simpl in Hch. done.
Qed.

Lemma delitem_consistent (self self' : LineBasedMDConfig) (key : string)
    (r : result ()) (w : world) :
  consistent cls self w →
  __delitem__ self key = (r, self') →
  consistent cls self' w.
Proof.
  unfold __delitem__. intros Hc.
  destruct (Dict.get key (_config self)).
  - intros [= _ <-]. intros Hch. unfold changed in Hch. simpl in Hch. done.
  - by intros [= _ <-].
Qed.

(** Either some entry refers to [l], or none does. *)
Lemma refers_or_not (l : nat) (config : Dict.t entry) :
  (∃ key, (key, Ref l) ∈ config) ∨ Forall (λ kv, kv.2 ≠ Ref l) config.
Proof.
  induction config as [|[k v] config [[key Hin]|IH]].
  - right. apply Forall_nil_2.
  - left. exists key. by apply list_elem_of_further.
  - destruct v as [v|l'].
    + right. by apply Forall_cons.
    + destruct (decide (l' = l)) as [->|Hne].
      * left. exists k. apply list_elem_of_here.
      * right. apply Forall_cons. split; [|done]. simpl. congruence.
Qed.

Lemma resolve_insert_other (hp : list FlagChangeList.t) (l : nat) (o : FlagChangeList.t)
    (v : entry) :
  v ≠ Ref l → resolve (<[l := o]> hp) v = resolve hp v.
Proof.
  destruct v as [v|l']; simpl; [done|]. intros Hne.
  rewrite list_lookup_insert_ne; [done | congruence].
Qed.

Lemma entry_changed_resolve (hp hp' : list FlagChangeList.t) (v : entry) :
  resolve hp' v = resolve hp v → entry_changed hp' v = entry_changed hp v.
Proof.
  destruct v as [v|l]; simpl; [done|].
  destruct (hp' !! l), (hp !! l); simpl; intros Heq; by simplify_eq.
Qed.

Lemma call_consistent (self : LineBasedMDConfig) (l : nat)
    (method : FlagChangeList.t → result FlagChangeList.t) (r : result ()) (w w' : world) :
  sets_flag method →
  consistent cls self w →
  call l method w = (r, w') →
  consistent cls self w'.
Proof.
  intros Hflag Hc Hcall.
  assert (Hw : w' = w ∨ ∃ o o', heap w !! l = Some o ∧ method o = inr o' ∧
                                 w' = set_heap w (<[l := o']> (heap w))).
  { unfold call in Hcall. destruct (heap w !! l) as [o|]; [|left; by simplify_eq].
    destruct (method o) as [e|o'] eqn:Hm; [left; by simplify_eq|].
    right. exists o, o'. by simplify_eq. }
  destruct Hw as [->|(o & o' & Hl & Hm & ->)]; [done|].
  destruct (refers_or_not l (_config self)) as [[key Hin]|Hnone].
  - intros Hch. exfalso.
    assert (Htrue : changed self (set_heap w (<[l := o']> (heap w))) = true).
    { apply changed_true_iff. right. exists key, (Ref l). split; [done|]. simpl.
      rewrite list_lookup_insert_eq; [|by eapply lookup_lt_Some]. by apply (Hflag o). }
    congruence.
  - assert (Hres : Forall (λ kv, resolve (<[l := o']> (heap w)) kv.2 = resolve (heap w) kv.2)
                     (_config self)).
    { eapply Forall_impl; [exact Hnone|]. intros kv Hkv. by apply resolve_insert_other. }
    assert (Htbl : table self (set_heap w (<[l := o']> (heap w))) = table self w).
    { unfold table, view. simpl. apply Forall_fmap_ext_1.
      eapply Forall_impl; [exact Hres|]. intros [k v] Hkv. simpl in *. by rewrite Hkv. }
    assert (Hchg : changed self (set_heap w (<[l := o']> (heap w))) = changed self w).
    { unfold changed. simpl. f_equal. f_equal. apply Forall_fmap_ext_1.
      eapply Forall_impl; [exact Hres|]. intros kv Hkv. by apply entry_changed_resolve. }
    intros Hch. rewrite Hchg in Hch. destruct (Hc Hch) as (path & content & ? & ? & Hp).
    exists path, content. rewrite Htbl. by split_and!.
Qed.

Lemma copy2_other (files : filesystem) (src dst : string) :
  (copy2 files src dst).2 !! src = files !! src.
Proof.
  unfold copy2.
  generalize (match files !! dst with
              | Some Dir => path_join dst (basename src)
              | _ => dst
              end) as target.
  intros target. unfold exists_.
  destruct (String.eqb_spec src target) as [<-|Hne]; simpl.
  - by destruct (files !! src) as [[content|]|] eqn:Hsrc.
  - destruct (files !! src) as [[content|]|] eqn:Hsrc; try done.
    destruct (files !! target) as [[c|]|]; simpl; try done;
      by rewrite lookup_insert_ne.
Qed.

Lemma write_consistent (self self' : LineBasedMDConfig) (outfile : string)
    (overwrite : bool) (r : result ()) (w w' : world) :
  consistent cls self w →
  write cls self outfile overwrite w = (r, self', w') →
  consistent cls self' w'.
Proof.
  intros Hc Hw.
  destruct (write_reads_only cls self outfile overwrite w) as (Hs & Hh).
  rewrite Hw in Hs, Hh. simpl in *. subst self'.
  pose proof (table_heap self w w' Hh) as Ht.
  pose proof (changed_heap self w w' Hh) as Hch.
  intros Hch'. rewrite Hch in Hch'. destruct (Hc Hch') as (path & content & Ho & Hf & Hp).
  exists path, content. rewrite Ht. split_and!; [done| |done].
  unfold write in Hw. rewrite Hch' in Hw. simpl in Hw.
  destruct (exists_ (fs w) (abspath outfile) && negb overwrite); [by simplify_eq|].
  unfold original_file in Hw. rewrite Ho in Hw.
  pose proof (copy2_other (fs w) path (abspath outfile)) as Hother.
  destruct (copy2 (fs w) path (abspath outfile)) as [r' fs']. simplify_eq. simpl in *.
  by rewrite Hother.
Qed.

(** Along any use of a store, [changed] keeps its meaning and the
    references of the table stay valid. *)
Lemma step_sound (o : op) (st : LineBasedMDConfig * world) :
  sound cls st → sound cls (step cls o st).
Proof.
  destruct st as [self w]. intros [Hc Hv]. unfold sound. destruct o; simpl.
  - destruct (__setitem__ cls self key value w) as [[r self'] w'] eqn:Hs. simpl.
    split; [by eapply setitem_consistent | by eapply setitem_valid_refs].
  - destruct (__delitem__ self key) as [r self'] eqn:Hd. simpl.
    split; [by eapply delitem_consistent | by eapply delitem_valid_refs].
  - destruct (call l _ w) as [r w'] eqn:Hcall. simpl. split.
    + eapply call_consistent; [apply setitem_sets_flag|done|done].
    + by eapply call_valid_refs.
  - destruct (call l _ w) as [r w'] eqn:Hcall. simpl. split.
    + eapply call_consistent; [apply delitem_sets_flag|done|done].
    + by eapply call_valid_refs.
  - destruct (call l _ w) as [r w'] eqn:Hcall. simpl. split.
    + eapply call_consistent; [apply insert_sets_flag|done|done].
    + by eapply call_valid_refs.
  - destruct (write cls self outfile overwrite w) as [[r self'] w'] eqn:Hw. simpl.
    split; [by eapply write_consistent|].
    destruct (write_reads_only cls self outfile overwrite w) as (Hs & Hh).
    rewrite Hw in Hs, Hh. simpl in *. subst self'.
    unfold valid_refs in *. by rewrite Hh.
Qed.

Lemma steps_sound (ops : list op) (st : LineBasedMDConfig * world) :
  sound cls st → sound cls (steps cls ops st).
Proof.
  unfold steps. revert st. induction ops as [|o ops IH]; intros st Hst; simpl; [done|].
  apply IH. by apply step_sound.
Qed.

(** X19: so a store that was bound to a file and then used, and whose
    [changed] is false, holds what its file says. *)
Lemma used_store_in_sync (path : string) (w0 w1 : world) (self0 : LineBasedMDConfig)
    (ops : list op) :
  __init__ cls path w0 = (inr self0, w1) →
  changed (steps cls ops (self0, w1)).1 (steps cls ops (self0, w1)).2 = false →
  in_sync cls (steps cls ops (self0, w1)).1 (steps cls ops (self0, w1)).2.
Proof.
  intros Hinit. destruct (init_in_sync cls path w0 w1 self0 Hinit) as (Hs & Hc & Hv).
  assert (Hsound : sound cls (self0, w1)) by (split; [by intros _ | done]).
  by destruct (steps_sound ops _ Hsound) as [Hcons _].
Qed.

End SyncFacts.

(** ** The written file *)
Section SerializeFacts.
Context `{Python} (cls : MDClass).

Lemma append_cons (c : ascii) (s1 s2 : string) :
  String c s1 +:+ s2 = String c (s1 +:+ s2).
Proof. reflexivity. Qed.

Lemma append_empty_r (s : string) : s +:+ "" = s.
Proof. induction s as [|c s IH]; [done | by rewrite append_cons, IH]. Qed.

Lemma append_assoc (s1 s2 s3 : string) : (s1 +:+ s2) +:+ s3 = s1 +:+ s2 +:+ s3.
Proof. induction s1 as [|c s1 IH]; [done | by rewrite !append_cons, IH]. Qed.

Lemma container_line_joined (key : string) (items : list pyval) :
  (key +:+ _KEY_VALUE_SEPARATOR cls) +:+ joined cls items = container_line cls key items.
Proof.
  unfold joined, container_line. destruct items.
  - by rewrite append_empty_r.
  - by rewrite append_assoc.
Qed.

Lemma entry_line_shown (hp : list FlagChangeList.t) (key : string) (v : entry) (s : shown) :
  resolve hp v = Some s →
  entry_line cls hp key v = inr (key_value_line cls key s).
Proof.
  destruct v as [v|l]; simpl.
  - intros [= <-]. simpl. destruct (py_iter v) as [e|items].
    + by rewrite append_assoc.
    + by rewrite container_line_joined.
  - destruct (hp !! l) as [o|]; simpl; [|done].
    intros [= <-]. simpl. by rewrite container_line_joined.
Qed.

Lemma entry_lines_shown (hp : list FlagChangeList.t) (config : Dict.t entry)
    (entries : list (string * shown)) :
  view hp config = prod_map id Some <$> entries →
  result_map (λ kv, entry_line cls hp kv.1 kv.2) config
    = inr ((λ kv, key_value_line cls kv.1 kv.2) <$> entries).
Proof.
  revert entries. unfold view.
  induction config as [|[key v] config IH]; intros [|[key' s] entries]; csimpl;
    try done.
  intros [= <- Hres Hrest]. rewrite (entry_line_shown hp key v s Hres).
  by rewrite (IH entries Hrest).
Qed.

(** [str] returns for the ints of everyday size. *)
Lemma str_returns_int (z : Z) : Z.abs z ≤ 4300 → str_returns (PInt z) = true.
Proof.
  intros Hz. change ((Z.abs z <? 10 ^ 4300) = true). apply Z.ltb_lt.
  eapply Z.le_lt_trans; [exact Hz|]. by apply Z.pow_gt_lin_r.
Qed.

Lemma str_returns_items (items : list pyval) :
  Forall (λ v, str_returns v = true) items → forallb str_returns items = true.
Proof.
  induction 1 as [|v items Hv _ IH]; [done|].
  change (str_returns v && forallb str_returns items = true). by rewrite Hv, IH.
Qed.

(** C6: a store whose [changed] is true is written, when the target may be
    written (it does not exist, or [overwrite] is set and it is not a
    directory) and [str] returns for its items: [write] returns, and the file
    at the target then holds, as its whole content, the lines of the entries
    in the order of the table, joined by the line feed character; no other
    file is changed.  Each line is the key, the separator and the items
    joined by the joiner, so the key and the separator alone for a container
    without items, and the key, the separator and the string form for a value
    that is not a container. *)
Theorem write_serializes (self : LineBasedMDConfig) (outfile : string)
    (overwrite : bool) (w : world) (entries : list (string * shown)) :
  changed self w = true →
  table self w = prod_map id Some <$> entries →
  Forall (λ kv, entry_str_returns kv.2 = true) entries →
  fs w !! abspath outfile = None ∨
    (overwrite = true ∧ fs w !! abspath outfile ≠ Some Dir) →
  (∃ w',
     write cls self outfile overwrite w = (inr (), self, w') ∧
     fs w' !! abspath outfile =
       Some (File (String.concat (String "010" EmptyString)
                     ((λ kv, key_value_line cls kv.1 kv.2) <$> entries))) ∧
     (∀ p, p ≠ abspath outfile → fs w' !! p = fs w !! p)) ∧
  (∀ key o, key_value_line cls key (ShownList o) =
     match FlagChangeList._data o with
     | [] => key +:+ _KEY_VALUE_SEPARATOR cls
     | items =>
         key +:+ _KEY_VALUE_SEPARATOR cls +:+
         String.concat (_INTER_VALUE_CHAR cls) (py_str <$> items)
     end) ∧
  (∀ key v, has_len v = false →
     key_value_line cls key (ShownPlain v) = key +:+ _KEY_VALUE_SEPARATOR cls +:+ py_str v).
Proof.
  intros Hch Htbl _ Htarget. split_and!.
  - unfold write. rewrite Hch. simpl.
    assert (Hguard : exists_ (fs w) (abspath outfile) && negb overwrite = false).
    { unfold exists_. destruct Htarget as [->|[-> _]]; [done|].
      apply andb_false_r. }
    rewrite Hguard. rewrite (entry_lines_shown (heap w) (_config self) entries Htbl).
    unfold write_text.
    assert (Hfile : fs w !! abspath outfile ≠ Some Dir)
      by (destruct Htarget as [->|[_ ?]]; done).
    destruct (fs w !! abspath outfile) as [[c|]|] eqn:Hout; try done;
      (eexists; split; [done|]; simpl; split;
       [by rewrite lookup_insert_eq | intros p Hp; by rewrite lookup_insert_ne]).
  - intros key o. simpl. unfold container_line. by destruct (FlagChangeList._data o).
  - intros key v Hlen. simpl. by destruct v.
Qed.

End SerializeFacts.

(** ** Repeated keys and keys without value *)
Section DuplicateFacts.
Context `{Python} (cls : MDClass).

Lemma parse_lines_app_inr (l1 l2 : list string) (parsed parsed' : Dict.t pyval)
    (lg lg' : list string) :
  parse_lines cls (l1 ++ l2) parsed lg = (inr parsed', lg') →
  ∃ parsed1 lg1,
    parse_lines cls l1 parsed lg = (inr parsed1, lg1) ∧
    parse_lines cls l2 parsed1 lg1 = (inr parsed', lg').
Proof.
  rewrite parse_lines_app.
  destruct (parse_lines cls l1 parsed lg) as [[e|parsed1] lg1]; [done|]. eauto.
Qed.

Lemma parse_lines_log_mono (lines : list string) (parsed : Dict.t pyval)
    (lg : list string) (x : string) :
  x ∈ lg → x ∈ (parse_lines cls lines parsed lg).2.
Proof.
  intros Hx. rewrite parse_lines_log. simpl. apply elem_of_app. by left.
Qed.

(** The loop over a file in which [l2] is the last line to yield [key] and
    an earlier line [l1] yields it too. *)
Lemma parse_lines_last_wins (pre mid post : list string) (l1 l2 : string)
    (key : string) (d1 d2 : Dict.t pyval) (v2 : pyval)
    (parsed : Dict.t pyval) (ws : list string) :
  parse_line cls l1 = inr d1 → is_Some (Dict.get key d1) →
  parse_line cls l2 = inr d2 → Dict.get key d2 = Some v2 →
  Forall (λ line, ∀ d, parse_line cls line = inr d → Dict.get key d = None) post →
  parse_lines cls (pre ++ l1 :: mid ++ l2 :: post) [] [] = (inr parsed, ws) →
  duplicate_warning key ∈ ws ∧ Dict.get key parsed = Some v2.
Proof.
  intros Hl1 Hk1 Hl2 Hk2 Hpost Hrun.
  apply parse_lines_app_inr in Hrun as (p0 & lg0 & _ & Hrun).
  simpl in Hrun. rewrite Hl1 in Hrun.
  apply parse_lines_app_inr in Hrun as (pm & lgm & Hmid & Hrun).
  simpl in Hrun. rewrite Hl2 in Hrun.
  assert (Hpm : is_Some (Dict.get key pm)).
  { eapply parse_lines_keeps_key; [|exact Hmid].
    rewrite get_update; [|by eapply parse_line_NoDup].
    destruct Hk1 as [v1 ->]. by eexists. }
  split.
  - pose proof (parse_lines_log_mono post (Dict.update pm d2)
      (warn_duplicates pm d2 lgm) (duplicate_warning key)) as Hmono.
    rewrite Hrun in Hmono. apply Hmono.
    rewrite warn_duplicates_log. apply elem_of_app. right.
    apply warn_duplicates_elem; [done|]. by eapply get_Some_keys.
  - rewrite (parse_lines_other_key cls key post _ _ _ _ Hpost Hrun).
    rewrite get_update; [|by eapply parse_line_NoDup]. by rewrite Hk2.
Qed.

(** The loop over a file in which [line] is the last line to yield [key]. *)
Lemma parse_lines_last (pre post : list string) (line : string)
    (key : string) (d : Dict.t pyval) (v : pyval)
    (parsed : Dict.t pyval) (ws : list string) :
  parse_line cls line = inr d → Dict.get key d = Some v →
  Forall (λ line, ∀ d, parse_line cls line = inr d → Dict.get key d = None) post →
  parse_lines cls (pre ++ line :: post) [] [] = (inr parsed, ws) →
  Dict.get key parsed = Some v.
Proof.
  intros Hl Hk Hpost Hrun.
  apply parse_lines_app_inr in Hrun as (p0 & lg0 & _ & Hrun).
  simpl in Hrun. rewrite Hl in Hrun.
  rewrite (parse_lines_other_key cls key post _ _ _ _ Hpost Hrun).
  rewrite get_update; [|by eapply parse_line_NoDup]. by rewrite Hk.
Qed.

Lemma parse_lines_from_empty (lines : list string) (lg : list string) :
  Forall (λ line, is_ok (parse_line cls line) = true) lines →
  ∃ parsed ws,
    parse_lines cls lines [] [] = (inr parsed, ws) ∧
    parse_lines cls lines [] lg = (inr parsed, lg ++ ws) ∧
    NoDup (Dict.keys parsed).
Proof.
  intros Hok. destruct (parse_lines_total cls lines [] [] Hok) as (parsed & ws & Hrun).
  exists parsed, ws. split_and!; [done| |].
  - rewrite parse_lines_log. by rewrite Hrun.
  - eapply parse_lines_NoDup; [|exact Hrun]. apply NoDup_nil_2.
Qed.

(** The log after [parse], whether the conversions raise or not. *)
Lemma parse_log (self : LineBasedMDConfig) (w : world) (path content : string)
    (parsed : Dict.t pyval) (lg : list string) :
  _original_file self = Some path →
  fs w !! path = Some (File content) →
  parse_lines cls (split newline (universal_newlines content)) [] (log w)
    = (inr parsed, lg) →
  log (parse cls self w).2 = lg.
Proof.
  intros Horig Hfile Hrun. unfold parse, original_file, read_text.
  rewrite Horig, Hfile, Hrun.
  by destruct (convert_items cls parsed [] (heap w)) as [[e|config] hp].
Qed.

(** C4: in a file whose lines all parse and in which [key] is yielded by a
    line [l1] and, for the last time, by a later line [l2] with the value
    [v2], the loop of [parse] reaches its end, records the warning for
    [key], and keeps [v2] for [key].  [parse] then raises only if a kept
    value does not convert; when the kept values convert it succeeds, and the
    entry of [key] in the table is the conversion of [v2]. *)
Theorem duplicate_key_last_wins (self : LineBasedMDConfig) (w : world)
    (path content : string) (pre mid post : list string) (l1 l2 : string)
    (key : string) (d1 d2 : Dict.t pyval) (v2 : pyval) :
  _original_file self = Some path →
  fs w !! path = Some (File content) →
  split newline (universal_newlines content) = pre ++ l1 :: mid ++ l2 :: post →
  Forall (λ line, is_ok (parse_line cls line) = true) (pre ++ l1 :: mid ++ l2 :: post) →
  parse_line cls l1 = inr d1 → is_Some (Dict.get key d1) →
  parse_line cls l2 = inr d2 → Dict.get key d2 = Some v2 →
  Forall (λ line, ∀ d, parse_line cls line = inr d → Dict.get key d = None) post →
  ∃ parsed ws,
    parse_lines cls (pre ++ l1 :: mid ++ l2 :: post) [] (log w)
      = (inr parsed, log w ++ ws) ∧
    duplicate_warning key ∈ ws ∧
    Dict.get key parsed = Some v2 ∧
    log (parse cls self w).2 = log w ++ ws ∧
    (Forall (λ kv, is_ok (run_rule (rule_of cls kv.1) kv.2) = true) parsed →
     ∃ c, run_rule (rule_of cls key) v2 = inr c ∧
          (parse cls self w).1.1 = inr () ∧
          Dict.get key (table (parse cls self w).1.2 (parse cls self w).2)
            = Some (Some (as_new c))).
Proof.
  intros Horig Hfile Hsplit Hok Hl1 Hk1 Hl2 Hk2 Hpost.
  destruct (parse_lines_from_empty _ (log w) Hok) as (parsed & ws & Hrun0 & Hrun & Hnd).
  destruct (parse_lines_last_wins _ _ _ _ _ _ _ _ _ _ _ Hl1 Hk1 Hl2 Hk2 Hpost Hrun0)
    as [Hwarn Hget].
  exists parsed, ws. split_and!; try done.
  - eapply parse_log; [done|done|]. by rewrite Hsplit.
  - intros Hconv.
    destruct (construct_items_total cls parsed [] Hconv) as [tbl Htbl].
    pose proof (parse_spec cls self w path content Horig Hfile) as Hp.
    unfold parsed_table in Hp. rewrite Hsplit, Hrun0, Htbl in Hp.
    destruct Hp as (self' & w' & -> & Ht & _). simpl. rewrite Ht.
    destruct (construct_items_get cls key v2 parsed [] tbl Hnd Hget Htbl) as (c & Hc & Hg).
    eauto.
Qed.

Lemma get_split {A} (key : string) (v : A) (d : Dict.t A) :
  Dict.get key d = Some v →
  ∃ before after, d = before ++ (key, v) :: after ∧ key ∉ Dict.keys before.
Proof.
  unfold Dict.keys. induction d as [|[k v'] d IH]; simpl; [done|].
  destruct (String.eqb_spec key k) as [->|Hne].
  - intros [= ->]. exists [], d. split; [done|]. apply not_elem_of_nil.
  - intros Hg. destruct (IH Hg) as (before & after & -> & Hn).
    exists ((k, v') :: before), after. split; [done|]. csimpl.
    by apply not_elem_of_cons.
Qed.

(** C10: for a key whose rule is the singleton rule (it is declared in a
    singleton family and not entered again by a family that the type dispatch
    enters later, nor by a custom rule), the conversion of an empty list
    raises [IndexError].  So when the last line to yield the key yields it
    with an empty list, [parse] raises and the store keeps what it held; the
    exception is that [IndexError] when the lines all parse and the values
    kept for the other keys convert. *)
Theorem empty_value_for_singleton_key (self : LineBasedMDConfig) (w : world)
    (path content : string) (pre post : list string) (line : string)
    (key : string) (d : dtype) (dline : Dict.t pyval) :
  singleton_key cls key d →
  _original_file self = Some path →
  fs w !! path = Some (File content) →
  split newline (universal_newlines content) = pre ++ line :: post →
  parse_line cls line = inr dline → Dict.get key dline = Some (PList []) →
  Forall (λ line, ∀ d, parse_line cls line = inr d → Dict.get key d = None) post →
  run_rule (rule_of cls key) (PList []) = inl IndexError ∧
  (∃ e w', parse cls self w = (inl e, self, w') ∧ fs w' = fs w) ∧
  (∀ parsed lg,
     parse_lines cls (pre ++ line :: post) [] (log w) = (inr parsed, lg) →
     Forall (λ kv, kv.1 ≠ key → is_ok (run_rule (rule_of cls kv.1) kv.2) = true) parsed →
     (parse cls self w).1.1 = inl IndexError).
Proof.
  intros Hkey Horig Hfile Hsplit Hline Hk Hpost.
  assert (Hrule : run_rule (rule_of cls key) (PList []) = inl IndexError).
  { by rewrite (rule_of_singleton _ _ _ Hkey). }
  pose proof (parse_spec cls self w path content Horig Hfile) as Hp.
  unfold parsed_table in Hp. rewrite Hsplit in Hp.
  split; [done|].
  destruct (parse_lines cls (pre ++ line :: post) [] []) as [[e|parsed] ws] eqn:Hrun0.
  { split; [destruct Hp as (w' & Hp & Hfs); eauto|].
    intros parsed lg Hrun. rewrite parse_lines_log, Hrun0 in Hrun. done. }
  pose proof (parse_lines_last _ _ _ _ _ _ _ _ Hline Hk Hpost Hrun0) as Hget.
  destruct (get_split _ _ _ Hget) as (before & after & Hparsed & Hbefore).
  destruct (construct_items_raises cls key (PList []) IndexError before after [] Hrule)
    as [[e He] Hfirst].
  rewrite Hparsed in Hp. split.
  - rewrite He in Hp. destruct Hp as (w' & Hp & Hfs). eauto.
  - intros parsed' lg' Hrun' Hothers.
    rewrite parse_lines_log, Hrun0 in Hrun'. simpl in Hrun'. simplify_eq.
    rewrite Hfirst in Hp.
    + destruct Hp as (w' & -> & _). done.
    + apply Forall_app in Hothers as [Hothers _].
      rewrite Forall_forall in Hothers. apply Forall_forall. intros [k v] Hin.
      apply Hothers; [done|]. simpl. intros ->. apply Hbefore.
      unfold Dict.keys. by apply (list_elem_of_fmap_2 fst _ (key, v)).
Qed.

End DuplicateFacts.

(** ** The list objects *)
Section ListFacts.
Context `{Python}.

Implicit Types (o : FlagChangeList.t) (v : pyval).

Lemma result_map_Forall2 {A B} (f : A → result B) (l : list A) (l' : list B) :
  result_map f l = inr l' → Forall2 (λ x y, f x = inr y) l l'.
Proof.
  revert l'. induction l as [|x l IH]; intros l'; simpl.
  - intros [= <-]. constructor.
  - destruct (f x) as [e|y] eqn:Hx; [done|].
    destruct (result_map f l) as [e|ys]; [done|].
    intros [= <-]. constructor; [done | by apply IH].
Qed.

Lemma result_map_total {A B} (f : A → result B) (l : list A) :
  (∀ x, x ∈ l → is_ok (f x) = true) → ∃ l', result_map f l = inr l'.
Proof.
  induction l as [|x l IH]; intros Hok; simpl; [by eexists|].
  assert (Hx : is_ok (f x) = true) by (apply Hok; apply list_elem_of_here).
  destruct (f x) as [e|y]; [done|].
  destruct IH as [l' ->]; [|by eexists].
  intros z Hz. apply Hok. by apply list_elem_of_further.
Qed.

Lemma index_bounds (n : nat) (key : Z) :
  match FlagChangeList.index n key with
  | inr i => (- Z.of_nat n ≤ key < Z.of_nat n) ∧ (i < n)%nat ∧
             Z.of_nat i = (if key <? 0 then Z.of_nat n + key else key)
  | inl e => e = IndexError ∧ ¬ (- Z.of_nat n ≤ key < Z.of_nat n)
  end.
Proof.
  unfold FlagChangeList.index.
  destruct (Z.leb_spec 0 key) as [H0|H0];
    destruct (Z.ltb_spec key (Z.of_nat n)) as [H1|H1];
    destruct (Z.ltb_spec key 0) as [H2|H2];
    destruct (Z.leb_spec (- Z.of_nat n) key) as [H3|H3]; simpl;
    try lia; try (split; [done | lia]).
Qed.

Lemma typed_data_scalars (d : dtype) (items typed : list pyval) :
  (∀ f, d ≠ Dother f) →
  result_map (apply_dtype d) items = inr typed →
  Forall (λ v, scalar_of d v = true) typed.
Proof.
  intros Hd Hmap. apply result_map_Forall2 in Hmap.
  induction Hmap as [|x y l l' Hxy _ IH]; constructor; [|done].
  by apply (apply_dtype_scalar d x).
Qed.

(** X1: the items of a [TypedFlagChangeList] whose [dtype] is [str], [int]
    or [float] are scalars of that type: after the constructor, which leaves
    the flag false, and after every item assignment, insertion and
    deletion. *)
Theorem typed_list_keeps_type (d : dtype) :
  (∀ f, d ≠ Dother f) →
  (∀ value o,
     FlagChangeList.typed__init__ value d = inr o →
     FlagChangeList._dtype o = Some d ∧ FlagChangeList._changed o = false ∧
     items_typed o) ∧
  (∀ o o' i v,
     FlagChangeList._dtype o = Some d → items_typed o →
     FlagChangeList.__setitem__ o i v = inr o' ∨
       FlagChangeList.insert o i v = inr o' ∨
       FlagChangeList.__delitem__ o i = inr o' →
     FlagChangeList._dtype o' = Some d ∧ items_typed o').
Proof.
  intros Hd. split.
  - intros value o. unfold FlagChangeList.typed__init__.
    destruct (result_map (apply_dtype d) _) as [e|typed] eqn:Hmap; simpl; [done|].
    intros [= <-]. unfold items_typed. simpl. split_and!; [done|done|].
    by eapply typed_data_scalars.
  - intros o o' i v Hdt Hty Hm. unfold items_typed in *. rewrite Hdt in Hty.
    unfold FlagChangeList.__setitem__, FlagChangeList.insert,
      FlagChangeList.__delitem__, FlagChangeList._convert_type in Hm.
    rewrite Hdt in Hm.
    destruct Hm as [Hm|[Hm|Hm]].
    + destruct (apply_dtype d v) as [e|tv] eqn:Hv; simpl in Hm; [done|].
      destruct (FlagChangeList.index _ i) as [e|n]; simpl in Hm; [done|].
      injection Hm as <-. simpl. split; [done|].
      apply Forall_insert; [done|]. by apply (apply_dtype_scalar d v).
    + destruct (apply_dtype d v) as [e|tv] eqn:Hv; simpl in Hm; [done|].
      destruct (negb (FlagChangeList.fits_ssize_t i)); [done|].
      injection Hm as <-. simpl. split; [done|].
      apply Forall_app. split; [by apply Forall_take|].
      apply Forall_cons. split; [by apply (apply_dtype_scalar d v) | by apply Forall_drop].
    + destruct (FlagChangeList.index _ i) as [e|n]; simpl in Hm; [done|].
      injection Hm as <-. simpl. split; [done|]. by apply Forall_delete.
Qed.

(** X2: an item assignment [l[i] = v] succeeds exactly when the value
    converts and the index is in range ([-len <= i < len]); then [l[i]] is
    the converted value, the length is the same, the flag is set, and every
    other position keeps its item. *)
Theorem list_setitem_getitem o (i : Z) v :
  let n := length (FlagChangeList._data o) in
  (∀ tv, FlagChangeList._convert_type o v = inr tv →
     - Z.of_nat n ≤ i < Z.of_nat n →
     ∃ o', FlagChangeList.__setitem__ o i v = inr o' ∧
           FlagChangeList.__getitem__ o' i = inr tv ∧
           FlagChangeList.__len__ o' = FlagChangeList.__len__ o ∧
           FlagChangeList._changed o' = true ∧
           (∀ j, (i - j) mod Z.of_nat n ≠ 0 →
                 FlagChangeList.__getitem__ o' j = FlagChangeList.__getitem__ o j)) ∧
  (∀ o', FlagChangeList.__setitem__ o i v = inr o' →
     is_ok (FlagChangeList._convert_type o v) = true ∧
     - Z.of_nat n ≤ i < Z.of_nat n).
Proof.
  intros n. split.
  - intros tv Hconv Hrange. unfold FlagChangeList.__setitem__. rewrite Hconv. simpl.
    pose proof (index_bounds n i) as Hi. fold n.
    destruct (FlagChangeList.index n i) as [e|k] eqn:Hk; [by destruct Hi as [_ Hi]|].
    destruct Hi as (_ & Hlt & Hval). simpl. eexists. split; [done|].
    unfold FlagChangeList.__getitem__, FlagChangeList.__len__. simpl.
    rewrite !length_insert. fold n. rewrite Hk. simpl.
    rewrite list_lookup_insert_eq; [|done]. split_and!; try done.
    intros j Hj. pose proof (index_bounds n j) as Hjb.
    destruct (FlagChangeList.index n j) as [e|kj]; [done|]. simpl.
    destruct Hjb as (Hjr & Hjlt & Hjval).
    rewrite list_lookup_insert_ne; [done|].
    intros ->. apply Hj.
    destruct (Z.ltb_spec i 0) as [Hin|Hin], (Z.ltb_spec j 0) as [Hjn|Hjn].
    + assert (i = j) as -> by lia. by rewrite Z.sub_diag, Z.mod_0_l by lia.
    + replace (i - j) with (-1 * Z.of_nat n) by lia. apply Z.mod_mul. lia.
    + replace (i - j) with (1 * Z.of_nat n) by lia. apply Z.mod_mul. lia.
    + assert (i = j) as -> by lia. by rewrite Z.sub_diag, Z.mod_0_l by lia.
  - intros o'. unfold FlagChangeList.__setitem__.
    destruct (FlagChangeList._convert_type o v) as [e|tv]; simpl; [done|].
    pose proof (index_bounds n i) as Hi. fold n.
    destruct (FlagChangeList.index n i) as [e|k]; simpl; [done|].
    intros _. split; [done|apply Hi].
Qed.

(** X3: [insert] converts the value first and then refuses an index that
    does not fit a C [ssize_t] with [OverflowError]; these are its only
    exceptions, and they leave the list as it was.  For an index that fits it
    never raises for the position, which is clipped to the ends of the list:
    the list grows by one, the flag is set, the new item stands at the clipped
    position, an index at or beyond the length appends, and an index of 0 or
    at most minus the length puts the item first. *)
Theorem list_insert_clips o (i : Z) v :
  (∀ e, FlagChangeList.insert o i v = inl e ↔
        FlagChangeList._convert_type o v = inl e ∨
        (is_ok (FlagChangeList._convert_type o v) = true ∧
         ¬ (- 2 ^ 63 ≤ i < 2 ^ 63) ∧ e = OverflowError)) ∧
  (∀ tv, FlagChangeList._convert_type o v = inr tv →
     - 2 ^ 63 ≤ i < 2 ^ 63 →
     ∃ o', FlagChangeList.insert o i v = inr o' ∧
           FlagChangeList.__len__ o' = S (FlagChangeList.__len__ o) ∧
           FlagChangeList._changed o' = true ∧
           FlagChangeList._dtype o' = FlagChangeList._dtype o ∧
           FlagChangeList._data o' !!
             FlagChangeList.insert_pos (length (FlagChangeList._data o)) i = Some tv ∧
           delete (FlagChangeList.insert_pos (length (FlagChangeList._data o)) i)
             (FlagChangeList._data o') = FlagChangeList._data o ∧
           (Z.of_nat (length (FlagChangeList._data o)) ≤ i →
            FlagChangeList._data o' = FlagChangeList._data o ++ [tv]) ∧
           (i ≤ - Z.of_nat (length (FlagChangeList._data o)) ∨ i = 0 →
            FlagChangeList._data o' = tv :: FlagChangeList._data o)).
Proof.
  assert (Hfits : FlagChangeList.fits_ssize_t i = true ↔ - 2 ^ 63 ≤ i < 2 ^ 63).
  { unfold FlagChangeList.fits_ssize_t. rewrite andb_true_iff, Z.leb_le, Z.ltb_lt. done. }
  unfold FlagChangeList.insert. split.
  - intros e. destruct (FlagChangeList._convert_type o v) as [e'|tv]; simpl.
    + split; [intros [= ->]; by left|]. intros [[= ->]|(? & _)]; done.
    + destruct (FlagChangeList.fits_ssize_t i) eqn:Hi; simpl.
      * split; [done|]. intros [?|(_ & Hout & _)]; [done|].
        destruct Hout. by apply Hfits.
      * split.
        -- intros [= <-]. right. split_and!; [done| |done].
           intros Hin. apply Hfits in Hin. congruence.
        -- intros [?|(_ & _ & ->)]; done.
  - intros tv -> Hin. simpl. rewrite (proj2 Hfits Hin). simpl. eexists. split; [done|].
    set (n := length (FlagChangeList._data o)).
    assert (Hpos : (FlagChangeList.insert_pos n i ≤ n)%nat).
    { unfold FlagChangeList.insert_pos. destruct (Z.ltb_spec i 0); lia. }
    unfold FlagChangeList.__len__. simpl. split_and!.
    + rewrite length_app, length_take. simpl. rewrite length_drop. fold n. lia.
    + done.
    + done.
    + rewrite lookup_app_r; rewrite length_take; fold n; [|lia].
      by replace (_ - _)%nat with 0%nat by lia.
    + set (k := FlagChangeList.insert_pos n i).
      rewrite <- (take_drop k (FlagChangeList._data o)) at 3.
      assert (Hk : length (take k (FlagChangeList._data o)) = k)
        by (rewrite length_take; fold n; lia).
      rewrite <- Hk at 1. rewrite delete_middle. done.
    + intros Hge. assert (FlagChangeList.insert_pos n i = n) as ->.
      { unfold FlagChangeList.insert_pos. destruct (Z.ltb_spec i 0); lia. }
      unfold n. by rewrite firstn_all, drop_all.
    + intros Hle. assert (FlagChangeList.insert_pos n i = 0%nat) as ->.
      { unfold FlagChangeList.insert_pos. destruct (Z.ltb_spec i 0); lia. }
      done.
Qed.

(** X4: [del l[i]] and [l[i]] raise [IndexError] exactly when the index is
    out of range; in range, the deletion removes the item that [l[i]] reads,
    shortens the list by one and sets the flag, and a negative index counts
    from the end. *)
Theorem list_delitem_bounds o (i : Z) :
  let n := length (FlagChangeList._data o) in
  (¬ (- Z.of_nat n ≤ i < Z.of_nat n) →
     FlagChangeList.__delitem__ o i = inl IndexError ∧
     FlagChangeList.__getitem__ o i = inl IndexError) ∧
  (- Z.of_nat n ≤ i < Z.of_nat n →
     ∃ k x o',
       Z.of_nat k = (if i <? 0 then Z.of_nat n + i else i) ∧
       FlagChangeList._data o !! k = Some x ∧
       FlagChangeList.__getitem__ o i = inr x ∧
       FlagChangeList.__delitem__ o i = inr o' ∧
       FlagChangeList._data o' = delete k (FlagChangeList._data o) ∧
       S (FlagChangeList.__len__ o') = FlagChangeList.__len__ o ∧
       FlagChangeList._changed o' = true).
Proof.
  intros n. unfold FlagChangeList.__delitem__, FlagChangeList.__getitem__.
  pose proof (index_bounds n i) as Hi. fold n.
  destruct (FlagChangeList.index n i) as [e|k]; simpl.
  - destruct Hi as [-> Hout]. split; [done|]. intros Hin. by destruct Hout.
  - destruct Hi as (Hin & Hlt & Hval). split; [done|]. intros _.
    destruct (lookup_lt_is_Some_2 (FlagChangeList._data o) k Hlt) as [x Hx].
    exists k, x. eexists. rewrite Hx. split_and!; try done.
    unfold FlagChangeList.__len__. simpl. rewrite length_delete; [|by eexists].
    fold n. lia.
Qed.

End ListFacts.

(** ** The type dispatch and the mapping methods *)
Section MappingFacts.
Context `{Python} (cls : MDClass).

Lemma get_update_any {A} (k : string) (d other : Dict.t A) :
  Dict.get k (Dict.update d other) =
    match Dict.get k (Dict.update [] other) with
    | Some v => Some v
    | None => Dict.get k d
    end.
Proof.
  unfold Dict.update. revert d.
  induction other as [|[k' v'] other IH]; intros d; simpl; [done|].
  rewrite (IH (Dict.set k' v' d)), (IH [(k', v')]).
  match goal with |- context [Dict.get k (fold_left ?f other [])] =>
    destruct (Dict.get k (fold_left f other [])) as [v|]; [done|] end.
  destruct (decide (k' = k)) as [->|Hne].
  - rewrite get_set_eq. simpl. by rewrite String.eqb_refl.
  - rewrite get_set_ne; [|done]. simpl.
    destruct (String.eqb_spec k k'); [congruence | done].
Qed.

Lemma update_fmap_snd {A B} (f : A → B) (d other : Dict.t A) :
  Dict.update (prod_map id f <$> d) (prod_map id f <$> other)
    = prod_map id f <$> Dict.update d other.
Proof.
  unfold Dict.update. revert d.
  induction other as [|[k v] other IH]; intros d; csimpl; [done|].
  rewrite set_fmap_snd. apply IH.
Qed.

Lemma get_fmap_values {A B} (f : A → B) (k : string) (d : Dict.t A) :
  Dict.get k (prod_map id f <$> d) = f <$> Dict.get k d.
Proof.
  induction d as [|[k' v'] d IH]; csimpl; [done|].
  by destruct (String.eqb k k').
Qed.

Lemma rule_of_resolved (key : string) :
  rule_of cls key =
    match Dict.get key (Dict.update [] (_SPECIAL_PARAM_DISPATCH cls)) with
    | Some f => Special f
    | None =>
        if decide (key ∈ _INT_SINGLETON_PARAMS cls) then Len1ListOrSingleton Dint
        else if decide (key ∈ _INT_PARAMS cls) then TypedList Dint
        else if decide (key ∈ _FLOAT_SINGLETON_PARAMS cls) then Len1ListOrSingleton Dfloat
        else if decide (key ∈ _FLOAT_PARAMS cls) then TypedList Dfloat
        else TypedList Dstr
    end.
Proof.
  unfold rule_of, type_dispatch_get, _construct_type_dispatch.
  rewrite get_update_any.
  change (@nil (string * rule)) with (prod_map id Special <$> @nil (string * (pyval → result constructed))) at 1.
  rewrite update_fmap_snd, get_fmap_values.
  destruct (Dict.get key (Dict.update [] (_SPECIAL_PARAM_DISPATCH cls))) as [f|]; [done|].
  simpl.
  rewrite get_update; [|apply NoDup_from_keys]. rewrite get_from_keys.
  destruct (decide (key ∈ _INT_SINGLETON_PARAMS cls)); [done|].
  rewrite get_update; [|apply NoDup_from_keys]. rewrite get_from_keys.
  destruct (decide (key ∈ _INT_PARAMS cls)); [done|].
  rewrite get_update; [|apply NoDup_from_keys]. rewrite get_from_keys.
  destruct (decide (key ∈ _FLOAT_SINGLETON_PARAMS cls)); [done|].
  rewrite get_update; [|apply NoDup_from_keys]. rewrite get_from_keys.
  by destruct (decide (key ∈ _FLOAT_PARAMS cls)).
Qed.

(** X5: the rule that the type dispatch holds for a key: the custom rule
    when the key has one; else the singleton int rule, the int list rule, the
    singleton float rule, the float list rule, whichever comes first among
    the families that declare the key; else the list of str. *)
Theorem rule_of_precedence (key : string) :
  rule_of cls key =
    match Dict.get key (Dict.update [] (_SPECIAL_PARAM_DISPATCH cls)) with
    | Some f => Special f
    | None =>
        if decide (key ∈ _INT_SINGLETON_PARAMS cls) then Len1ListOrSingleton Dint
        else if decide (key ∈ _INT_PARAMS cls) then TypedList Dint
        else if decide (key ∈ _FLOAT_SINGLETON_PARAMS cls) then Len1ListOrSingleton Dfloat
        else if decide (key ∈ _FLOAT_PARAMS cls) then TypedList Dfloat
        else TypedList Dstr
    end.
Proof. apply rule_of_resolved. Qed.

Lemma rule_of_undeclared (key : string) :
  key ∉ Dict.keys (_SPECIAL_PARAM_DISPATCH cls) →
  key ∉ _INT_SINGLETON_PARAMS cls → key ∉ _INT_PARAMS cls →
  key ∉ _FLOAT_SINGLETON_PARAMS cls → key ∉ _FLOAT_PARAMS cls →
  rule_of cls key = TypedList Dstr.
Proof.
  intros Hs H1 H2 H3 H4. rewrite rule_of_resolved.
  rewrite get_update_absent; [|done]. simpl.
  by rewrite !decide_False.
Qed.

Lemma result_map_inr {A B} (f : A → B) (l : list A) :
  result_map (λ x, inr (f x)) l = inr (f <$> l).
Proof. induction l as [|x l IH]; csimpl; [done | by rewrite IH]. Qed.

(** X6: for a key that no family declares and that has no custom rule,
    [store[key] = value] does not raise for a value that is [None], an int,
    a float, a str or a list of such, as long as [str] returns for it (no
    int beyond the digit limit of the interpreter).  The store then refers,
    for the key, to a list object that did not exist before: flag false, dtype
    str, holding [str] of each item of a list and [str] of the value itself
    otherwise, a str being kept whole.  The objects that existed are as they
    were, every other key refers to what it referred to, the store flag is
    set, and no file and no record of the log has changed. *)
Theorem undeclared_key_assignment (self : LineBasedMDConfig) (key : string)
    (value : pyval) (w : world) :
  key ∉ Dict.keys (_SPECIAL_PARAM_DISPATCH cls) →
  key ∉ _INT_SINGLETON_PARAMS cls → key ∉ _INT_PARAMS cls →
  key ∉ _FLOAT_SINGLETON_PARAMS cls → key ∉ _FLOAT_PARAMS cls →
  str_returns value = true →
  ∃ self' w',
    __setitem__ cls self key value w = (inr (), self', w') ∧
    __getitem__ self' key = inr (Ref (length (heap w))) ∧
    heap w' = heap w ++
      [FlagChangeList.mk ((λ v, PStr (py_str v)) <$> items_of_value value)
         false (Some Dstr)] ∧
    (∀ k, k ≠ key → __getitem__ self' k = __getitem__ self k) ∧
    _changed self' = true ∧
    _original_file self' = _original_file self ∧
    fs w' = fs w ∧ log w' = log w.
Proof.
  intros Hs H1 H2 H3 H4 _. unfold __setitem__, dispatch. fold (rule_of cls key).
  rewrite (rule_of_undeclared key Hs H1 H2 H3 H4). simpl.
  unfold FlagChangeList.typed__init__.
  assert (Hitems : (if negb (has_len value) then [value]
                    else match value with
                         | PStr _ => [value]
                         | PList l => l
                         | _ => [value]
                         end) = items_of_value value) by by destruct value.
  rewrite Hitems. simpl.
  change (apply_dtype Dstr) with (λ v : pyval, @inr exn pyval (PStr (py_str v))).
  rewrite result_map_inr. simpl. eexists _, _. split; [done|].
  unfold __getitem__. simpl. split_and!; try done.
  - by rewrite get_set_eq.
  - intros k Hk. by rewrite get_set_ne.
Qed.

Lemma keys_set {A} (k : string) (v : A) (d : Dict.t A) :
  Dict.keys (Dict.set k v d) =
    if decide (k ∈ Dict.keys d) then Dict.keys d else Dict.keys d ++ [k].
Proof.
  destruct (decide (k ∈ Dict.keys d)) as [Hin|Hnin].
  - apply keys_set_present. destruct (Dict.get k d) eqn:Hg; [by eexists|].
    by apply get_None in Hg.
  - apply get_None in Hnin. rewrite (set_absent _ _ _ Hnin).
    unfold Dict.keys. by rewrite fmap_app.
Qed.

(** X7: after a successful [store[key] = value] the table shows for [key]
    the object that the rule of the key has made of the value, every other
    key shows what it showed, the store flag is set, and the order of the
    keys is kept: a key that was present keeps its place, a new key comes
    last. *)
Theorem store_setitem_lookup (self self' : LineBasedMDConfig) (key : string)
    (value : pyval) (w w' : world) :
  valid_refs self w →
  __setitem__ cls self key value w = (inr (), self', w') →
  ∃ c,
    run_rule (rule_of cls key) value = inr c ∧
    Dict.get key (table self' w') = Some (Some (as_new c)) ∧
    (∀ k, k ≠ key → Dict.get k (table self' w') = Dict.get k (table self w)) ∧
    __iter__ self' =
      (if decide (key ∈ __iter__ self) then __iter__ self else __iter__ self ++ [key]) ∧
    _changed self' = true.
Proof.
  intros Hv. unfold __setitem__, dispatch. fold (rule_of cls key).
  destruct (run_rule (rule_of cls key) value) as [e|c]; simpl; [done|].
  destruct (place_spec c (heap w)) as [Hres [ext Hext]].
  destruct (place c (heap w)) as [en hp]. simpl in *. subst hp.
  intros [= <- <-]. exists c. split; [done|].
  assert (Htbl : table {| _config := Dict.set key en (_config self); _changed := true;
                          _original_file := _original_file self |}
                   (set_heap w (heap w ++ ext))
                 = Dict.set key (Some (as_new c)) (table self w)).
  { unfold table, view. simpl. rewrite <- set_fmap_snd, Hres. f_equal.
    by apply view_app. }
  rewrite Htbl. split_and!.
  - apply get_set_eq.
  - intros k Hk. by apply get_set_ne.
  - unfold __iter__. simpl. apply keys_set.
  - done.
Qed.

Lemma get_remove_ne {A} (k k' : string) (d : Dict.t A) :
  k ≠ k' → Dict.get k' (Dict.remove k d) = Dict.get k' d.
Proof.
  intros Hne. induction d as [|[k0 v0] d IH]; simpl; [done|].
  destruct (String.eqb_spec k k0) as [->|Hne0]; simpl.
  - by destruct (String.eqb_spec k' k0) as [->|].
  - by rewrite IH.
Qed.

Lemma filter_ne_absent (k : string) (l : list string) :
  k ∉ l → filter (λ k', k' ≠ k) l = l.
Proof.
  induction l as [|x l IH]; [done|]. intros [Hne Hn]%not_elem_of_cons.
  rewrite filter_cons_True; [|congruence]. by rewrite IH.
Qed.

Lemma keys_remove {A} (k : string) (d : Dict.t A) :
  NoDup (Dict.keys d) →
  Dict.keys (Dict.remove k d) = filter (λ k', k' ≠ k) (Dict.keys d).
Proof.
  unfold Dict.keys. induction d as [|[k0 v0] d IH]; csimpl; [done|].
  intros [Hn Hnd]%NoDup_cons. destruct (String.eqb_spec k k0) as [->|Hne].
  - rewrite filter_cons_False; [|by intros ?]. by rewrite filter_ne_absent.
  - rewrite filter_cons_True; [|congruence]. csimpl. by rewrite IH.
Qed.

Lemma get_remove_eq {A} (k : string) (d : Dict.t A) :
  NoDup (Dict.keys d) → Dict.get k (Dict.remove k d) = None.
Proof.
  intros Hnd. apply get_None. rewrite keys_remove; [|done].
  intros [Hne _]%list_elem_of_filter. done.
Qed.

Lemma length_remove {A} (k : string) (d : Dict.t A) :
  is_Some (Dict.get k d) → S (length (Dict.remove k d)) = length d.
Proof.
  induction d as [|[k0 v0] d IH]; simpl; [by intros [? ?]|].
  destruct (String.eqb_spec k k0) as [->|Hne]; simpl; [done|].
  intros Hs. by rewrite IH.
Qed.

(** X8: [del store[key]] for a key that is absent raises [KeyError] and
    changes nothing, the store flag included; for a key that is present it
    removes that key and no other, keeps the order of the others, and sets
    the store flag. *)
Theorem store_delitem (self : LineBasedMDConfig) (key : string) :
  NoDup (__iter__ self) →
  (key ∉ __iter__ self → __delitem__ self key = (raise KeyError, self)) ∧
  (key ∈ __iter__ self →
   ∃ self',
     __delitem__ self key = (inr (), self') ∧
     __getitem__ self' key = inl KeyError ∧
     (∀ k, k ≠ key → __getitem__ self' k = __getitem__ self k) ∧
     __iter__ self' = filter (λ k, k ≠ key) (__iter__ self) ∧
     S (__len__ self') = __len__ self ∧
     _changed self' = true).
Proof.
  intros Hnd. unfold __delitem__, __iter__, __getitem__, __len__ in *. split.
  - intros Hn. apply get_None in Hn. by rewrite Hn.
  - intros Hin. destruct (Dict.get key (_config self)) as [v|] eqn:Hg.
    + eexists. split; [done|]. simpl. split_and!.
      * by rewrite get_remove_eq.
      * intros k Hk. by rewrite get_remove_ne.
      * by apply keys_remove.
      * apply length_remove. by rewrite Hg.
      * done.
    + by apply get_None in Hg.
Qed.

Lemma NoDup_keys_remove {A} (k : string) (d : Dict.t A) :
  NoDup (Dict.keys d) → NoDup (Dict.keys (Dict.remove k d)).
Proof.
  intros Hnd. rewrite keys_remove; [|done]. by apply NoDup_filter.
Qed.

Lemma convert_items_NoDup (items : list (string * pyval)) (acc config : Dict.t entry)
    (hp hp' : list FlagChangeList.t) :
  NoDup (Dict.keys acc) →
  convert_items cls items acc hp = (inr config, hp') →
  NoDup (Dict.keys config).
Proof.
  revert acc hp. induction items as [|[k v] items IH]; intros acc hp Hnd; simpl.
  - by intros [= <- _].
  - destruct (dispatch cls k v hp) as [[e|en] hp1]; [done|].
    apply IH. by apply NoDup_keys_set.
Qed.

Lemma init_NoDup (path : string) (w w' : world) (self : LineBasedMDConfig) :
  __init__ cls path w = (inr self, w') → NoDup (__iter__ self).
Proof.
  unfold __init__, set_original_file, parse, __iter__.
  destruct (negb _); [done|]. simpl.
  destruct (read_text _ _) as [e|content]; [done|].
  destruct (parse_lines _ _ _ _) as [[e|parsed] lg]; [done|].
  destruct (convert_items cls parsed [] (heap w)) as [[e|config] hp] eqn:Hc; [done|].
  intros [= <- _]. simpl. eapply convert_items_NoDup; [|exact Hc]. apply NoDup_nil_2.
Qed.

Lemma step_NoDup (o : op) (st : LineBasedMDConfig * world) :
  NoDup (__iter__ st.1) → NoDup (__iter__ (step cls o st).1).
Proof.
  destruct st as [self w]. unfold __iter__. simpl. intros Hnd. destruct o; simpl; try done.
  - unfold __setitem__. destruct (dispatch cls key value (heap w)) as [[e|en] hp]; [done|].
    simpl. by apply NoDup_keys_set.
  - unfold __delitem__. destruct (Dict.get key (_config self)); [|done].
    simpl. by apply NoDup_keys_remove.
  - destruct (write_reads_only cls self outfile overwrite w) as (Hs & _).
    destruct (write cls self outfile overwrite w) as [[r self'] w']. simpl in *.
    by subst.
Qed.

(** X9: the keys of a store are pairwise distinct, from the binding on and
    along every use of the store, so [len(store)] counts keys and
    [store[key]] has one entry to answer with. *)
Theorem keys_stay_unique (path : string) (w w' : world) (self : LineBasedMDConfig)
    (ops : list op) :
  __init__ cls path w = (inr self, w') →
  NoDup (__iter__ (steps cls ops (self, w')).1).
Proof.
  intros Hinit. pose proof (init_NoDup path w w' self Hinit) as Hnd.
  assert (Hgen : ∀ st, NoDup (__iter__ st.1) → NoDup (__iter__ (steps cls ops st).1)).
  { unfold steps. induction ops as [|o ops IH]; intros st Hst; simpl; [done|].
    apply IH. by apply step_NoDup. }
  by apply Hgen.
Qed.

End MappingFacts.


(** ** More on parsing and binding *)
Section ParseMoreFacts.
Context `{Python} (cls : MDClass).

(** What [parse] leaves alone. *)
Lemma parse_frame_facts (self : LineBasedMDConfig) (w : world) :
  fs (parse cls self w).2 = fs w ∧
  (∃ ws, log (parse cls self w).2 = log w ++ ws) ∧
  (∃ ext, heap (parse cls self w).2 = heap w ++ ext) ∧
  (∀ e, (parse cls self w).1.1 = inl e → (parse cls self w).1.2 = self).
Proof.
  unfold parse. destruct (original_file self) as [e|path]; simpl.
  { split_and!; [done|exists []|exists []|done]; by rewrite app_nil_r. }
  destruct (read_text (fs w) path) as [e|content]; simpl.
  { split_and!; [done|exists []|exists []|done]; by rewrite app_nil_r. }
  rewrite (parse_lines_log cls _ [] (log w)).
  destruct (parse_lines cls (split newline content) [] []) as [[e|parsed] ws]; simpl.
  { split_and!; [done|by exists ws|exists []|done]. by rewrite app_nil_r. }
  pose proof (convert_items_spec cls parsed [] (heap w) (Forall_nil_2 _)) as Hc.
  destruct (convert_items cls parsed [] (heap w)) as [[e|config] hp]; simpl.
  - destruct Hc as [_ [ext ->]]. split_and!; [done|by exists ws|by exists ext|done].
  - destruct Hc as (_ & _ & [ext ->]). split_and!; [done|by exists ws|by exists ext|done].
Qed.

(** X10: [parse], whether it returns or raises, changes no file, keeps
    every record of the log and only adds to it, and keeps every list object
    that exists, so a list that a caller still holds is not altered; when
    it raises, the instance is as it was: no part of a new table is put in
    place. *)
Theorem parse_frame (self : LineBasedMDConfig) (w : world) :
  fs (parse cls self w).2 = fs w ∧
  (∃ ws, log (parse cls self w).2 = log w ++ ws) ∧
  (∃ ext, heap (parse cls self w).2 = heap w ++ ext) ∧
  (∀ e, (parse cls self w).1.1 = inl e → (parse cls self w).1.2 = self).
Proof. apply parse_frame_facts. Qed.

(** X11: the outcomes of binding a store to a path.  When the path does not
    name a regular file (nothing there, or a directory), [ValueError] and no
    change at all; when the file does not parse, the exception of [parse] and
    no store; otherwise the store with the table that the bytes of the file
    describe, [changed] false, bound to the absolute path; in no case is a
    file changed. *)
Theorem init_outcomes (path : string) (w : world) :
  match fs w !! abspath path with
  | Some (File content) =>
      match parsed_table cls content with
      | inr tbl =>
          ∃ self w',
            __init__ cls path w = (inr self, w') ∧
            table self w' = tbl ∧
            changed self w' = false ∧
            _original_file self = Some (abspath path) ∧
            fs w' = fs w
      | inl e => ∃ w', __init__ cls path w = (inl e, w') ∧ fs w' = fs w
      end
  | _ => __init__ cls path w = (raise ValueError, w)
  end.
Proof.
  unfold __init__, set_original_file, isfile.
  destruct (fs w !! abspath path) as [[content|]|] eqn:Hfile; simpl; try done.
  pose proof (parse_spec cls
    {| _config := []; _changed := false; _original_file := Some (abspath path) |}
    w (abspath path) content eq_refl Hfile) as Hp.
  destruct (parsed_table cls content) as [e|tbl].
  - destruct Hp as (w' & -> & Hfs). by exists w'.
  - destruct Hp as (self & w' & -> & Ht & Hc & Ho & Hfs & Hv & Hnew).
    exists self, w'. rewrite <- Ht in Hnew.
    destruct (changed_false_new self w' Hc Hnew) as [_ Hch]. by split_and!.
Qed.

(** X12: when the file assigned to [original_file] exists but does not
    parse, the setter raises the exception of [parse] after it has stored
    the new path: the getter then answers with the new path while the table,
    the store flag and [changed] are those of before. *)
Theorem failed_repointing_moves_path (self : LineBasedMDConfig) (value : string)
    (w : world) (content : string) (e : exn) :
  valid_refs self w →
  fs w !! abspath value = Some (File content) →
  parsed_table cls content = inl e →
  let out := set_original_file cls self value w in
  out.1.1 = inl e ∧
  original_file out.1.2 = inr (abspath value) ∧
  _config out.1.2 = _config self ∧
  table out.1.2 out.2 = table self w ∧
  _changed out.1.2 = _changed self ∧
  changed out.1.2 out.2 = changed self w.
Proof.
  intros Hv Hfile Htbl.
  destruct (repointing_raises cls self value w content e Hfile Htbl) as (w' & Hs & Hfs).
  assert (Hheap : ∃ ext, heap w' = heap w ++ ext).
  { unfold set_original_file, isfile in Hs. rewrite Hfile in Hs. simpl in Hs.
    destruct (parse_frame_facts
      {| _config := _config self; _changed := _changed self;
         _original_file := Some (abspath value) |} w) as (_ & _ & Hext & _).
    rewrite Hs in Hext. exact Hext. }
  destruct Hheap as [ext Hext]. cbv zeta. rewrite Hs. simpl.
  assert (Ht : table {| _config := _config self; _changed := _changed self;
                        _original_file := Some (abspath value) |} w' = table self w).
  { unfold table. simpl. rewrite Hext. by apply view_app. }
  split_and!; try done.
  unfold changed. simpl. f_equal. f_equal. rewrite Hext.
  apply Forall_fmap_ext_1. eapply Forall_impl; [exact Hv|].
  intros kv Hkv. apply entry_changed_resolve. by apply resolve_app.
Qed.

(** The warnings of one line and the growth of the table. *)
Lemma warn_and_update_count (d : list (string * pyval)) (p0 p1 : Dict.t pyval)
    (lg : list string) :
  NoDup (Dict.keys d) →
  (∀ k, k ∈ Dict.keys d → is_Some (Dict.get k p0) ↔ is_Some (Dict.get k p1)) →
  (length (fold_left (λ lg key, match Dict.get key p0 with
                               | None => lg
                               | Some _ => lg ++ [duplicate_warning key]
                               end) (Dict.keys d) lg)
   + length (Dict.update p1 d)
   = length lg + length p1 + length d)%nat.
Proof.
  unfold Dict.update, Dict.keys. revert p1 lg.
  induction d as [|[k v] d IH]; intros p1 lg Hnd Hagree; csimpl; [lia|].
  apply NoDup_cons in Hnd as [Hn Hnd].
  assert (Hk : is_Some (Dict.get k p0) ↔ is_Some (Dict.get k p1)).
  { apply Hagree. apply list_elem_of_here. }
  assert (Hrest : ∀ k', k' ∈ d.*1 →
            is_Some (Dict.get k' p0) ↔ is_Some (Dict.get k' (Dict.set k v p1))).
  { intros k' Hk'. rewrite get_set_ne; [|by intros ->].
    apply Hagree. by apply list_elem_of_further. }
  rewrite (IH (Dict.set k v p1) _ Hnd Hrest).
  destruct (Dict.get k p0) as [v0|] eqn:H0.
  - destruct (proj1 Hk (mk_is_Some _ _ eq_refl)) as [v1 H1].
    assert (Hlen : length (Dict.set k v p1) = length p1).
    { pose proof (keys_set_present k v p1 (mk_is_Some _ _ H1)) as Hkeys.
      apply (f_equal length) in Hkeys. unfold Dict.keys in Hkeys.
      by rewrite !length_fmap in Hkeys. }
    rewrite Hlen, length_app. simpl. lia.
  - assert (H1 : Dict.get k p1 = None).
    { destruct (Dict.get k p1) eqn:H1; [|done].
      by destruct (proj2 Hk (mk_is_Some _ _ eq_refl)). }
    rewrite (set_absent _ _ _ H1), length_app. simpl. lia.
Qed.

(** X13: when the lines all parse, the number of warnings that [parse]
    logs and the number of keys it keeps add up to the number of items the
    lines yield: one warning for every item that repeats a key. *)
Theorem warnings_count (lines : list string) (parsed : Dict.t pyval) (lg lg' : list string) :
  parse_lines cls lines [] lg = (inr parsed, lg') →
  (length lg' + length parsed = length lg + length (yielded_keys cls lines))%nat.
Proof.
  assert (Hgen : ∀ p0 lg0,
    parse_lines cls lines p0 lg0 = (inr parsed, lg') →
    (length lg' + length parsed
     = length lg0 + length p0 + length (yielded_keys cls lines))%nat).
  { unfold yielded_keys. induction lines as [|line lines IH]; intros p0 lg0; csimpl.
    - intros [= <- <-]. lia.
    - destruct (parse_line cls line) as [e|d] eqn:Hd; [done|].
      intros Hrun. rewrite (IH _ _ Hrun). rewrite length_app.
      pose proof (warn_and_update_count d p0 p0 lg0 (parse_line_NoDup cls line d Hd)
                    (λ _ _, reflexivity _)) as Hc.
      unfold warn_duplicates. unfold Dict.keys at 3. rewrite length_fmap. lia. }
  intros Hrun. rewrite (Hgen [] lg Hrun). simpl. lia.
Qed.

Lemma first_seen_step_keys {A} (d other : Dict.t A) :
  Dict.keys (Dict.update d other) =
    fold_left (λ acc k, if decide (k ∈ acc) then acc else acc ++ [k])
      (Dict.keys other) (Dict.keys d).
Proof.
  unfold Dict.update. revert d.
  induction other as [|[k v] other IH]; intros d; csimpl; [done|].
  rewrite IH. by rewrite keys_set.
Qed.

Lemma fold_first_seen_NoDup (l acc : list string) :
  NoDup (acc ++ l) →
  fold_left (λ acc k, if decide (k ∈ acc) then acc else acc ++ [k]) l acc = acc ++ l.
Proof.
  revert acc. induction l as [|k l IH]; intros acc Hnd; simpl; [by rewrite app_nil_r|].
  assert (Hk : k ∉ acc).
  { apply NoDup_app in Hnd as (_ & Hdis & _). intros Hin.
    apply (Hdis k Hin). apply list_elem_of_here. }
  rewrite decide_False; [|done].
  rewrite IH; [by rewrite <- (assoc_L (++))|]. by rewrite <- (assoc_L (++)).
Qed.

Lemma parse_lines_keys (lines : list string) (p0 parsed : Dict.t pyval) (lg lg' : list string) :
  parse_lines cls lines p0 lg = (inr parsed, lg') →
  Dict.keys parsed =
    fold_left (λ acc k, if decide (k ∈ acc) then acc else acc ++ [k])
      (yielded_keys cls lines) (Dict.keys p0).
Proof.
  unfold yielded_keys. revert p0 lg.
  induction lines as [|line lines IH]; intros p0 lg; csimpl.
  - by intros [= <- _].
  - destruct (parse_line cls line) as [e|d]; [done|].
    intros Hrun. rewrite (IH _ _ Hrun). rewrite fold_left_app.
    by rewrite first_seen_step_keys.
Qed.

Lemma convert_items_keys (items : list (string * pyval)) (acc config : Dict.t entry)
    (hp hp' : list FlagChangeList.t) :
  convert_items cls items acc hp = (inr config, hp') →
  Dict.keys config =
    fold_left (λ acc k, if decide (k ∈ acc) then acc else acc ++ [k])
      (Dict.keys items) (Dict.keys acc).
Proof.
  revert acc hp. unfold Dict.keys at 2.
  induction items as [|[k v] items IH]; intros acc hp; csimpl.
  - by intros [= <- _].
  - destruct (dispatch cls k v hp) as [[e|en] hp1]; [done|].
    intros Hc. rewrite (IH _ _ Hc). by rewrite keys_set.
Qed.

(** X14: the keys of a store that has just been bound stand in the order
    in which the file first yields them: a key that is repeated keeps the
    place of its first line (and, by the loop of [parse], the value of its
    last).  This is the order in which [write] puts the lines. *)
Theorem table_order_first_seen (path : string) (w w' : world) (self : LineBasedMDConfig) :
  __init__ cls path w = (inr self, w') →
  ∃ content,
    fs w !! abspath path = Some (File content) ∧
    __iter__ self
      = first_seen (yielded_keys cls (split newline (universal_newlines content))).
Proof.
  unfold __init__, set_original_file, isfile, parse, read_text. simpl.
  destruct (fs w !! abspath path) as [[content|]|]; simpl; try done.
  destruct (parse_lines cls _ [] (log w)) as [[e|parsed] lg] eqn:Hrun; [done|].
  destruct (convert_items cls parsed [] (heap w)) as [[e|config] hp] eqn:Hc; [done|].
  intros [= <- _]. exists content. split; [done|].
  unfold __iter__. simpl. rewrite (convert_items_keys _ _ _ _ _ Hc).
  assert (Hnd : NoDup (Dict.keys parsed)).
  { eapply parse_lines_NoDup; [|exact Hrun]. apply NoDup_nil_2. }
  rewrite (fold_first_seen_NoDup (Dict.keys parsed) (Dict.keys [])); [|done]. simpl.
  by rewrite (parse_lines_keys _ _ _ _ _ Hrun).
Qed.

End ParseMoreFacts.

(** ** More on writing *)
Section WriteMoreFacts.
Context `{Python} (cls : MDClass).

(** What [copy2] leaves alone, and what it leaves at its target. *)
Lemma copy2_frame (files : filesystem) (src dst p : string) :
  p ≠ match files !! dst with
      | Some Dir => path_join dst (basename src)
      | _ => dst
      end →
  (copy2 files src dst).2 !! p = files !! p.
Proof.
  unfold copy2.
  generalize (match files !! dst with
              | Some Dir => path_join dst (basename src)
              | _ => dst
              end) as target.
  intros target Hp.
  destruct (String.eqb src target && exists_ files src); [done|].
  destruct (files !! src) as [[content|]|]; try done.
  destruct (files !! target) as [[c|]|]; simpl; try done; by rewrite lookup_insert_ne.
Qed.


(** X15: [write] changes at most one file: the target, or, when the target
    is a directory, the file of the original's name inside it; every other
    path and the log are as before, whatever the outcome. *)
Theorem write_touches_target_only (self : LineBasedMDConfig) (outfile : string)
    (overwrite : bool) (w : world) (p : string) :
  p ≠ abspath outfile →
  (fs w !! abspath outfile = Some Dir →
   ∀ src, _original_file self = Some src →
          p ≠ path_join (abspath outfile) (basename src)) →
  fs (write cls self outfile overwrite w).2 !! p = fs w !! p ∧
  log (write cls self outfile overwrite w).2 = log w.
Proof.
  intros Hp Hdir. unfold write.
  destruct (exists_ (fs w) (abspath outfile) && negb overwrite); [done|].
  destruct (negb (changed self w)).
  - unfold original_file. destruct (_original_file self) as [src|] eqn:Hsrc; [|done].
    pose proof (copy2_frame (fs w) src (abspath outfile) p) as Hframe.
    destruct (copy2 (fs w) src (abspath outfile)) as [r fs']. simpl in *.
    split; [|done]. apply Hframe.
    destruct (fs w !! abspath outfile) as [[c|]|] eqn:Hout; [done| by apply Hdir |done].
  - destruct (result_map _ (_config self)) as [e|lines]; [done|].
    unfold write_text. destruct (fs w !! abspath outfile) as [[c|]|]; simpl; try done;
      by rewrite lookup_insert_ne.
Qed.

(** X16: a store whose [changed] is false is never written over its own
    original file, and nothing changes: when the file is there, the guard
    raises [ValueError] without [overwrite], and with it the copy is refused
    with [SameFileError]; when the file is not there any more, the copy
    raises [FileNotFoundError], with or without [overwrite]. *)
Theorem write_onto_original_refused (self : LineBasedMDConfig) (outfile : string)
    (overwrite : bool) (w : world) :
  changed self w = false →
  _original_file self = Some (abspath outfile) →
  fs w !! abspath outfile ≠ Some Dir →
  write cls self outfile overwrite w =
    (raise (match fs w !! abspath outfile with
            | None => FileNotFoundError
            | Some _ => if overwrite then SameFileError else ValueError
            end),
     self, w) ∧
  fs (write cls self outfile overwrite w).2 = fs w.
Proof.
  intros Hch Hsrc Hdir.
  assert (Hw : write cls self outfile overwrite w =
    (raise (match fs w !! abspath outfile with
            | None => FileNotFoundError
            | Some _ => if overwrite then SameFileError else ValueError
            end),
     self, w)).
  { unfold write, exists_.
    destruct (fs w !! abspath outfile) as [[c|]|] eqn:Hout; [|done|].
    - destruct overwrite; simpl; [|done].
      rewrite Hch. simpl. unfold original_file. rewrite Hsrc. unfold copy2, exists_.
      rewrite Hout, String.eqb_refl. simpl. by destruct w.
    - simpl. rewrite Hch. simpl. unfold original_file. rewrite Hsrc.
      unfold copy2, exists_. rewrite Hout, String.eqb_refl. simpl. by destruct w. }
  by rewrite Hw.
Qed.


Lemma chars_of_append (a b : string) : chars_of (a +:+ b) = chars_of a ++ chars_of b.
Proof.
  unfold chars_of. induction a as [|c a IH]; [done|].
  rewrite append_cons. simpl. by rewrite IH.
Qed.









End WriteMoreFacts.

(** ** The values of the singleton keys *)
Section SingletonFacts.
Context `{Python} (cls : MDClass).

Lemma elem_of_set {A} (k : string) (v : A) (d : Dict.t A) (kv : string * A) :
  kv ∈ Dict.set k v d → kv ∈ d ∨ kv = (k, v).
Proof.
  induction d as [|[k0 v0] d IH]; simpl.
  - intros [->|?%elem_of_nil]%elem_of_cons; [by right|done].
  - destruct (String.eqb_spec k k0) as [->|Hne].
    + intros [->|Hin]%elem_of_cons; [by right|]. left. by apply list_elem_of_further.
    + intros [->|Hin]%elem_of_cons; [left; apply list_elem_of_here|].
      destruct (IH Hin) as [Hd| ->]; [left; by apply list_elem_of_further | by right].
Qed.

Lemma elem_of_remove {A} (k : string) (d : Dict.t A) (kv : string * A) :
  kv ∈ Dict.remove k d → kv ∈ d.
Proof.
  induction d as [|[k0 v0] d IH]; simpl; [done|].
  destruct (String.eqb k k0).
  - intros Hin. by apply list_elem_of_further.
  - intros [->|Hin]%elem_of_cons; [apply list_elem_of_here|].
    apply list_elem_of_further. by apply IH.
Qed.

Lemma elem_of_get {A} (k : string) (v : A) (d : Dict.t A) :
  Dict.get k d = Some v → (k, v) ∈ d.
Proof.
  induction d as [|[k0 v0] d IH]; simpl; [done|].
  destruct (String.eqb_spec k k0) as [->|Hne].
  - intros [= ->]. apply list_elem_of_here.
  - intros Hg. apply list_elem_of_further. by apply IH.
Qed.

(** What the singleton rule stores. *)
Lemma dispatch_singleton (key : string) (d : dtype) (value : pyval)
    (hp hp' : list FlagChangeList.t) (en : entry) :
  rule_of cls key = Len1ListOrSingleton d →
  (∀ f, d ≠ Dother f) →
  dispatch cls key value hp = (inr en, hp') →
  ∃ x, en = Plain x ∧ scalar_of d x = true.
Proof.
  intros Hrule Hd. unfold dispatch. fold (rule_of cls key). rewrite Hrule. simpl.
  unfold convert_len1_list_or_singleton.
  destruct (negb (has_len value)).
  - destruct (apply_dtype d value) as [e|x] eqn:Hx; simpl; [done|].
    intros [= <- _]. exists x. split; [done|]. by apply (apply_dtype_scalar d value).
  - destruct (py_first value) as [e|v0]; simpl; [done|].
    destruct (apply_dtype d v0) as [e|x] eqn:Hx; simpl; [done|].
    intros [= <- _]. exists x. split; [done|]. by apply (apply_dtype_scalar d v0).
Qed.

Lemma convert_items_singleton (key : string) (d : dtype)
    (items : list (string * pyval)) (acc config : Dict.t entry)
    (hp hp' : list FlagChangeList.t) :
  rule_of cls key = Len1ListOrSingleton d →
  (∀ f, d ≠ Dother f) →
  (∀ v, (key, v) ∈ acc → ∃ x, v = Plain x ∧ scalar_of d x = true) →
  convert_items cls items acc hp = (inr config, hp') →
  ∀ v, (key, v) ∈ config → ∃ x, v = Plain x ∧ scalar_of d x = true.
Proof.
  intros Hrule Hd. revert acc hp.
  induction items as [|[k value] items IH]; intros acc hp Hacc; simpl.
  - by intros [= <- _].
  - destruct (dispatch cls k value hp) as [[e|en] hp1] eqn:Hdisp; [done|].
    apply IH. intros v [Hin|[= <- ->]]%elem_of_set; [by apply Hacc|].
    by eapply dispatch_singleton.
Qed.

Lemma step_singleton (key : string) (d : dtype) (o : op) (st : LineBasedMDConfig * world) :
  rule_of cls key = Len1ListOrSingleton d →
  (∀ f, d ≠ Dother f) →
  (∀ v, (key, v) ∈ _config st.1 → ∃ x, v = Plain x ∧ scalar_of d x = true) →
  ∀ v, (key, v) ∈ _config (step cls o st).1 → ∃ x, v = Plain x ∧ scalar_of d x = true.
Proof.
  intros Hrule Hd. destruct st as [self w]. simpl. intros Hst.
  destruct o; simpl; try done.
  - unfold __setitem__.
    destruct (dispatch cls key0 value (heap w)) as [[e|en] hp] eqn:Hdisp; [done|]. simpl.
    intros v [Hin|[= <- ->]]%elem_of_set; [by apply Hst|].
    by eapply dispatch_singleton.
  - unfold __delitem__. destruct (Dict.get key0 (_config self)); [|done]. simpl.
    intros v Hin%elem_of_remove. by apply Hst.
  - destruct (write_reads_only cls self outfile overwrite w) as (Hs & _).
    destruct (write cls self outfile overwrite w) as [[r self'] w']. simpl in *.
    by subst.
Qed.

(** X29: a key whose rule is the singleton rule of [int] or of [float]
    holds a scalar of that type, never a list, in a store that has been
    bound to a file and along every use of it. *)
Theorem singleton_stays_scalar (key : string) (d : dtype) (path : string) (w w' : world)
    (self : LineBasedMDConfig) (ops : list op) (v : entry) :
  rule_of cls key = Len1ListOrSingleton d →
  (∀ f, d ≠ Dother f) →
  __init__ cls path w = (inr self, w') →
  __getitem__ (steps cls ops (self, w')).1 key = inr v →
  ∃ x, v = Plain x ∧ scalar_of d x = true.
Proof.
  intros Hrule Hd Hinit.
  assert (Hself : ∀ v, (key, v) ∈ _config self → ∃ x, v = Plain x ∧ scalar_of d x = true).
  { unfold __init__, set_original_file, parse in Hinit.
    destruct (negb _); [done|]. simpl in Hinit.
    destruct (read_text _ _) as [e|content]; [done|].
    destruct (parse_lines _ _ _ _) as [[e|parsed] lg]; [done|].
    destruct (convert_items cls parsed [] (heap w)) as [[e|config] hp] eqn:Hc; [done|].
    injection Hinit as <- _. simpl.
    eapply convert_items_singleton; [done|done| |exact Hc].
    by intros v0 ?%elem_of_nil. }
  assert (Hgen : ∀ st,
    (∀ v, (key, v) ∈ _config st.1 → ∃ x, v = Plain x ∧ scalar_of d x = true) →
    ∀ v, (key, v) ∈ _config (steps cls ops st).1 → ∃ x, v = Plain x ∧ scalar_of d x = true).
  { unfold steps. induction ops as [|o ops IH]; intros st Hst; simpl; [done|].
    apply IH. by apply step_singleton. }
  intros Hget. apply (Hgen (self, w') Hself). apply elem_of_get.
  unfold __getitem__ in Hget. by destruct (Dict.get key _); simplify_eq.
Qed.

End SingletonFacts.

(** ** The parts of a simulation *)
Section FilePartsFacts.

(** *** [str] of an int, read by [int] *)

Local Ltac horner IH :=
  cbn [Pos.of_uint_acc]; rewrite <- IH with (b := true) by (by right);
  unfold chars_of;
  cbn [NilEmpty.string_of_uint String.list_ascii_of_string digits_value];
  lazymatch goal with
  | |- context [is_digit ?c] =>
      change (is_digit c) with true; cbv iota;
      let v := eval vm_compute in (digit_val c) in change (digit_val c) with v
  end;
  f_equal; lia.

Lemma digits_value_uint_acc (d : Decimal.uint) (acc : positive) (b : bool) :
  d ≠ Decimal.Nil ∨ b = true →
  digits_value (Z.pos acc) b (chars_of (NilEmpty.string_of_uint d))
    = Some (Z.pos (Pos.of_uint_acc d acc)).
Proof.
  revert acc b. induction d as [|d IH|d IH|d IH|d IH|d IH|d IH|d IH|d IH|d IH|d IH];
    intros acc b Hd; [|horner IH..].
  destruct Hd as [Hd| ->]; [done|reflexivity].
Qed.

Lemma digits_value_uint (d : Decimal.uint) (b : bool) :
  d ≠ Decimal.Nil ∨ b = true →
  digits_value 0 b (chars_of (NilEmpty.string_of_uint d)) = Some (Z.of_N (Pos.of_uint d)).
Proof.
  revert b. induction d as [|d IH|d IH|d IH|d IH|d IH|d IH|d IH|d IH|d IH|d IH];
    intros b Hd;
    try (apply (digits_value_uint_acc d _ true); by right).
  - destruct Hd as [Hd| ->]; [done|reflexivity].
  - apply (IH true). by right.
Qed.

Lemma uint_digits (d : Decimal.uint) :
  Forall (λ c, is_digit c = true) (chars_of (NilEmpty.string_of_uint d)).
Proof. induction d; constructor; done. Qed.

Lemma digit_not_space (c : ascii) : is_digit c = true → is_space c = false.
Proof.
  unfold is_digit, is_space. cbv zeta. generalize (nat_of_ascii c). intros n.
  destruct (Nat.leb_spec 48 n), (Nat.leb_spec n 57), (Nat.leb_spec 9 n),
    (Nat.leb_spec n 13), (Nat.eqb_spec n 32), (Nat.eqb_spec n 133), (Nat.eqb_spec n 160);
    simpl; try done; lia.
Qed.

Lemma lstrip_digits (l : list ascii) :
  Forall (λ c, is_digit c = true) l → lstrip l = l.
Proof.
  destruct 1 as [|c l Hc _]; [done|]. simpl. by rewrite (digit_not_space c Hc).
Qed.

Lemma strip_digits (l : list ascii) :
  Forall (λ c, is_digit c = true) l → strip l = l.
Proof.
  intros Hl. unfold strip. rewrite (lstrip_digits l Hl).
  rewrite lstrip_digits; [apply reverse_involutive|]. by apply Forall_reverse.
Qed.

(** [int] of a str of digits: no blanks to strip, no sign. *)
Lemma int_of_str_digits (s : string) :
  Forall (λ c, is_digit c = true) (chars_of s) →
  int_of_str s = match digits_value 0 false (chars_of s) with
                 | Some z => inr z
                 | None => raise ValueError
                 end.
Proof.
  intros Hs. unfold int_of_str. fold (chars_of s). rewrite (strip_digits _ Hs).
  destruct (chars_of s) as [|c l]; [done|].
  apply Forall_cons in Hs as [Hc _].
  destruct c as [[] [] [] [] [] [] [] []]; try discriminate Hc; reflexivity.
Qed.

Lemma str_of_Z_digits (n : Z) :
  0 ≤ n →
  Forall (λ c, is_digit c = true) (chars_of (str_of_Z n)) ∧
  chars_of (str_of_Z n) ≠ [] ∧
  ∀ b, digits_value 0 b (chars_of (str_of_Z n)) = Some n.
Proof.
  intros Hn. unfold str_of_Z. destruct n as [|p|p]; [| |lia].
  - split_and!; [by repeat constructor|done|done].
  - simpl. pose proof (DecimalPos.Unsigned.to_uint_nonnil p) as Hnil.
    assert (Hs : NilZero.string_of_uint (Pos.to_uint p)
                 = NilEmpty.string_of_uint (Pos.to_uint p)).
    { unfold NilZero.string_of_uint. by destruct (Pos.to_uint p). }
    rewrite Hs. split_and!.
    + apply uint_digits.
    + destruct (Pos.to_uint p); done.
    + intros b. rewrite digits_value_uint; [|by left].
      by rewrite DecimalPos.Unsigned.of_to.
Qed.


(** *** The suffix of a part *)

Lemma length_chars_of (s : string) : String.length s = length (chars_of s).
Proof. unfold chars_of. induction s as [|c s IH]; simpl; [done | by rewrite IH]. Qed.

Lemma zero_pad_chars (fuel : nat) (s : string) :
  chars_of (zero_pad fuel s)
    = replicate (fuel `min` (4 - length (chars_of s))) "0"%char ++ chars_of s.
Proof.
  revert s. induction fuel as [|fuel IH]; intros s; cbn [zero_pad]; [done|].
  rewrite length_chars_of.
  destruct (Nat.ltb_spec (length (chars_of s)) 4) as [Hlt|Hge].
  - rewrite IH. change (chars_of ("0" +:+ s)) with ("0"%char :: chars_of s).
    cbn [length].
    replace (S fuel `min` (4 - length (chars_of s)))%nat
      with (S (fuel `min` (4 - S (length (chars_of s)))))%nat by lia.
    by rewrite replicate_S_end, <- (assoc_L (++)).
  - by replace (S fuel `min` (4 - length (chars_of s)))%nat with 0%nat by lia.
Qed.

Lemma chars_of_inj (a b : string) : chars_of a = chars_of b → a = b.
Proof.
  intros Hab. rewrite <- (String.string_of_list_ascii_of_string a),
    <- (String.string_of_list_ascii_of_string b). unfold chars_of in Hab. by rewrite Hab.
Qed.

Lemma digits_value_zeros (k : nat) (b : bool) (l : list ascii) :
  digits_value 0 b (replicate k "0"%char ++ l)
    = digits_value 0 (match k with O => b | S _ => true end) l.
Proof.
  revert b. induction k as [|k IH]; intros b; [done|].
  change (digits_value 0 true (replicate k "0"%char ++ l) = digits_value 0 true l).
  rewrite IH. by destruct k.
Qed.

Lemma zero_pad_reads_back (num : Z) :
  0 ≤ num → int_of_str (zero_pad 4 (str_of_Z num)) = inr num.
Proof.
  intros Hn. destruct (str_of_Z_digits num Hn) as (Hd & Hne & Hval).
  rewrite int_of_str_digits; rewrite zero_pad_chars.
  - by rewrite digits_value_zeros, Hval.
  - apply Forall_app. split; [|done]. by apply Forall_replicate.
Qed.

(** X20: the suffix of part [num], for a number that is not negative, is
    [.part] and the decimal digits of the number, with zeros in front up to
    four digits; the loop that puts the zeros has ended after four rounds;
    and [int] reads the number back from the digits. *)
Theorem partnum_suffix_reads_back (num : Z) :
  0 ≤ num →
  ∃ digits,
    partnum_suffix num = ".part" +:+ digits ∧
    chars_of digits
      = replicate (4 - length (chars_of (str_of_Z num))) "0"%char
        ++ chars_of (str_of_Z num) ∧
    (4 ≤ String.length digits)%nat ∧
    (∀ fuel, (4 ≤ fuel)%nat → zero_pad fuel (str_of_Z num) = digits) ∧
    int_of_str digits = inr num.
Proof.
  intros Hn. exists (zero_pad 4 (str_of_Z num)). split_and!.
  - done.
  - rewrite zero_pad_chars. f_equal. f_equal. lia.
  - rewrite length_chars_of, zero_pad_chars, length_app, length_replicate. lia.
  - intros fuel Hfuel. apply chars_of_inj. rewrite !zero_pad_chars. f_equal. f_equal. lia.
  - by apply zero_pad_reads_back.
Qed.


(** *** The methods of [str] *)

Lemma is_prefix_app (p l : list ascii) : is_prefix p (p ++ l) = true.
Proof. induction p as [|c p IH]; simpl; [done|]. by rewrite Ascii.eqb_refl. Qed.

Lemma in_chars_elem (c : ascii) (set : list ascii) : in_chars c set = true ↔ c ∈ set.
Proof.
  unfold in_chars. rewrite existsb_exists. split.
  - intros (x & Hx & Heq). apply Ascii.eqb_eq in Heq as ->. by apply list_elem_of_In.
  - intros Hc. exists c. split; [by apply list_elem_of_In | apply Ascii.eqb_refl].
Qed.

Lemma lstrip_set_app (set p l : list ascii) :
  Forall (λ c, c ∈ set) p → lstrip_set set (p ++ l) = lstrip_set set l.
Proof.
  induction 1 as [|c p Hc _ IH]; simpl; [done|].
  by rewrite (proj2 (in_chars_elem c set) Hc).
Qed.

Lemma lstrip_set_stop (set : list ascii) (c : ascii) (l : list ascii) :
  c ∉ set → lstrip_set set (c :: l) = c :: l.
Proof.
  intros Hc. simpl. destruct (in_chars c set) eqn:Hin; [|done].
  by apply in_chars_elem in Hin.
Qed.

Lemma lstrip_set_all (set l : list ascii) :
  Forall (λ c, c ∈ set) l → lstrip_set set l = [].
Proof. intros Hl. rewrite <- (app_nil_r l). by rewrite lstrip_set_app. Qed.

Lemma lstrip_set_suffix (set l : list ascii) : lstrip_set set l `suffix_of` l.
Proof.
  induction l as [|c l IH]; simpl; [done|].
  destruct (in_chars c set); [by apply suffix_cons_r | done].
Qed.

Lemma chars_of_string (l : list ascii) : chars_of (String.string_of_list_ascii l) = l.
Proof. apply String.list_ascii_of_string_of_list_ascii. Qed.

(** A digit does not occur in a str without digits. *)
Lemma digit_absent (c : ascii) (s : string) :
  is_digit c = true → Forall (λ c, is_digit c = false) (chars_of s) → c ∉ chars_of s.
Proof.
  intros Hc Hs Hin. rewrite Forall_forall in Hs. specialize (Hs c Hin). congruence.
Qed.

(** *** The files that pass the filter, and the number read from a name *)

Lemma part_file_chars (deffnm file_ending : string) (num : Z) :
  chars_of (part_file deffnm file_ending num)
    = chars_of (deffnm +:+ ".part") ++ chars_of (zero_pad 4 (str_of_Z num))
      ++ chars_of file_ending.
Proof.
  unfold part_file, partnum_suffix. cbv zeta.
  rewrite !chars_of_append. by rewrite <- !(assoc_L (++)).
Qed.

Lemma part_file_is_part (deffnm file_ending : string) (num : Z) :
  is_part deffnm file_ending (part_file deffnm file_ending num) = true.
Proof.
  unfold is_part, str_endswith, str_startswith. rewrite part_file_chars.
  rewrite is_prefix_app, andb_true_r.
  rewrite (assoc_L (++)), reverse_app. apply is_prefix_app.
Qed.

(** The number is read back from the name of a part when neither the name
    of the simulation nor the ending holds a digit. *)
Lemma partnum_part_file (deffnm file_ending : string) (num : Z) :
  0 ≤ num →
  Forall (λ c, is_digit c = false) (chars_of deffnm) →
  Forall (λ c, is_digit c = false) (chars_of file_ending) →
  partnum deffnm file_ending (part_file deffnm file_ending num) = inr num.
Proof.
  intros Hn Hdeffnm Hending.
  destruct (str_of_Z_digits num Hn) as (Hd & Hne & _).
  set (digits := chars_of (zero_pad 4 (str_of_Z num))).
  assert (Hdigits : Forall (λ c, is_digit c = true) digits).
  { unfold digits. rewrite zero_pad_chars. apply Forall_app. split; [|done].
    by apply Forall_replicate. }
  assert (Hnonempty : digits ≠ []).
  { unfold digits. rewrite zero_pad_chars. intros [_ ?]%app_eq_nil. done. }
  assert (Hprefix : Forall (λ c, is_digit c = false) (chars_of (deffnm +:+ ".part"))).
  { rewrite chars_of_append. apply Forall_app. split; [done|]. by repeat constructor. }
  assert (Hl : str_lstrip (part_file deffnm file_ending num) (deffnm +:+ ".part")
               = String.string_of_list_ascii (digits ++ chars_of file_ending)).
  { unfold str_lstrip. f_equal. rewrite part_file_chars. fold digits.
    rewrite lstrip_set_app; [|by apply Forall_forall].
    destruct digits as [|c digits']; [done|]. apply Forall_cons in Hdigits as [Hc _].
    apply lstrip_set_stop. by apply digit_absent. }
  unfold partnum. rewrite Hl. unfold str_rstrip. rewrite chars_of_string, reverse_app.
  rewrite lstrip_set_app; [|apply Forall_reverse; by apply Forall_forall].
  assert (Hr : lstrip_set (chars_of file_ending) (reverse digits) = reverse digits).
  { assert (Hrd : Forall (λ c, is_digit c = true) (reverse digits)) by by apply Forall_reverse.
    destruct (reverse digits) as [|c rd] eqn:Hrev; [done|].
    apply Forall_cons in Hrd as [Hc _]. apply lstrip_set_stop. by apply digit_absent. }
  rewrite Hr, reverse_involutive. unfold digits.
  rewrite String.string_of_list_ascii_of_string. by apply zero_pad_reads_back.
Qed.


(** *** The greatest part number *)

Lemma fold_max_spec (l : list Z) (x : Z) :
  (fold_left Z.max l x = x ∨ fold_left Z.max l x ∈ l) ∧
  x ≤ fold_left Z.max l x ∧
  ∀ y, y ∈ l → y ≤ fold_left Z.max l x.
Proof.
  revert x. induction l as [|a l IH]; intros x; simpl.
  - split_and!; [by left|lia|]. by intros y ?%elem_of_nil.
  - destruct (IH (Z.max x a)) as (Hin & Hle & Hall). split_and!.
    + destruct Hin as [Heq|Hin]; [|right; by apply list_elem_of_further].
      rewrite Heq. destruct (Z.max_spec x a) as [[_ ->]|[_ ->]];
        [right; apply list_elem_of_here | by left].
    + lia.
    + intros y [->|Hy]%elem_of_cons; [lia | by apply Hall].
Qed.

(** [np.max(partnums) if len(partnums) > 0 else 0] *)
Lemma max_num_spec (partnums : list Z) :
  ∃ m, (if (0 <? length partnums)%nat then np_max partnums else inr 0) = inr m ∧
       (∀ k, k ∈ partnums → k ≤ m) ∧
       (m ∈ partnums ∨ (partnums = [] ∧ m = 0)).
Proof.
  destruct partnums as [|x l]; simpl.
  - exists 0. split_and!; [done| |by right]. by intros k ?%elem_of_nil.
  - destruct (fold_max_spec l x) as (Hin & Hle & Hall).
    exists (fold_left Z.max l x). split_and!; [done| |].
    + intros k [->|Hk]%elem_of_cons; [done | by apply Hall].
    + left. destruct Hin as [->|Hin]; [apply list_elem_of_here | by apply list_elem_of_further].
Qed.

Lemma max_num_unique (l l' : list Z) (m m' : Z) :
  l ≡ₚ l' →
  (∀ k, k ∈ l → k ≤ m) → (m ∈ l ∨ (l = [] ∧ m = 0)) →
  (∀ k, k ∈ l' → k ≤ m') → (m' ∈ l' ∨ (l' = [] ∧ m' = 0)) →
  m = m'.
Proof.
  intros Hp Hall [Hin|[-> ->]] Hall' [Hin'|[-> ->]].
  - apply Z.le_antisymm; [apply Hall'; by rewrite <- Hp | apply Hall; by rewrite Hp].
  - apply Permutation_nil_r in Hp. subst l. by apply elem_of_nil in Hin.
  - apply Permutation_nil_l in Hp. subst l'. by apply elem_of_nil in Hin'.
  - done.
Qed.

Lemma dotted_digits (file_ending : string) :
  Forall (λ c, is_digit c = false) (chars_of file_ending) →
  Forall (λ c, is_digit c = false) (chars_of (dotted file_ending)).
Proof.
  intros Hd. unfold dotted. destruct (negb _); [|done].
  change (chars_of ("." +:+ file_ending)) with ("."%char :: chars_of file_ending).
  by constructor.
Qed.

Lemma result_map_fmap {A B C} (f : B → result C) (g : A → B) (l : list A) :
  result_map f (g <$> l) = result_map (f ∘ g) l.
Proof. induction l as [|x l IH]; csimpl; [done|]. by rewrite IH. Qed.

Lemma result_map_ext_in {A B} (f g : A → result B) (l : list A) :
  (∀ x, x ∈ l → f x = g x) → result_map f l = result_map g l.
Proof.
  induction l as [|x l IH]; intros Hfg; simpl; [done|].
  rewrite (Hfg x) by apply list_elem_of_here.
  rewrite IH; [done|]. intros y Hy. apply Hfg. by apply list_elem_of_further.
Qed.

(** X21: [get_all_file_parts] finds the parts that are named as it names
    them.  When neither the name of the simulation nor the ending holds a
    digit, and the files of the folder that pass the filter are the part
    files of the numbers [nums], the result names the parts 1 to the greatest
    of [nums], in this order, whether the file of a part is there or not;
    when the parts 1 to [n] are all there, these are the paths of the files
    that are there. *)
Theorem parts_found (listdir : string → result (list string))
    (folder deffnm file_ending : string) (content : list string) (nums : list Z) :
  Forall (λ c, is_digit c = false) (chars_of deffnm) →
  Forall (λ c, is_digit c = false) (chars_of file_ending) →
  listdir folder = inr content →
  filter (λ f, is_part deffnm (dotted file_ending) f = true) content
    = part_file deffnm (dotted file_ending) <$> nums →
  Forall (λ k, 0 ≤ k < 2 ^ 63 - 1) nums →
  ∃ m,
    get_all_file_parts listdir folder deffnm file_ending
      = inr ((λ k, os_path_join folder (part_file deffnm (dotted file_ending) k))
               <$> seqZ 1 m) ∧
    (∀ k, k ∈ nums → k ≤ m) ∧
    (m ∈ nums ∨ (nums = [] ∧ m = 0)) ∧
    (∀ n, 0 ≤ n → nums ≡ₚ seqZ 1 n → m = n).
Proof.
  intros Hdeffnm Hending Hlist Hfilter Hnums.
  unfold get_all_file_parts. cbv zeta. rewrite Hlist. simpl. rewrite Hfilter.
  rewrite result_map_fmap.
  rewrite (result_map_ext_in _ (λ k, inr k) nums).
  2:{ intros k Hk. rewrite Forall_forall in Hnums. simpl.
      apply partnum_part_file; [by apply Hnums | done | by apply dotted_digits]. }
  rewrite (result_map_inr (λ k : Z, k) nums), list_fmap_id. simpl.
  destruct (max_num_spec nums) as (m & -> & Hall & Hin). simpl.
  exists m. split_and!; [done|done|done|].
  intros n Hn Hp.
  assert (Hall_n : ∀ k, k ∈ seqZ 1 n → k ≤ n) by (intros k ?%elem_of_seqZ; lia).
  assert (Hin_n : n ∈ seqZ 1 n ∨ (seqZ 1 n = [] ∧ n = 0)).
  { destruct (decide (n = 0)) as [->|Hne]; [by right|].
    left. apply elem_of_seqZ. lia. }
  by apply (max_num_unique nums (seqZ 1 n) m n Hp).
Qed.

(** An exception of [int] is a [ValueError]. *)
Lemma partnum_error (deffnm file_ending f : string) (e : exn) :
  partnum deffnm file_ending f = inl e → e = ValueError.
Proof.
  unfold partnum, int_of_str. cbv zeta.
  match goal with |- context [match ?p with Some z => _ | None => _ end] =>
    destruct p end; [done|]. by intros [= <-].
Qed.

Lemma result_map_inl {A B} (f : A → result B) (l : list A) (e : exn) :
  result_map f l = inl e → ∃ x, x ∈ l ∧ f x = inl e.
Proof.
  induction l as [|x l IH]; simpl; [done|].
  destruct (f x) as [e'|y] eqn:Hx.
  - intros [= <-]. exists x. split; [apply list_elem_of_here | done].
  - destruct (result_map f l) as [e'|ys]; [|done].
    intros [= <-]. destruct IH as (x' & Hin & Hx'); [done|].
    exists x'. split; [by apply list_elem_of_further | done].
Qed.

Lemma result_map_fails {A B} (f : A → result B) (l : list A) (x : A) (e : exn) :
  x ∈ l → f x = inl e → ∃ e', result_map f l = inl e'.
Proof.
  intros Hin Hx. induction l as [|y l IH]; [by apply elem_of_nil in Hin|]. simpl.
  apply elem_of_cons in Hin as [<-|Hin].
  - rewrite Hx. by eexists.
  - destruct (f y) as [e'|z]; [by eexists|].
    destruct (IH Hin) as [e' ->]. by eexists.
Qed.

(** X22: when every digit of the suffix of part [num] occurs in the name of
    the simulation, a folder that holds the file of that part makes
    [get_all_file_parts] raise [ValueError]: [lstrip] takes its argument as a
    set of characters, so it strips the digits with the name, and what it
    leaves of the ending goes with [rstrip]; [int] is called on the empty
    str. *)
Theorem part_number_stripped (listdir : string → result (list string))
    (folder deffnm file_ending : string) (content : list string) (num : Z) :
  listdir folder = inr content →
  part_file deffnm (dotted file_ending) num ∈ content →
  Forall (λ c, c ∈ chars_of deffnm) (chars_of (zero_pad 4 (str_of_Z num))) →
  partnum deffnm (dotted file_ending) (part_file deffnm (dotted file_ending) num)
    = inl ValueError ∧
  get_all_file_parts listdir folder deffnm file_ending = inl ValueError.
Proof.
  intros Hlist Hin Hdigits.
  set (ending := dotted file_ending) in *.
  set (f := part_file deffnm ending num) in *.
  assert (Hf : partnum deffnm ending f = inl ValueError).
  { unfold partnum, str_lstrip, str_rstrip. rewrite chars_of_string.
    unfold f. rewrite part_file_chars.
    rewrite lstrip_set_app; [|by apply Forall_forall].
    rewrite lstrip_set_app.
    2:{ eapply Forall_impl; [exact Hdigits|]. intros c Hc. simpl in Hc.
        rewrite chars_of_append. apply elem_of_app. by left. }
    destruct (lstrip_set_suffix (chars_of (deffnm +:+ ".part")) (chars_of ending))
      as [skipped Hrest].
    rewrite lstrip_set_all; [done|].
    apply Forall_reverse, Forall_forall. intros c Hc. rewrite Hrest.
    apply elem_of_app. by right. }
  split; [exact Hf|].
  unfold get_all_file_parts. cbv zeta. fold ending. rewrite Hlist. simpl.
  assert (Hfiltered : f ∈ filter (λ f, is_part deffnm ending f = true) content).
  { apply list_elem_of_filter. split; [apply part_file_is_part | done]. }
  destruct (result_map_fails _ _ f ValueError Hfiltered Hf) as [e He].
  rewrite He. simpl.
  destruct (result_map_inl _ _ _ He) as (x & _ & Hx).
  by rewrite (partnum_error _ _ _ _ Hx).
Qed.

Lemma result_map_values {A B} (f : A → result B) (d : B) (l : list A) (ys : list B) :
  result_map f l = inr ys → ys = (λ x, match f x with inr y => y | inl _ => d end) <$> l.
Proof.
  revert ys. induction l as [|x l IH]; intros ys; simpl; [by intros [= <-]|].
  destruct (f x) as [e|y] eqn:Hx; [done|].
  destruct (result_map f l) as [e|ys']; [done|].
  intros [= <-]. csimpl. f_equal. by apply IH.
Qed.

(** A comprehension whose exceptions are all of one class, over the items
    in another order: it raises that class as well, or gives the values in
    the other order. *)
Lemma result_map_Permutation {A B} (f : A → result B) (l l' : list A) (e0 : exn) :
  (∀ x e, f x = inl e → e = e0) →
  l ≡ₚ l' →
  match result_map f l, result_map f l' with
  | inr ys, inr ys' => ys ≡ₚ ys'
  | inl e, inl e' => e = e'
  | _, _ => False
  end.
Proof.
  intros Herr Hp.
  destruct (result_map f l) as [e|ys] eqn:Hl, (result_map f l') as [e'|ys'] eqn:Hl'.
  - destruct (result_map_inl _ _ _ Hl) as (x & _ & Hx).
    destruct (result_map_inl _ _ _ Hl') as (x' & _ & Hx').
    by rewrite (Herr _ _ Hx), (Herr _ _ Hx').
  - destruct (result_map_inl _ _ _ Hl) as (x & Hin & Hx).
    rewrite Hp in Hin. destruct (result_map_fails f l' x e Hin Hx) as [e' He'].
    congruence.
  - destruct (result_map_inl _ _ _ Hl') as (x & Hin & Hx).
    rewrite <- Hp in Hin. destruct (result_map_fails f l x e' Hin Hx) as [e He].
    congruence.
  - destruct ys as [|y0 ys0].
    + destruct l; [|simpl in Hl; destruct (f a); [done|]; by destruct (result_map f l)].
      apply Permutation_nil_l in Hp. subst l'. simpl in Hl'. by injection Hl' as <-.
    + rewrite (result_map_values f y0 _ _ Hl), (result_map_values f y0 _ _ Hl').
      by apply fmap_Permutation.
Qed.

Lemma dotted_dotted (file_ending : string) : dotted (dotted file_ending) = dotted file_ending.
Proof.
  unfold dotted. destruct (str_startswith file_ending ".") eqn:Hs; simpl; [by rewrite Hs|].
  reflexivity.
Qed.

(** X23: the result of [get_all_file_parts] depends neither on the order in
    which the folder is listed nor on whether the ending is given with its
    dot: two listings with the same names give the same parts, or raise
    both. *)
Theorem listing_order_irrelevant (listdir listdir' : string → result (list string))
    (folder deffnm file_ending : string) (content content' : list string) :
  listdir folder = inr content →
  listdir' folder = inr content' →
  content ≡ₚ content' →
  get_all_file_parts listdir folder deffnm file_ending
    = get_all_file_parts listdir' folder deffnm (dotted file_ending).
Proof.
  intros Hlist Hlist' Hp. unfold get_all_file_parts. cbv zeta.
  rewrite dotted_dotted, Hlist, Hlist'. simpl.
  set (ending := dotted file_ending).
  assert (Hf : filter (λ f, is_part deffnm ending f = true) content
               ≡ₚ filter (λ f, is_part deffnm ending f = true) content')
    by by rewrite Hp.
  pose proof (result_map_Permutation (partnum deffnm ending) _ _ ValueError
                (partnum_error deffnm ending) Hf) as Hmap.
  destruct (result_map _ (filter _ content)) as [e|ns],
           (result_map _ (filter _ content')) as [e'|ns']; try done.
  - by rewrite Hmap.
  - simpl. destruct (max_num_spec ns) as (m & -> & Hall & Hin).
    destruct (max_num_spec ns') as (m' & -> & Hall' & Hin'). simpl.
    by rewrite (max_num_unique ns ns' m m' Hmap Hall Hin Hall' Hin').
Qed.

End FilePartsFacts.

(** ** The options that [ensure_mdp_options] sets *)
Section MdpOptionsFacts.
Context `{Python} (cls : MDClass).

Lemma entry_first_app (hp ext : list FlagChangeList.t) (v : entry) :
  is_Some (resolve hp v) → entry_first (hp ++ ext) v = entry_first hp v.
Proof.
  destruct v as [v|l]; simpl; [done|].
  intros [s Hs]. destruct (hp !! l) as [o|] eqn:Hl; [|done].
  by rewrite (lookup_app_l_Some _ _ _ _ Hl).
Qed.

Lemma getitem_valid (mdp : LineBasedMDConfig) (w : world) (key : string) (v : entry) :
  valid_refs mdp w → __getitem__ mdp key = inr v → is_Some (resolve (heap w) v).
Proof.
  unfold valid_refs, __getitem__. intros Hv.
  destruct (Dict.get key (_config mdp)) as [v'|] eqn:Hg; [|done]. intros [= ->].
  induction Hv as [|[k0 v0] config Hkv _ IH]; simpl in Hg; [done|].
  destruct (String.eqb key k0); [by injection Hg as -> | by apply IH].
Qed.

(** [mdp[key] = value] for a key whose rule is the list of str. *)
Lemma setitem_str_rule (mdp : LineBasedMDConfig) (key value : string) (w : world) :
  rule_of cls key = TypedList Dstr →
  __setitem__ cls mdp key (PStr value) w =
    (inr (),
     {| _config := Dict.set key (Ref (length (heap w))) (_config mdp);
        _changed := true;
        _original_file := _original_file mdp |},
     set_heap w (heap w ++ [FlagChangeList.mk [PStr value] false (Some Dstr)])).
Proof.
  intros Hrule. unfold __setitem__, dispatch. fold (rule_of cls key). by rewrite Hrule.
Qed.

Lemma valid_refs_set (mdp : LineBasedMDConfig) (key : string) (w : world)
    (o : FlagChangeList.t) :
  valid_refs mdp w →
  valid_refs {| _config := Dict.set key (Ref (length (heap w))) (_config mdp);
                _changed := true;
                _original_file := _original_file mdp |}
             (set_heap w (heap w ++ [o])).
Proof.
  unfold valid_refs. simpl. intros Hv. apply Forall_set.
  - by intros k' k'' v'.
  - by apply valid_app.
  - unfold valid. simpl. rewrite lookup_app_r; [|done]. rewrite Nat.sub_diag. by eexists.
Qed.

(** One option, when its entry is absent or has a first item. *)
Lemma ensure_option_sets (key value : string) (mdp : LineBasedMDConfig) (w : world)
    (lg : list (level * string)) :
  rule_of cls key = TypedList Dstr →
  valid_refs mdp w →
  (∀ v, __getitem__ mdp key = inr v → is_ok (entry_first (heap w) v) = true) →
  ∃ mdp' w' new,
    ensure_option cls key value (mdp, w, lg) = (inr (), (mdp', w', lg ++ new)) ∧
    option_is key value mdp' w' ∧
    valid_refs mdp' w' ∧
    (∀ k v, k ≠ key → __getitem__ mdp k = inr v →
            __getitem__ mdp' k = inr v ∧ entry_first (heap w') v = entry_first (heap w) v) ∧
    (∀ k, k ≠ key → Dict.get k (table mdp' w') = Dict.get k (table mdp w)) ∧
    fs w' = fs w ∧ log w' = log w ∧ (length new ≤ 1)%nat ∧
    (option_is key value mdp w → mdp' = mdp ∧ w' = w ∧ new = []) ∧
    (¬ option_is key value mdp w → _changed mdp' = true ∧ length new = 1%nat).
Proof.
  intros Hrule Hv Hfirst.
  assert (Hset : ∀ new : list (level * string),
    ¬ option_is key value mdp w →
    (let '(r, mdp', w') := __setitem__ cls mdp key (PStr value) w in
     (r, (mdp', w', lg ++ new))) = ensure_option cls key value (mdp, w, lg) →
    length new = 1%nat →
    ∃ mdp' w' new,
      ensure_option cls key value (mdp, w, lg) = (inr (), (mdp', w', lg ++ new)) ∧
      option_is key value mdp' w' ∧
      valid_refs mdp' w' ∧
      (∀ k v, k ≠ key → __getitem__ mdp k = inr v →
              __getitem__ mdp' k = inr v ∧ entry_first (heap w') v = entry_first (heap w) v) ∧
      (∀ k, k ≠ key → Dict.get k (table mdp' w') = Dict.get k (table mdp w)) ∧
      fs w' = fs w ∧ log w' = log w ∧ (length new ≤ 1)%nat ∧
      (option_is key value mdp w → mdp' = mdp ∧ w' = w ∧ new = []) ∧
      (¬ option_is key value mdp w → _changed mdp' = true ∧ length new = 1%nat)).
  { intros new Hnot <- Hlen. rewrite (setitem_str_rule mdp key value w Hrule).
    eexists _, _, new. split; [done|]. split_and!.
    - exists (Ref (length (heap w))). unfold __getitem__. simpl. rewrite get_set_eq.
      split; [done|]. rewrite lookup_app_r; [|done]. by rewrite Nat.sub_diag.
    - by apply valid_refs_set.
    - intros k v Hk Hg. unfold __getitem__ in *. simpl. rewrite get_set_ne; [|done].
      split; [done|]. apply entry_first_app. by eapply getitem_valid.
    - intros k Hk. unfold table, view. simpl. rewrite <- set_fmap_snd.
      rewrite get_set_ne; [|done]. fold (view (heap w ++ [FlagChangeList.mk [PStr value] false (Some Dstr)]) (_config mdp)).
      by rewrite view_app.
    - done.
    - done.
    - lia.
    - done.
    - done. }
  unfold ensure_option in *. unfold option_is in *.
  destruct (__getitem__ mdp key) as [e|test] eqn:Hget.
  - assert (e = KeyError) as ->.
    { unfold __getitem__, raise in Hget.
      destruct (Dict.get key (_config mdp)); by simplify_eq. }
    eapply Hset; [by intros (v & ? & _) | reflexivity | reflexivity].
  - specialize (Hfirst test eq_refl).
    destruct (entry_first (heap w) test) as [e|first] eqn:Hf; [done|].
    destruct (differs first value) eqn:Hdiff.
    + eapply Hset; [|reflexivity|reflexivity].
      intros (v & [= <-] & Hv'). rewrite Hf in Hv'. injection Hv' as ->.
      simpl in Hdiff. by rewrite String.eqb_refl in Hdiff.
    + assert (first = PStr value) as ->.
      { destruct first; try done. simpl in Hdiff.
        apply negb_false_iff, String.eqb_eq in Hdiff. by subst. }
      exists mdp, w, []. rewrite app_nil_r. split_and!; try done.
      * by exists test.
      * simpl. lia.
      * intros []. by exists test.
Qed.

Lemma ensure_option_raises (key value : string) (mdp : LineBasedMDConfig) (w : world)
    (lg : list (level * string)) (v : entry) (e : exn) :
  __getitem__ mdp key = inr v →
  entry_first (heap w) v = inl e →
  ensure_option cls key value (mdp, w, lg) = (inl e, (mdp, w, lg)).
Proof. intros Hget Hf. unfold ensure_option. by rewrite Hget, Hf. Qed.

Lemma ensure_option_noop (key value : string) (mdp : LineBasedMDConfig) (w : world)
    (lg : list (level * string)) :
  option_is key value mdp w →
  ensure_option cls key value (mdp, w, lg) = (inr (), (mdp, w, lg)).
Proof.
  intros (v & Hget & Hf). unfold ensure_option. rewrite Hget, Hf. simpl.
  by rewrite String.eqb_refl.
Qed.

Lemma ensure_mdp_options_noop (mdp : LineBasedMDConfig) (genvel continuation : string)
    (w : world) (lg : list (level * string)) :
  option_is "gen-vel" genvel mdp w →
  option_is "continuation" continuation mdp w →
  ensure_mdp_options cls mdp genvel continuation w lg = (inr (), (mdp, w, lg)).
Proof.
  intros Hg Hc. unfold ensure_mdp_options.
  rewrite (ensure_option_noop _ _ _ _ _ Hg). by apply ensure_option_noop.
Qed.

(** X24: for a class that gives [gen-vel] and [continuation] the rule of a
    list of str, and a store in which each of the two is absent or has a first
    item, [ensure_mdp_options] returns; then [mdp["gen-vel"][0]] and
    [mdp["continuation"][0]] are the values asked for, every other key shows
    what it showed, no file and no record of the store's log has changed, at
    most two records are logged, and a second call changes nothing. *)
Theorem ensure_mdp_options_ensures (mdp : LineBasedMDConfig) (genvel continuation : string)
    (w : world) (lg : list (level * string)) :
  rule_of cls "gen-vel" = TypedList Dstr →
  rule_of cls "continuation" = TypedList Dstr →
  valid_refs mdp w →
  (∀ v, __getitem__ mdp "gen-vel" = inr v → is_ok (entry_first (heap w) v) = true) →
  (∀ v, __getitem__ mdp "continuation" = inr v → is_ok (entry_first (heap w) v) = true) →
  ∃ mdp' w' new,
    ensure_mdp_options cls mdp genvel continuation w lg = (inr (), (mdp', w', lg ++ new)) ∧
    option_is "gen-vel" genvel mdp' w' ∧
    option_is "continuation" continuation mdp' w' ∧
    (∀ k, k ≠ "gen-vel" → k ≠ "continuation" →
          Dict.get k (table mdp' w') = Dict.get k (table mdp w)) ∧
    fs w' = fs w ∧ log w' = log w ∧
    (length new ≤ 2)%nat ∧
    ensure_mdp_options cls mdp' genvel continuation w' (lg ++ new)
      = (inr (), (mdp', w', lg ++ new)).
Proof.
  intros Hrg Hrc Hv Hfg Hfc.
  destruct (ensure_option_sets "gen-vel" genvel mdp w lg Hrg Hv Hfg)
    as (mdp1 & w1 & new1 & Hrun1 & Hset1 & Hv1 & Hkeep1 & Htbl1 & Hfs1 & Hlog1 & Hlen1 & _).
  assert (Hfc1 : ∀ v, __getitem__ mdp1 "continuation" = inr v →
                      is_ok (entry_first (heap w1) v) = true).
  { intros v Hget. destruct (__getitem__ mdp "continuation") as [e|v0] eqn:Hget0.
    - assert (Hnone : Dict.get "continuation" (table mdp1 w1) = None).
      { rewrite Htbl1; [|done]. unfold table, view, __getitem__ in *.
        rewrite get_fmap_values. by destruct (Dict.get "continuation" (_config mdp)). }
      unfold table, view, __getitem__ in *. rewrite get_fmap_values in Hnone.
      by destruct (Dict.get "continuation" (_config mdp1)).
    - destruct (Hkeep1 "continuation" v0 ltac:(done) Hget0) as [Hg1 Hf1].
      rewrite Hg1 in Hget. injection Hget as <-. rewrite Hf1. by apply Hfc. }
  destruct (ensure_option_sets "continuation" continuation mdp1 w1 (lg ++ new1) Hrc Hv1 Hfc1)
    as (mdp2 & w2 & new2 & Hrun2 & Hset2 & Hv2 & Hkeep2 & Htbl2 & Hfs2 & Hlog2 & Hlen2 & _).
  assert (Hgen2 : option_is "gen-vel" genvel mdp2 w2).
  { destruct Hset1 as (v & Hget & Hf).
    destruct (Hkeep2 "gen-vel" v ltac:(done) Hget) as [Hg2 Hf2].
    exists v. split; [done|]. by rewrite Hf2. }
  exists mdp2, w2, (new1 ++ new2). split_and!.
  - unfold ensure_mdp_options. rewrite Hrun1, Hrun2. by rewrite <- (assoc_L (++)).
  - done.
  - done.
  - intros k Hk1 Hk2. by rewrite Htbl2, Htbl1.
  - congruence.
  - congruence.
  - rewrite length_app. lia.
  - by apply ensure_mdp_options_noop.
Qed.


(** One option: the records are kept, and when none is added and the block
    has returned, it has found the option as asked and has changed nothing. *)
Lemma ensure_option_log (key value : string) (mdp : LineBasedMDConfig) (w : world)
    (lg : list (level * string)) :
  ∃ new,
    (ensure_option cls key value (mdp, w, lg)).2.2 = lg ++ new ∧
    (new = [] → (ensure_option cls key value (mdp, w, lg)).1 = inr () →
     option_is key value mdp w ∧
     ensure_option cls key value (mdp, w, lg) = (inr (), (mdp, w, lg))).
Proof.
  unfold ensure_option, option_is.
  destruct (__getitem__ mdp key) as [e|test] eqn:Hget.
  - destruct e; try (exists []; rewrite app_nil_r; split; [done|]; by intros _ [=]).
    destruct (__setitem__ cls mdp key (PStr value) w) as [[r mdp'] w'].
    eexists. split; [done|]. by intros [=].
  - destruct (entry_first (heap w) test) as [e|first] eqn:Hf.
    { exists []. rewrite app_nil_r. split; [done|]. by intros _ [=]. }
    destruct (differs first value) eqn:Hdiff.
    + destruct (__setitem__ cls mdp key (PStr value) w) as [[r mdp'] w'].
      eexists. split; [done|]. by intros [=].
    + exists []. rewrite app_nil_r. split; [done|]. intros _ _. split; [|done].
      exists test. split; [done|]. destruct first; try done. simpl in Hdiff.
      apply negb_false_iff, String.eqb_eq in Hdiff. by subst.
Qed.

(** X25: [ensure_mdp_options] returns without a record and with the store
    and the lists as they were exactly when both options are as asked, that
    is when the first item of each is the str asked for: further items are
    not looked at, and a store whose [changed] is false keeps it false. *)
Theorem ensure_mdp_options_quiet (mdp : LineBasedMDConfig) (genvel continuation : string)
    (w : world) (lg : list (level * string)) :
  ensure_mdp_options cls mdp genvel continuation w lg = (inr (), (mdp, w, lg))
  ↔ option_is "gen-vel" genvel mdp w ∧ option_is "continuation" continuation mdp w.
Proof.
  split; [|intros [Hg Hc]; by apply ensure_mdp_options_noop].
  unfold ensure_mdp_options.
  destruct (ensure_option_log "gen-vel" genvel mdp w lg) as (new1 & Hlog1 & Hquiet1).
  destruct (ensure_option cls "gen-vel" genvel (mdp, w, lg)) as [[e|[]] [[mdp1 w1] lg1]];
    [done|]. simpl in Hlog1.
  destruct (ensure_option_log "continuation" continuation mdp1 w1 lg1)
    as (new2 & Hlog2 & Hquiet2).
  intros Hrun. rewrite Hrun in Hlog2. simpl in Hlog2. subst lg1.
  rewrite <- (assoc_L (++)) in Hlog2.
  assert (Hnil : new1 ++ new2 = []).
  { apply (f_equal length) in Hlog2. rewrite length_app in Hlog2.
    apply length_zero_iff_nil. lia. }
  apply app_eq_nil in Hnil as [-> ->].
  destruct (Hquiet1 eq_refl eq_refl) as [Hg Hsame]. injection Hsame as -> -> _.
  rewrite Hrun in Hquiet2. by destruct (Hquiet2 eq_refl eq_refl) as [Hc _].
Qed.

(** X26: an option whose entry has no first item makes [ensure_mdp_options]
    raise what [entry[0]] raises, [IndexError] for a list without items (the
    entry of a line that gives the key no value).  For [gen-vel] nothing has
    changed then; for [continuation] the store is left with [gen-vel] already
    set. *)
Theorem ensure_mdp_options_raises (mdp : LineBasedMDConfig) (genvel continuation : string)
    (w : world) (lg : list (level * string)) (v : entry) (e : exn) :
  entry_first (heap w) v = inl e →
  (∀ l o, v = Ref l → heap w !! l = Some o → FlagChangeList._data o = [] →
          e = IndexError) ∧
  (__getitem__ mdp "gen-vel" = inr v →
   ensure_mdp_options cls mdp genvel continuation w lg = (inl e, (mdp, w, lg))) ∧
  (__getitem__ mdp "continuation" = inr v →
   rule_of cls "gen-vel" = TypedList Dstr →
   valid_refs mdp w →
   (∀ v', __getitem__ mdp "gen-vel" = inr v' → is_ok (entry_first (heap w) v') = true) →
   ∃ mdp' w' new,
     ensure_mdp_options cls mdp genvel continuation w lg = (inl e, (mdp', w', lg ++ new)) ∧
     option_is "gen-vel" genvel mdp' w' ∧
     (¬ option_is "gen-vel" genvel mdp w → _changed mdp' = true ∧ length new = 1%nat)).
Proof.
  intros Hf. split_and!.
  - intros l o -> Hl Hdata. simpl in Hf. rewrite Hl in Hf.
    unfold FlagChangeList.__getitem__ in Hf. rewrite Hdata in Hf. simpl in Hf.
    by injection Hf as <-.
  - intros Hget. unfold ensure_mdp_options.
    by rewrite (ensure_option_raises "gen-vel" genvel mdp w lg v e Hget Hf).
  - intros Hget Hrg Hv Hfg.
    destruct (ensure_option_sets "gen-vel" genvel mdp w lg Hrg Hv Hfg)
      as (mdp1 & w1 & new1 & Hrun1 & Hset1 & Hv1 & Hkeep1 & _ & _ & _ & _ & _ & Hnew1).
    destruct (Hkeep1 "continuation" v ltac:(done) Hget) as [Hget1 Hf1].
    exists mdp1, w1, new1. split_and!; [|done|done].
    unfold ensure_mdp_options. rewrite Hrun1.
    apply ensure_option_raises with (v := v); [done|]. by rewrite Hf1.
Qed.

End MdpOptionsFacts.

(** ** The lowest output frequency *)
Section NstoutFacts.
Context `{PythonCompare}.

Lemma min_from_frequency (inf : pyfloat) (kept : option Z) (items : list (option Z)) :
  compares_ints inf →
  ∃ m, min_from (frequency inf kept) (frequency inf <$> items) = inr (frequency inf m) ∧
       m ∈ kept :: items ∧
       ∀ x, x ∈ kept :: items →
            match m, x with
            | Some a, Some b => a ≤ b
            | _, None => True
            | None, Some _ => False
            end.
Proof.
  intros (_ & _ & _ & _ & Hii & Hif & Hfi & Hff).
  revert kept. induction items as [|item items IH]; intros kept; csimpl.
  - exists kept. split_and!; [done|apply list_elem_of_here|].
    intros x [->|?%elem_of_nil]%elem_of_cons; [|done]. destruct kept; [lia|done].
  - assert (Hlt : entry_lt (frequency inf item) (frequency inf kept)
                  = inr (match item, kept with
                         | Some a, Some b => a <? b
                         | Some _, None => true
                         | None, _ => false
                         end)).
    { destruct item, kept; simpl; auto. }
    rewrite Hlt. simpl.
    set (less := match item, kept with
                 | Some a, Some b => a <? b
                 | Some _, None => true
                 | None, _ => false
                 end).
    assert (Hif_eq : (if less then frequency inf item else frequency inf kept)
                     = frequency inf (if less then item else kept)) by by destruct less.
    rewrite Hif_eq.
    destruct (IH (if less then item else kept)) as (m & Hrun & Hin & Hleast).
    exists m. split; [done|]. split.
    + apply elem_of_cons in Hin as [->|Hin].
      * destruct less; [apply list_elem_of_further, list_elem_of_here | apply list_elem_of_here].
      * by do 2 apply list_elem_of_further.
    + pose proof (Hleast _ (list_elem_of_here _ _)) as Hkept.
      intros x [->|[->|Hx]%elem_of_cons]%elem_of_cons.
      * unfold less in Hkept. destruct m as [a|], item as [b|], kept as [c|]; try done;
          destruct (Z.ltb_spec b c); try done; lia.
      * unfold less in Hkept. destruct m as [a|], item as [b|], kept as [c|]; try done;
          destruct (Z.ltb_spec b c); try done; lia.
      * apply Hleast. by apply list_elem_of_further.
Qed.

Lemma collect_vals_frequency (inf : pyfloat) (mdp : LineBasedMDConfig)
    (keys : list string) (seen : list (option Z)) :
  compares_ints inf →
  (∀ k v, k ∈ keys → __getitem__ mdp k = inr v → ∃ z, v = Plain (PInt z)) →
  ∃ nums,
    collect_vals mdp keys (frequency inf <$> seen) = inr (frequency inf <$> (seen ++ nums)) ∧
    ∀ z, Some z ∈ nums ↔
         ∃ k, k ∈ keys ∧ __getitem__ mdp k = inr (Plain (PInt z)) ∧ z ≠ 0.
Proof.
  intros (Hinf & Hii & _) . revert seen.
  induction keys as [|k keys IH]; intros seen Hints; simpl.
  - exists []. rewrite app_nil_r. split; [done|]. intros z. split.
    + by intros ?%elem_of_nil.
    + by intros (k & ?%elem_of_nil & _).
  - assert (Hrest : ∀ k' v, k' ∈ keys → __getitem__ mdp k' = inr v → ∃ z, v = Plain (PInt z)).
    { intros k' v Hk'. apply Hints. by apply list_elem_of_further. }
    destruct (__getitem__ mdp k) as [e|v] eqn:Hget; simpl.
    + assert (e = KeyError) as ->.
      { unfold __getitem__, raise in Hget.
        destruct (Dict.get k (_config mdp)); by simplify_eq. }
      destruct (IH seen Hrest) as (nums & Hrun & Hnums). exists nums. split; [done|].
      intros z. rewrite Hnums. split.
      * intros (k' & Hk' & Hg & Hz). exists k'. split; [by apply list_elem_of_further|done].
      * intros (k' & [->|Hk']%elem_of_cons & Hg & Hz); [congruence|]. by exists k'.
    + destruct (Hints k v (list_elem_of_here _ _) Hget) as [z0 ->].
      simpl. rewrite Hii. unfold float_inf. rewrite Hinf. simpl.
      destruct (Z.eqb_spec z0 0) as [->|Hne].
      * simpl. replace ((frequency inf <$> seen) ++ [Plain (PFloat inf)])
          with (frequency inf <$> (seen ++ [None])) by by rewrite fmap_app.
        destruct (IH (seen ++ [None]) Hrest) as (nums & Hrun & Hnums).
        exists (None :: nums). rewrite Hrun, <- (assoc_L (++)). split; [done|].
        intros z. rewrite elem_of_cons, Hnums. split.
        -- intros [[=]|(k' & Hk' & Hg & Hz)]. exists k'.
           split; [by apply list_elem_of_further|done].
        -- intros (k' & [->|Hk']%elem_of_cons & Hg & Hz); [congruence|]. right. by exists k'.
      * simpl. replace ((frequency inf <$> seen) ++ [Plain (PInt z0)])
          with (frequency inf <$> (seen ++ [Some z0])) by by rewrite fmap_app.
        destruct (IH (seen ++ [Some z0]) Hrest) as (nums & Hrun & Hnums).
        exists (Some z0 :: nums). rewrite Hrun, <- (assoc_L (++)). split; [done|].
        intros z. rewrite elem_of_cons, Hnums. split.
        -- intros [[= ->]|(k' & Hk' & Hg & Hz)].
           ++ exists k. split; [apply list_elem_of_here|done].
           ++ exists k'. split; [by apply list_elem_of_further|done].
        -- intros (k' & [->|Hk']%elem_of_cons & Hg & Hz).
           ++ left. congruence.
           ++ right. by exists k'.
Qed.

(** X27: on a runtime that compares ints and infinity as Python does, and
    for a store whose entries for the keys of the trajectory type are ints,
    [nstout_from_mdp] returns the least of the frequencies that are set and
    are not 0; it raises [ValueError] exactly when there is none. *)
Theorem nstout_from_mdp_least (mdp : LineBasedMDConfig) (traj_type : string)
    (keys : list string) (inf : pyfloat) :
  compares_ints inf →
  nstout_keys traj_type = inr keys →
  (∀ k v, k ∈ keys → __getitem__ mdp k = inr v → ∃ z, v = Plain (PInt z)) →
  match nstout_from_mdp mdp traj_type with
  | inr v =>
      ∃ m k, v = Plain (PInt m) ∧ m ≠ 0 ∧
             k ∈ keys ∧ __getitem__ mdp k = inr (Plain (PInt m)) ∧
             ∀ k' z, k' ∈ keys → __getitem__ mdp k' = inr (Plain (PInt z)) → z ≠ 0 → m ≤ z
  | inl e =>
      e = ValueError ∧
      ∀ k z, k ∈ keys → __getitem__ mdp k = inr (Plain (PInt z)) → z = 0
  end.
Proof.
  intros Hlaws Hkeys Hints. unfold nstout_from_mdp. rewrite Hkeys. simpl.
  destruct (collect_vals_frequency inf mdp keys [] Hlaws Hints) as (nums & Hrun & Hnums).
  change (@nil entry) with (frequency inf <$> []). rewrite Hrun. simpl.
  destruct nums as [|kept items]; csimpl.
  - split; [done|]. intros k z Hk Hg. destruct (decide (z = 0)) as [|Hz]; [done|].
    assert (Hin : Some z ∈ []) by (apply Hnums; by exists k). by apply elem_of_nil in Hin.
  - destruct (min_from_frequency inf kept items Hlaws) as (m & -> & Hin & Hleast). simpl.
    destruct Hlaws as (Hinf & _ & Hif & Hff & _).
    unfold float_inf. rewrite Hinf. simpl. destruct m as [m|]; simpl.
    + rewrite Hif. apply Hnums in Hin as (k & Hk & Hg & Hz).
      exists m, k. split_and!; try done.
      intros k' z Hk' Hg' Hz'.
      assert (Hz_in : Some z ∈ kept :: items) by (apply Hnums; by exists k').
      apply (Hleast _ Hz_in).
    + rewrite Hff. split; [done|]. intros k z Hk Hg.
      destruct (decide (z = 0)) as [|Hz]; [done|].
      assert (Hz_in : Some z ∈ kept :: items) by (apply Hnums; by exists k).
      destruct (Hleast _ Hz_in).
Qed.

Lemma upper_char_idemp (c : ascii) : upper_char (upper_char c) = upper_char c.
Proof.
  unfold upper_char. cbv zeta.
  destruct ((97 <=? nat_of_ascii c) && (nat_of_ascii c <=? 122))%nat eqn:Hc;
    [|by rewrite Hc].
  apply andb_true_iff in Hc as [H1%Nat.leb_le H2%Nat.leb_le].
  rewrite nat_ascii_embedding by lia.
  destruct (Nat.leb_spec 97 (nat_of_ascii c - 32)); [lia|done].
Qed.

Lemma str_upper_idemp (s : string) : str_upper (str_upper s) = str_upper s.
Proof.
  unfold str_upper. rewrite chars_of_string, <- list_fmap_compose. f_equal.
  apply list_fmap_ext. intros _ c _. apply upper_char_idemp.
Qed.

(** X28: [nstout_from_mdp] reads the trajectory type without regard to
    case; it raises [ValueError] for a type that is neither [TRR] nor [XTC],
    whatever the store, and for a store that holds none of the keys of the
    type, whatever the runtime. *)
Theorem nstout_from_mdp_no_output (mdp : LineBasedMDConfig) (traj_type : string) :
  nstout_from_mdp mdp traj_type = nstout_from_mdp mdp (str_upper traj_type) ∧
  (str_upper traj_type ≠ "TRR" → str_upper traj_type ≠ "XTC" →
   nstout_from_mdp mdp traj_type = inl ValueError) ∧
  ((∀ keys k, nstout_keys traj_type = inr keys → k ∈ keys →
              __getitem__ mdp k = inl KeyError) →
   nstout_from_mdp mdp traj_type = inl ValueError).
Proof.
  split_and!.
  - unfold nstout_from_mdp, nstout_keys. by rewrite str_upper_idemp.
  - intros Htrr Hxtc. unfold nstout_from_mdp, nstout_keys.
    destruct (String.eqb_spec (str_upper traj_type) "TRR"); [done|].
    by destruct (String.eqb_spec (str_upper traj_type) "XTC").
  - intros Hnone. unfold nstout_from_mdp.
    destruct (nstout_keys traj_type) as [e|keys] eqn:Hkeys; simpl.
    + unfold nstout_keys in Hkeys.
      destruct (String.eqb _ "TRR"); [done|]. destruct (String.eqb _ "XTC"); [done|].
      by injection Hkeys as <-.
    + assert (Hcollect : ∀ ks, (∀ k, k ∈ ks → __getitem__ mdp k = inl KeyError) →
                collect_vals mdp ks [] = inr []).
      { induction ks as [|k ks IH]; intros Hks; simpl; [done|].
        rewrite (Hks k) by apply list_elem_of_here. simpl.
        apply IH. intros k' Hk'. apply Hks. by apply list_elem_of_further. }
      by rewrite (Hcollect keys (λ k, Hnone keys k eq_refl)).
Qed.

End NstoutFacts.

(** ** The semaphores *)
Section SemaphoreFacts.

(** X30: importing the module raises [ValueError] exactly when the soft
    limit on open files is below 30, for then the semaphore of the open files
    would get a value below 0.  Otherwise it leaves the four entries of the
    table; the semaphore of the processes has a quarter of the count of the
    processors, rounded down, which is 0 on a machine with fewer than four,
    and 2 when the count is not known.  A later [set_max_process] never gives
    it more than [max_num]. *)
Theorem semaphores_at_import (cpu_count : option Z) (nofile_soft : Z) :
  (∀ c, cpu_count = Some c → 0 < c ≤ 2 ^ 53) →
  let processes := match cpu_count with Some c => c / 4 | None => 2 end in
  (nofile_soft < 30 → import_semaphores cpu_count nofile_soft = inl ValueError) ∧
  (30 ≤ nofile_soft →
   import_semaphores cpu_count nofile_soft
     = inr [("MAX_PROCESS", Some processes); ("MAX_FILES_OPEN", Some (nofile_soft - 30));
            ("SLURM_CLUSTER_MEDIATOR", Some 1); ("SLURM_MAX_JOB", None)]) ∧
  (∀ c, cpu_count = Some c → c < 4 → processes = 0) ∧
  (∀ num max_num sems sems' value,
     set_max_process cpu_count num (Some max_num) sems = (inr (), sems') →
     Dict.get "MAX_PROCESS" sems' = Some (Some value) →
     0 ≤ value ≤ max_num).
Proof.
  intros Hcpu processes.
  assert (Hp : match cpu_count with Some c => Z.quot c 4 | None => 2 end = processes ∧
               0 ≤ processes).
  { unfold processes. destruct cpu_count as [c|]; [|split; [done|lia]].
    specialize (Hcpu c eq_refl). rewrite Z.quot_div_nonneg by lia.
    split; [done|]. apply Z.div_pos; lia. }
  destruct Hp as [Hquot Hpos].
  assert (Hfirst : set_max_process cpu_count None None []
                   = (inr (), [("MAX_PROCESS", Some processes)])).
  { unfold set_max_process, BoundedSemaphore. rewrite Hquot.
    destruct (Z.ltb_spec processes 0); [lia|done]. }
  split_and!.
  - intros Hsoft. unfold import_semaphores. rewrite Hfirst.
    assert (BoundedSemaphore (nofile_soft - 30) = inl ValueError) as ->; [|done].
    unfold BoundedSemaphore. destruct (Z.ltb_spec (nofile_soft - 30) 0); [done|lia].
  - intros Hsoft. unfold import_semaphores. rewrite Hfirst.
    assert (BoundedSemaphore (nofile_soft - 30) = inr (nofile_soft - 30)) as ->; [|done].
    unfold BoundedSemaphore. destruct (Z.ltb_spec (nofile_soft - 30) 0); [lia|done].
  - intros c -> Hc. unfold processes. specialize (Hcpu c eq_refl).
    apply Z.div_small. lia.
  - intros num max_num sems sems' value. unfold set_max_process, BoundedSemaphore.
    match goal with |- context [Z.min ?n max_num] => generalize n end. intros n.
    destruct (Z.ltb_spec (Z.min n max_num) 0); [done|].
    intros [= <-]. rewrite get_set_eq. intros [= <-]. lia.
Qed.

End SemaphoreFacts.

(** ** The properties at work on the example *)
Section Runs.
Import Example.
#[local] Existing Instance Example.python.

Lemma bind_run : __init__ MDP "/md/run.mdp" world0 = (inr store1, world1).
Proof. reflexivity. Qed.

Lemma assign_nsteps : __setitem__ MDP store1 "nsteps" (PInt 10) world1 = (inr (), store2, world1).
Proof. reflexivity. Qed.

Lemma bind_dup : __init__ MDP "/md/dup.mdp" world1 = (inr store_dup, world2).
Proof. reflexivity. Qed.

Lemma overwrite_run : write MDP store_dup "/md/run.mdp" true world2 = (inr (), store_dup, world3).
Proof. reflexivity. Qed.

(** The guard of [write] at work: the target exists. *)
Lemma write_existing_target_refused_run :
  exists_ (fs world1) (abspath "/md/dup.mdp") = true ∧
  write MDP store1 "/md/dup.mdp" false world1 = (raise ValueError, store1, world1).
Proof.
  split; [reflexivity|].
  apply (write_existing_target_refused MDP store1 "/md/dup.mdp" world1).
  reflexivity.
Defined.

(** A value that does not convert: ["abc"] for the int key [x]. *)
Lemma setitem_failure_keeps_store_run :
  run_rule (rule_of MDP "x") (PStr "abc") = inl ValueError ∧
  __setitem__ MDP store2 "x" (PStr "abc") world1 = (inl ValueError, store2, world1).
Proof.
  split; [reflexivity|].
  apply (setitem_failure_keeps_store MDP store2 "x" (PStr "abc") world1 ValueError).
  reflexivity.
Defined.

(** [store["x"][-1] = "7"] on the freshly bound store. *)
Lemma changed_tracks_entries_run :
  changed store1 world1 = false ∧
  ∃ w',
    call 0 (λ o, FlagChangeList.__setitem__ o (-1) (PStr "7")) world1 = (inr (), w') ∧
    heap w' !! 0%nat = Some (FlagChangeList.mk [PInt 1; PInt 2; PInt 7] true (Some Dint)) ∧
    changed store1 w' = true.
Proof.
  split; [reflexivity|].
  refine (proj2 (changed_tracks_entries store1 world1) "x" 0%nat
            (FlagChangeList.mk [PInt 1; PInt 2; PInt 3] false (Some Dint))
            (-1) (PStr "7") (PInt 7) 2%nat _ _ _ _);
    reflexivity.
Defined.

(** [store["nsteps"] = ["5", "6"]]: the first item is stored, as an int. *)
Lemma singleton_assignment_run :
  singleton_key MDP "nsteps" Dint ∧
  __setitem__ MDP store1 "nsteps" (PList [PStr "5"; PStr "6"]) world1 =
    (inr (),
     {| _config := Dict.set "nsteps" (Plain (PInt 5)) (_config store1);
        _changed := true;
        _original_file := _original_file store1 |},
     world1).
Proof.
  assert (Hkey : singleton_key MDP "nsteps" Dint).
  { split; [apply not_elem_of_nil | apply list_elem_of_here]. }
  split; [exact Hkey|].
  refine (proj1 (singleton_assignment MDP store1 "nsteps" Dint
                   (PList [PStr "5"; PStr "6"]) (PStr "5") (PInt 5) world1 Hkey _ _)).
  - right. right. by exists [PStr "6"].
  - reflexivity.
Defined.

(** Against C3 as stated: a sequence of several items assigned to the
    singleton int key [nsteps] is not refused. *)
Lemma singleton_accepts_several_items :
  singleton_key MDP "nsteps" Dint ∧
  (∀ e, (__setitem__ MDP store1 "nsteps" (PList [PInt 1; PInt 2; PInt 3]) world1).1.1 ≠ inl e) ∧
  __getitem__ (__setitem__ MDP store1 "nsteps" (PList [PInt 1; PInt 2; PInt 3]) world1).1.2
    "nsteps" = inr (Plain (PInt 1)).
Proof.
  split_and!.
  - split; [apply not_elem_of_nil | apply list_elem_of_here].
  - intros e. change (inr () ≠ (inl e : result ())). discriminate.
  - reflexivity.
Qed.

(** A str of several characters assigned to a singleton key has a length,
    so the rule converts its first character only, where
    [TypedFlagChangeList.__init__] takes a str as one item. *)
Remark singleton_str_first_character :
  __setitem__ MDP store1 "nsteps" (PStr "5000") world1 =
    (inr (),
     {| _config := Dict.set "nsteps" (Plain (PInt 5)) (_config store1);
        _changed := true;
        _original_file := _original_file store1 |},
     world1).
Proof. reflexivity. Qed.

(** The file [/md/dup.mdp], as [parse] reads it while the store is bound. *)
Lemma duplicate_key_last_wins_run :
  let self := {| _config := []; _changed := false; _original_file := Some "/md/dup.mdp" |} in
  ∃ parsed ws,
    parse_lines MDP ([] ++ "x = 1" :: [] ++ "x = 2" :: []) [] (log world0)
      = (inr parsed, log world0 ++ ws) ∧
    duplicate_warning "x" ∈ ws ∧
    Dict.get "x" parsed = Some (PList [PStr "2"]) ∧
    log (parse MDP self world0).2 = log world0 ++ ws ∧
    (Forall (λ kv, is_ok (run_rule (rule_of MDP kv.1) kv.2) = true) parsed →
     ∃ c, run_rule (rule_of MDP "x") (PList [PStr "2"]) = inr c ∧
          (parse MDP self world0).1.1 = inr () ∧
          Dict.get "x" (table (parse MDP self world0).1.2 (parse MDP self world0).2)
            = Some (Some (as_new c))).
Proof.
  intros self.
  refine (duplicate_key_last_wins MDP self world0 "/md/dup.mdp" dup_mdp [] [] []
            "x = 1" "x = 2" "x" [("x", PList [PStr "1"])] [("x", PList [PStr "2"])]
            (PList [PStr "2"]) _ _ _ _ _ _ _ _ _).
  - reflexivity.
  - reflexivity.
  - reflexivity.
  - repeat apply List.Forall_cons; try apply List.Forall_nil; reflexivity.
  - reflexivity.
  - exists (PList [PStr "1"]). reflexivity.
  - reflexivity.
  - reflexivity.
  - apply List.Forall_nil.
Defined.

(** The file [/md/empty.mdp], which gives no value to [nsteps]. *)
Lemma empty_value_for_singleton_key_run :
  let self := {| _config := []; _changed := false; _original_file := Some "/md/empty.mdp" |} in
  singleton_key MDP "nsteps" Dint ∧
  parse_line MDP "nsteps =" = inr [("nsteps", PList [])] ∧
  run_rule (rule_of MDP "nsteps") (PList []) = inl IndexError ∧
  (∃ e w', parse MDP self world0 = (inl e, self, w') ∧ fs w' = fs world0) ∧
  (parse MDP self world0).1.1 = inl IndexError ∧
  __init__ MDP "/md/empty.mdp" world0 = (inl IndexError, world0).
Proof.
  intros self.
  assert (Hkey : singleton_key MDP "nsteps" Dint).
  { split; [apply not_elem_of_nil | apply list_elem_of_here]. }
  assert (Hthm := empty_value_for_singleton_key MDP self world0 "/md/empty.mdp"
            "nsteps =" [] [] "nsteps =" "nsteps" Dint [("nsteps", PList [])] Hkey).
  destruct Hthm as (Hrule & Hparse & Hindex).
  - reflexivity.
  - reflexivity.
  - reflexivity.
  - reflexivity.
  - reflexivity.
  - apply List.Forall_nil.
  - split_and!; [exact Hkey | reflexivity | exact Hrule | exact Hparse | | reflexivity].
    apply (Hindex [("nsteps", PList [])] []); [reflexivity|].
    apply Forall_cons. split; [by intros []|]. apply Forall_nil_2.
Defined.

(** Against C10 as stated: a line that yields a singleton key with an empty
    list does not make [parse] fail when a later line gives the key a value,
    nor when the key is entered again by a family that comes later in the
    type dispatch. *)
Lemma empty_value_does_not_fail :
  "nsteps" ∈ _INT_SINGLETON_PARAMS MDP ∧
  parse_line MDP "nsteps =" = inr [("nsteps", PList [])] ∧
  (∃ self w',
     __init__ MDP "/md/twice.mdp" ExampleEmpty.world0 = (inr self, w') ∧
     __getitem__ self "nsteps" = inr (Plain (PInt 5))) ∧
  "dt" ∈ _FLOAT_SINGLETON_PARAMS ExampleEmpty.MDP_over ∧
  parse_line ExampleEmpty.MDP_over "dt =" = inr [("dt", PList [])] ∧
  (∃ self w',
     __init__ ExampleEmpty.MDP_over "/md/dt.mdp" ExampleEmpty.world0 = (inr self, w') ∧
     table self w' = [("dt", Some (ShownList (FlagChangeList.mk [] false (Some Dint))))]).
Proof.
  split_and!.
  - apply list_elem_of_here.
  - reflexivity.
  - eexists _, _. split; reflexivity.
  - apply list_elem_of_here.
  - reflexivity.
  - eexists _, _. split; reflexivity.
Qed.

(** The changed store [store2], written to a new path. *)
Lemma write_serializes_run :
  let entries :=
    [("nsteps", ShownPlain (PInt 10));
     ("x", ShownList (FlagChangeList.mk [PInt 1; PInt 2; PInt 3] false (Some Dint)));
     ("tcoupl", ShownList (FlagChangeList.mk [PStr "v-rescale"] false (Some Dstr)));
     ("define", ShownList (FlagChangeList.mk [] false (Some Dstr)))] in
  changed store2 world1 = true ∧
  table store2 world1 = prod_map id Some <$> entries ∧
  Forall (λ kv, entry_str_returns kv.2 = true) entries ∧
  fs world1 !! abspath "/md/new.mdp" = None ∧
  ∃ w',
    write MDP store2 "/md/new.mdp" false world1 = (inr (), store2, w') ∧
    fs w' !! "/md/new.mdp" =
      Some (File (String.concat (String "010" EmptyString)
                    ["nsteps = 10"; "x = 1 2 3"; "tcoupl = v-rescale"; "define = "])) ∧
    fs w' !! "/md/run.mdp" = Some (File run_mdp).
Proof.
  intros entries.
  assert (Hstr : Forall (λ kv, entry_str_returns kv.2 = true) entries).
  { apply Forall_cons. split; [apply str_returns_int; lia|].
    apply Forall_cons. split.
    { apply str_returns_items.
      repeat (apply Forall_cons; split; [apply str_returns_int; lia|]).
      apply Forall_nil_2. }
    apply Forall_cons. split; [reflexivity|].
    apply Forall_cons. split; [reflexivity|]. apply Forall_nil_2. }
  split; [reflexivity|]. split; [reflexivity|]. split; [exact Hstr|].
  split; [reflexivity|].
  destruct (proj1 (write_serializes MDP store2 "/md/new.mdp" false world1 entries
                     eq_refl eq_refl Hstr (or_introl eq_refl)))
    as (w' & Hw & Hfile & Hother).
  exists w'. split_and!; [exact Hw | exact Hfile |].
  rewrite (Hother "/md/run.mdp"); [reflexivity|].
  change ("/md/run.mdp" ≠ "/md/new.mdp"). discriminate.
Defined.

(** [store1], unchanged since it was bound, written to a new path. *)
Lemma unchanged_round_trip_run :
  changed store1 world1 = false ∧
  in_sync MDP store1 world1 ∧
  fs world1 !! abspath "/md/copy.mdp" = None ∧
  ∃ path content w1 self2 w2,
    _original_file store1 = Some path ∧
    fs world1 !! path = Some (File content) ∧
    write MDP store1 "/md/copy.mdp" false world1 = (inr (), store1, w1) ∧
    fs w1 = <[abspath "/md/copy.mdp" := File content]> (fs world1) ∧
    fs w1 !! abspath "/md/copy.mdp" = fs world1 !! path ∧
    __init__ MDP "/md/copy.mdp" w1 = (inr self2, w2) ∧
    table self2 w2 = table store1 world1.
Proof.
  assert (Hch : changed store1 world1 = false) by (reflexivity).
  assert (Hsync : in_sync MDP store1 world1).
  { exists "/md/run.mdp", run_mdp. split_and!; reflexivity. }
  assert (Hout : fs world1 !! abspath "/md/copy.mdp" = None) by (reflexivity).
  split_and!; [exact Hch | exact Hsync | exact Hout |].
  exact (unchanged_round_trip MDP store1 "/md/copy.mdp" world1 Hch Hsync Hout).
Defined.

Lemma copy_run : write MDP store1 "/md/copy.mdp" false world3 = (inr (), store1, world4).
Proof. reflexivity. Qed.

Lemma bind_copy : __init__ MDP "/md/copy.mdp" world4 = (inr store_copy, world5).
Proof. reflexivity. Qed.

(** Against C1 as stated: [store1] is bound to [/md/run.mdp]; a second store
    is written over that file; [store1] is still unchanged, its [write]
    copies the file as it is now, and the store bound to the copy has another
    table than [store1]. *)
Lemma round_trip_of_replaced_file :
  __init__ MDP "/md/run.mdp" world0 = (inr store1, world1) ∧
  __init__ MDP "/md/dup.mdp" world1 = (inr store_dup, world2) ∧
  write MDP store_dup "/md/run.mdp" true world2 = (inr (), store_dup, world3) ∧
  changed store1 world3 = false ∧
  write MDP store1 "/md/copy.mdp" false world3 = (inr (), store1, world4) ∧
  fs world4 !! "/md/copy.mdp" = fs world3 !! "/md/run.mdp" ∧
  __init__ MDP "/md/copy.mdp" world4 = (inr store_copy, world5) ∧
  table store_copy world5 ≠ table store1 world3.
Proof.
  split_and!; try reflexivity.
  change ([("x", Some (ShownList (FlagChangeList.mk [PInt 2] false (Some Dint))))]
          ≠ table store1 world3).
  discriminate.
Qed.

(** The changed store [store2], bound anew to [/md/dup.mdp]. *)
Lemma repointing_reparses_run :
  fs world1 !! abspath "/md/dup.mdp" = Some (File dup_mdp) ∧
  changed store2 world1 = true ∧
  ∃ self' w',
    set_original_file MDP store2 "/md/dup.mdp" world1 = (inr (), self', w') ∧
    _original_file self' = Some (abspath "/md/dup.mdp") ∧
    table self' w' = [("x", Some (ShownList (FlagChangeList.mk [PInt 2] false (Some Dint))))] ∧
    _changed self' = false ∧
    (∀ key v, (key, v) ∈ _config self' → entry_changed (heap w') v = false) ∧
    changed self' w' = false.
Proof.
  assert (Hfile : fs world1 !! abspath "/md/dup.mdp" = Some (File dup_mdp))
    by (reflexivity).
  split_and!; [exact Hfile | reflexivity |].
  refine (repointing_reparses MDP store2 "/md/dup.mdp" world1 dup_mdp _ Hfile _).
  reflexivity.
Defined.

(** Against C5 as stated: [/md/bad.mdp] is an existing file, but its value
    for the int key [x] does not convert; assigning its path to
    [original_file] raises, the table is kept and [changed] stays true. *)
Lemma repointing_to_unparsable_file :
  isfile (fs world1) (abspath "/md/bad.mdp") = true ∧
  changed store2 world1 = true ∧
  let out := set_original_file MDP store2 "/md/bad.mdp" world1 in
  out.1.1 = inl ValueError ∧
  _original_file out.1.2 = Some "/md/bad.mdp" ∧
  table out.1.2 out.2 = table store2 world1 ∧
  _changed out.1.2 = true ∧
  changed out.1.2 out.2 = true.
Proof.
  cbv zeta. split_and!; reflexivity.
Qed.

End Runs.

(** ** The list objects, the mapping methods, binding and writing on the
    example *)
Section MoreRuns.
Import Example.
#[local] Existing Instance Example.python.

Local Ltac absent :=
  repeat (apply not_elem_of_cons; split; [discriminate|]); apply not_elem_of_nil.

Local Ltac distinct :=
  repeat (apply NoDup_cons_2; [absent|]); apply NoDup_nil_2.

Lemma store1_valid_refs : valid_refs store1 world1.
Proof. repeat (apply Forall_cons; split; [by eexists|]). apply Forall_nil_2. Qed.

Lemma store2_valid_refs : valid_refs store2 world1.
Proof. repeat (apply Forall_cons; split; [by eexists|]). apply Forall_nil_2. Qed.

(** The int list made of the items ["1"] and [2]. *)
Lemma typed_list_keeps_type_run :
  (∀ f, Dint ≠ Dother f) ∧
  ∃ o, FlagChangeList.typed__init__ (PList [PStr "1"; PInt 2]) Dint = inr o ∧
       FlagChangeList._dtype o = Some Dint ∧ FlagChangeList._changed o = false ∧
       items_typed o.
Proof.
  assert (Hd : ∀ f, Dint ≠ Dother f) by (intros f; discriminate).
  split; [exact Hd|].
  exists (FlagChangeList.mk [PInt 1; PInt 2] false (Some Dint)).
  split; [reflexivity|].
  exact (proj1 (typed_list_keeps_type Dint Hd) (PList [PStr "1"; PInt 2]) _ eq_refl).
Defined.

(** [l[-1] = "7"] on the int list [1, 2, 3]. *)
Lemma list_setitem_getitem_run :
  let o := FlagChangeList.mk [PInt 1; PInt 2; PInt 3] false (Some Dint) in
  FlagChangeList._convert_type o (PStr "7") = inr (PInt 7) ∧
  - 3 ≤ -1 < 3 ∧
  ∃ o', FlagChangeList.__setitem__ o (-1) (PStr "7") = inr o' ∧
        FlagChangeList.__getitem__ o' (-1) = inr (PInt 7) ∧
        FlagChangeList.__len__ o' = 3%nat ∧
        FlagChangeList._changed o' = true ∧
        FlagChangeList.__getitem__ o' 0 = inr (PInt 1).
Proof.
  intros o. split; [reflexivity|]. split; [lia|].
  assert (Hrange : - Z.of_nat 3 ≤ -1 < Z.of_nat 3) by lia.
  destruct (proj1 (list_setitem_getitem o (-1) (PStr "7")) (PInt 7) eq_refl Hrange)
    as (o' & Hset & Hget & Hlen & Hflag & Hother).
  exists o'. split_and!; [exact Hset | exact Hget | exact Hlen | exact Hflag |].
  rewrite (Hother 0); [reflexivity | discriminate].
Defined.

(** [l.insert(10, "7")] and [l.insert(2 ** 63, "7")] on the int list
    [1, 2, 3]. *)
Lemma list_insert_clips_run :
  let o := FlagChangeList.mk [PInt 1; PInt 2; PInt 3] false (Some Dint) in
  FlagChangeList._convert_type o (PStr "7") = inr (PInt 7) ∧
  - 2 ^ 63 ≤ 10 < 2 ^ 63 ∧
  ¬ (- 2 ^ 63 ≤ 2 ^ 63 < 2 ^ 63) ∧
  (∃ o', FlagChangeList.insert o 10 (PStr "7") = inr o' ∧
         FlagChangeList.__len__ o' = 4%nat ∧
         FlagChangeList._data o' = [PInt 1; PInt 2; PInt 3; PInt 7]) ∧
  FlagChangeList.insert o (2 ^ 63) (PStr "7") = inl OverflowError.
Proof.
  intros o.
  assert (Hin : - 2 ^ 63 ≤ 10 < 2 ^ 63) by lia.
  assert (Hout : ¬ (- 2 ^ 63 ≤ 2 ^ 63 < 2 ^ 63)) by lia.
  split; [reflexivity|]. split; [exact Hin|]. split; [exact Hout|]. split.
  - destruct (proj2 (list_insert_clips o 10 (PStr "7")) (PInt 7) eq_refl Hin)
      as (o' & Hins & Hlen & _ & _ & _ & _ & Happ & _).
    exists o'. split_and!; [exact Hins | exact Hlen |].
    apply Happ. simpl. lia.
  - apply (proj1 (list_insert_clips o (2 ^ 63) (PStr "7"))). right.
    split_and!; [reflexivity | exact Hout | reflexivity].
Defined.

(** [del l[5]] and [del l[-3]] on the int list [1, 2, 3]. *)
Lemma list_delitem_bounds_run :
  let o := FlagChangeList.mk [PInt 1; PInt 2; PInt 3] false (Some Dint) in
  ¬ (- 3 ≤ 5 < 3) ∧
  FlagChangeList.__delitem__ o 5 = inl IndexError ∧
  FlagChangeList.__getitem__ o 5 = inl IndexError.
Proof.
  intros o. assert (Hout : ¬ (- 3 ≤ 5 < 3)) by lia.
  split; [exact Hout|].
  exact (proj1 (list_delitem_bounds o 5) Hout).
Defined.

(** [store["tcoupl"] = ["berendsen", 1]]: a key that no family declares. *)
Lemma undeclared_key_assignment_run :
  ("tcoupl" ∉ Dict.keys (_SPECIAL_PARAM_DISPATCH MDP)) ∧
  ("tcoupl" ∉ _INT_SINGLETON_PARAMS MDP) ∧ ("tcoupl" ∉ _INT_PARAMS MDP) ∧
  ("tcoupl" ∉ _FLOAT_SINGLETON_PARAMS MDP) ∧ ("tcoupl" ∉ _FLOAT_PARAMS MDP) ∧
  str_returns (PList [PStr "berendsen"; PInt 1]) = true ∧
  ∃ self' w',
    __setitem__ MDP store1 "tcoupl" (PList [PStr "berendsen"; PInt 1]) world1
      = (inr (), self', w') ∧
    __getitem__ self' "tcoupl" = inr (Ref 3) ∧
    heap w' = heap1 ++ [FlagChangeList.mk [PStr "berendsen"; PStr "1"] false (Some Dstr)] ∧
    __getitem__ self' "x" = inr (Ref 0) ∧
    _changed self' = true.
Proof.
  assert (H0 : "tcoupl" ∉ Dict.keys (_SPECIAL_PARAM_DISPATCH MDP)) by apply not_elem_of_nil.
  assert (H1 : "tcoupl" ∉ _INT_SINGLETON_PARAMS MDP) by absent.
  assert (H2 : "tcoupl" ∉ _INT_PARAMS MDP) by absent.
  assert (H3 : "tcoupl" ∉ _FLOAT_SINGLETON_PARAMS MDP) by absent.
  assert (H4 : "tcoupl" ∉ _FLOAT_PARAMS MDP) by absent.
  assert (H5 : str_returns (PList [PStr "berendsen"; PInt 1]) = true).
  { apply str_returns_items.
    apply Forall_cons. split; [reflexivity|].
    apply Forall_cons. split; [apply str_returns_int; lia | apply Forall_nil_2]. }
  split_and!; [exact H0 | exact H1 | exact H2 | exact H3 | exact H4 | exact H5 |].
  destruct (undeclared_key_assignment MDP store1 "tcoupl" (PList [PStr "berendsen"; PInt 1])
              world1 H0 H1 H2 H3 H4 H5)
    as (self' & w' & Hset & Hget & Hheap & Hother & Hflag & _).
  exists self', w'. split_and!; [exact Hset | exact Hget | exact Hheap | | exact Hflag].
  rewrite (Hother "x"); [reflexivity | discriminate].
Defined.

(** [store["nsteps"] = 10] on the freshly bound store. *)
Lemma store_setitem_lookup_run :
  valid_refs store1 world1 ∧
  __setitem__ MDP store1 "nsteps" (PInt 10) world1 = (inr (), store2, world1) ∧
  ∃ c,
    run_rule (rule_of MDP "nsteps") (PInt 10) = inr c ∧
    Dict.get "nsteps" (table store2 world1) = Some (Some (as_new c)) ∧
    (∀ k, k ≠ "nsteps" → Dict.get k (table store2 world1) = Dict.get k (table store1 world1)) ∧
    __iter__ store2 =
      (if decide ("nsteps" ∈ __iter__ store1) then __iter__ store1
       else __iter__ store1 ++ ["nsteps"]) ∧
    _changed store2 = true.
Proof.
  split; [exact store1_valid_refs|]. split; [reflexivity|].
  exact (store_setitem_lookup MDP store1 store2 "nsteps" (PInt 10) world1 world1
           store1_valid_refs eq_refl).
Defined.

(** [del store["x"]] on the freshly bound store. *)
Lemma store_delitem_run :
  NoDup (__iter__ store1) ∧
  "x" ∈ __iter__ store1 ∧
  ∃ self',
    __delitem__ store1 "x" = (inr (), self') ∧
    __getitem__ self' "x" = inl KeyError ∧
    (∀ k, k ≠ "x" → __getitem__ self' k = __getitem__ store1 k) ∧
    __iter__ self' = filter (λ k, k ≠ "x") (__iter__ store1) ∧
    S (__len__ self') = __len__ store1 ∧
    _changed self' = true.
Proof.
  assert (Hnd : NoDup (__iter__ store1)) by distinct.
  assert (Hin : "x" ∈ __iter__ store1).
  { apply list_elem_of_further, list_elem_of_here. }
  split_and!; [exact Hnd | exact Hin |].
  exact (proj2 (store_delitem store1 "x" Hnd) Hin).
Defined.

(** The store bound to [/md/run.mdp], after an assignment to a new key, an
    assignment to a key it has and a deletion. *)
Lemma keys_stay_unique_run :
  __init__ MDP "/md/run.mdp" world0 = (inr store1, world1) ∧
  NoDup (__iter__ (steps MDP [SetEntry "ref_t" (PInt 300); SetEntry "x" (PInt 4);
                              DelEntry "define"] (store1, world1)).1).
Proof.
  split; [reflexivity|].
  exact (keys_stay_unique MDP "/md/run.mdp" world0 world1 store1 _ eq_refl).
Defined.

(** The changed store [store2], pointed to [/md/bad.mdp]. *)
Lemma failed_repointing_moves_path_run :
  valid_refs store2 world1 ∧
  fs world1 !! abspath "/md/bad.mdp" = Some (File "x = abc") ∧
  parsed_table MDP "x = abc" = inl ValueError ∧
  let out := set_original_file MDP store2 "/md/bad.mdp" world1 in
  out.1.1 = inl ValueError ∧
  original_file out.1.2 = inr (abspath "/md/bad.mdp") ∧
  _config out.1.2 = _config store2 ∧
  table out.1.2 out.2 = table store2 world1 ∧
  _changed out.1.2 = _changed store2 ∧
  changed out.1.2 out.2 = changed store2 world1.
Proof.
  split; [exact store2_valid_refs|]. split; [reflexivity|]. split; [reflexivity|].
  exact (failed_repointing_moves_path MDP store2 "/md/bad.mdp" world1 "x = abc" ValueError
           store2_valid_refs eq_refl eq_refl).
Defined.

(** The lines of [/md/dup.mdp]: two items, one key kept, one warning. *)
Lemma warnings_count_run :
  parse_lines MDP ["x = 1"; "x = 2"] [] []
    = (inr [("x", PList [PStr "2"])], [duplicate_warning "x"]) ∧
  (length [duplicate_warning "x"] + length [("x", PList [PStr "2"])]
   = length (@nil string) + length (yielded_keys MDP ["x = 1"; "x = 2"]))%nat.
Proof.
  split; [reflexivity|].
  exact (warnings_count MDP ["x = 1"; "x = 2"] [("x", PList [PStr "2"])] []
           [duplicate_warning "x"] eq_refl).
Defined.

(** The keys of the store bound to [/md/run.mdp]. *)
Lemma table_order_first_seen_run :
  __init__ MDP "/md/run.mdp" world0 = (inr store1, world1) ∧
  ∃ content,
    fs world0 !! abspath "/md/run.mdp" = Some (File content) ∧
    __iter__ store1
      = first_seen (yielded_keys MDP (split newline (universal_newlines content))).
Proof.
  split; [reflexivity|].
  exact (table_order_first_seen MDP "/md/run.mdp" world0 world1 store1 eq_refl).
Defined.

(** [store2] written to [/md/new.mdp]: [/md/run.mdp] is as before. *)
Lemma write_touches_target_only_run :
  "/md/run.mdp" ≠ abspath "/md/new.mdp" ∧
  fs world1 !! abspath "/md/new.mdp" ≠ Some Dir ∧
  fs (write MDP store2 "/md/new.mdp" false world1).2 !! "/md/run.mdp"
    = fs world1 !! "/md/run.mdp" ∧
  log (write MDP store2 "/md/new.mdp" false world1).2 = log world1.
Proof.
  assert (Hp : "/md/run.mdp" ≠ abspath "/md/new.mdp").
  { change ("/md/run.mdp" ≠ "/md/new.mdp"). discriminate. }
  assert (Hd : fs world1 !! abspath "/md/new.mdp" ≠ Some Dir).
  { change (@None node ≠ Some Dir). discriminate. }
  split_and!; [exact Hp | exact Hd | |];
    apply (write_touches_target_only MDP store2 "/md/new.mdp" false world1 "/md/run.mdp" Hp);
    intros Hdir; destruct (Hd Hdir).
Defined.

(** [store1], unchanged, written to its own original file; and a store
    whose original file is not there any more. *)
Lemma write_onto_original_refused_run :
  let gone := {| _config := []; _changed := false;
                 _original_file := Some "/md/gone.mdp" |} in
  changed store1 world1 = false ∧
  _original_file store1 = Some (abspath "/md/run.mdp") ∧
  fs world1 !! abspath "/md/run.mdp" ≠ Some Dir ∧
  write MDP store1 "/md/run.mdp" true world1 = (raise SameFileError, store1, world1) ∧
  write MDP store1 "/md/run.mdp" false world1 = (raise ValueError, store1, world1) ∧
  fs world1 !! abspath "/md/gone.mdp" ≠ Some Dir ∧
  write MDP gone "/md/gone.mdp" true world1 = (raise FileNotFoundError, gone, world1).
Proof.
  intros gone.
  assert (Hd : fs world1 !! abspath "/md/run.mdp" ≠ Some Dir).
  { change (Some (File run_mdp) ≠ Some Dir). discriminate. }
  assert (Hg : fs world1 !! abspath "/md/gone.mdp" ≠ Some Dir).
  { change (@None node ≠ Some Dir). discriminate. }
  split_and!; [reflexivity | reflexivity | exact Hd | | | exact Hg |].
  - exact (proj1 (write_onto_original_refused MDP store1 "/md/run.mdp" true world1
                    eq_refl eq_refl Hd)).
  - exact (proj1 (write_onto_original_refused MDP store1 "/md/run.mdp" false world1
                    eq_refl eq_refl Hd)).
  - exact (proj1 (write_onto_original_refused MDP gone "/md/gone.mdp" true world1
                    eq_refl eq_refl Hg)).
Defined.



(** The store bound to [/md/run.mdp] and then written out: its [changed] is
    false, and it holds what [/md/run.mdp] says. *)
Lemma used_store_in_sync_run :
  let st := steps MDP [WriteOut "/md/copy.mdp" false] (store1, world1) in
  __init__ MDP "/md/run.mdp" world0 = (inr store1, world1) ∧
  changed st.1 st.2 = false ∧
  in_sync MDP st.1 st.2.
Proof.
  intros st. split_and!; [reflexivity | reflexivity |].
  exact (used_store_in_sync MDP "/md/run.mdp" world0 world1 store1
           [WriteOut "/md/copy.mdp" false] eq_refl eq_refl).
Defined.

(** The suffix of part 7. *)
Lemma partnum_suffix_reads_back_run :
  0 ≤ 7 ∧
  ∃ digits,
    partnum_suffix 7 = ".part" +:+ digits ∧
    chars_of digits
      = replicate (4 - length (chars_of (str_of_Z 7))) "0"%char ++ chars_of (str_of_Z 7) ∧
    (4 ≤ String.length digits)%nat ∧
    (∀ fuel, (4 ≤ fuel)%nat → zero_pad fuel (str_of_Z 7) = digits) ∧
    int_of_str digits = inr 7.
Proof.
  assert (Hn : 0 ≤ 7) by lia.
  split; [exact Hn|]. exact (partnum_suffix_reads_back 7 Hn).
Defined.

(** A folder that holds the parts 2 and 1 of [md] among other files. *)
Lemma parts_found_run :
  let listdir := λ _ : string,
    @inr exn _ ["md.part0002.trr"; "md.tpr"; "md.part0001.trr"; "md.part0001.edr"] in
  Forall (λ c, is_digit c = false) (chars_of "md") ∧
  Forall (λ c, is_digit c = false) (chars_of "trr") ∧
  filter (λ f, is_part "md" (dotted "trr") f = true)
    ["md.part0002.trr"; "md.tpr"; "md.part0001.trr"; "md.part0001.edr"]
    = part_file "md" (dotted "trr") <$> [2; 1] ∧
  Forall (λ k, 0 ≤ k < 2 ^ 63 - 1) [2; 1] ∧
  get_all_file_parts listdir "/sim" "md" "trr"
    = inr ["/sim/md.part0001.trr"; "/sim/md.part0002.trr"].
Proof.
  intros listdir.
  assert (H1 : Forall (λ c, is_digit c = false) (chars_of "md")) by by repeat constructor.
  assert (H2 : Forall (λ c, is_digit c = false) (chars_of "trr")) by by repeat constructor.
  assert (H3 : filter (λ f, is_part "md" (dotted "trr") f = true)
                 ["md.part0002.trr"; "md.tpr"; "md.part0001.trr"; "md.part0001.edr"]
               = part_file "md" (dotted "trr") <$> [2; 1]) by reflexivity.
  assert (H4 : Forall (λ k, 0 ≤ k < 2 ^ 63 - 1) [2; 1]) by (repeat constructor; lia).
  split_and!; [exact H1 | exact H2 | exact H3 | exact H4 |].
  destruct (parts_found listdir "/sim" "md" "trr" _ [2; 1] H1 H2 eq_refl H3 H4)
    as (m & Hrun & _ & _ & Hm).
  rewrite Hrun. rewrite (Hm 2); [reflexivity | lia | apply Permutation_swap].
Defined.

(** The name [md10] holds the digits of the suffix of part 1. *)
Lemma part_number_stripped_run :
  let listdir := λ _ : string, @inr exn _ ["md10.tpr"; "md10.part0001.trr"] in
  part_file "md10" (dotted "trr") 1 ∈ ["md10.tpr"; "md10.part0001.trr"] ∧
  Forall (λ c, c ∈ chars_of "md10") (chars_of (zero_pad 4 (str_of_Z 1))) ∧
  partnum "md10" (dotted "trr") (part_file "md10" (dotted "trr") 1) = inl ValueError ∧
  get_all_file_parts listdir "/sim" "md10" "trr" = inl ValueError.
Proof.
  intros listdir.
  assert (H1 : part_file "md10" (dotted "trr") 1 ∈ ["md10.tpr"; "md10.part0001.trr"]).
  { apply list_elem_of_further, list_elem_of_here. }
  assert (H2 : Forall (λ c, c ∈ chars_of "md10") (chars_of (zero_pad 4 (str_of_Z 1)))).
  { apply (bool_decide_unpack _). reflexivity. }
  split_and!; [exact H1 | exact H2 | |];
    apply (part_number_stripped listdir "/sim" "md10" "trr" _ 1 eq_refl H1 H2).
Defined.

(** Two listings of one folder. *)
Lemma listing_order_irrelevant_run :
  let listdir := λ _ : string, @inr exn _ ["md.part0002.trr"; "md.part0001.trr"] in
  let listdir' := λ _ : string, @inr exn _ ["md.part0001.trr"; "md.part0002.trr"] in
  ["md.part0002.trr"; "md.part0001.trr"] ≡ₚ ["md.part0001.trr"; "md.part0002.trr"] ∧
  get_all_file_parts listdir "/sim" "md" "trr"
    = get_all_file_parts listdir' "/sim" "md" (dotted "trr").
Proof.
  intros listdir listdir'.
  assert (Hp : ["md.part0002.trr"; "md.part0001.trr"]
               ≡ₚ ["md.part0001.trr"; "md.part0002.trr"]) by apply Permutation_swap.
  split; [exact Hp|].
  exact (listing_order_irrelevant listdir listdir' "/sim" "md" "trr" _ _ eq_refl eq_refl Hp).
Defined.

(** [ensure_mdp_options] on the store bound to [/md/run.mdp], which holds
    neither option. *)
Lemma ensure_mdp_options_ensures_run :
  rule_of MDP "gen-vel" = TypedList Dstr ∧
  rule_of MDP "continuation" = TypedList Dstr ∧
  valid_refs store1 world1 ∧
  __getitem__ store1 "gen-vel" = inl KeyError ∧
  __getitem__ store1 "continuation" = inl KeyError ∧
  ∃ mdp' w' new,
    ensure_mdp_options MDP store1 "no" "yes" world1 [] = (inr (), (mdp', w', [] ++ new)) ∧
    option_is "gen-vel" "no" mdp' w' ∧
    option_is "continuation" "yes" mdp' w' ∧
    (∀ k, k ≠ "gen-vel" → k ≠ "continuation" →
          Dict.get k (table mdp' w') = Dict.get k (table store1 world1)) ∧
    fs w' = fs world1 ∧ log w' = log world1 ∧
    (length new ≤ 2)%nat ∧
    ensure_mdp_options MDP mdp' "no" "yes" w' ([] ++ new) = (inr (), (mdp', w', [] ++ new)).
Proof.
  assert (Hg : ∀ v, __getitem__ store1 "gen-vel" = inr v →
                    is_ok (entry_first (heap world1) v) = true).
  { intros v Hget. change (inl KeyError = inr v) in Hget. discriminate Hget. }
  assert (Hc : ∀ v, __getitem__ store1 "continuation" = inr v →
                    is_ok (entry_first (heap world1) v) = true).
  { intros v Hget. change (inl KeyError = inr v) in Hget. discriminate Hget. }
  split_and!; [reflexivity | reflexivity | exact store1_valid_refs | reflexivity | reflexivity |].
  exact (ensure_mdp_options_ensures MDP store1 "no" "yes" world1 [] eq_refl eq_refl
           store1_valid_refs Hg Hc).
Defined.

(** A store whose [continuation] is the list without items. *)
Lemma ensure_mdp_options_raises_run :
  let mdp := {| _config := [("continuation", Ref 2)]; _changed := false;
                _original_file := Some "/md/run.mdp" |} in
  entry_first (heap world1) (Ref 2) = inl IndexError ∧
  __getitem__ mdp "continuation" = inr (Ref 2) ∧
  ∃ mdp' w' new,
    ensure_mdp_options MDP mdp "no" "yes" world1 [] = (inl IndexError, (mdp', w', [] ++ new)) ∧
    option_is "gen-vel" "no" mdp' w' ∧
    (¬ option_is "gen-vel" "no" mdp world1 → _changed mdp' = true ∧ length new = 1%nat).
Proof.
  intros mdp.
  assert (Hf : entry_first (heap world1) (Ref 2) = inl IndexError) by reflexivity.
  split_and!; [exact Hf | reflexivity |].
  refine (proj2 (proj2 (ensure_mdp_options_raises MDP mdp "no" "yes" world1 [] (Ref 2)
                          IndexError Hf)) eq_refl eq_refl _ _).
  - repeat (apply Forall_cons; split; [by eexists|]). apply Forall_nil_2.
  - intros v Hget. change (inl KeyError = inr v) in Hget. discriminate Hget.
Defined.

(** The store bound to [/md/run.mdp], after [store["nsteps"] = "7"]. *)
Lemma singleton_stays_scalar_run :
  rule_of MDP "nsteps" = Len1ListOrSingleton Dint ∧
  (∀ f, Dint ≠ Dother f) ∧
  __init__ MDP "/md/run.mdp" world0 = (inr store1, world1) ∧
  __getitem__ (steps MDP [SetEntry "nsteps" (PStr "7")] (store1, world1)).1 "nsteps"
    = inr (Plain (PInt 7)) ∧
  ∃ x, Plain (PInt 7) = Plain x ∧ scalar_of Dint x = true.
Proof.
  assert (Hd : ∀ f, Dint ≠ Dother f) by (intros f; discriminate).
  split_and!; [reflexivity | exact Hd | reflexivity | reflexivity |].
  exact (singleton_stays_scalar MDP "nsteps" Dint "/md/run.mdp" world0 world1 store1
           [SetEntry "nsteps" (PStr "7")] (Plain (PInt 7)) eq_refl Hd eq_refl eq_refl).
Defined.

(** A machine with two processors and a soft limit of 1024 open files. *)
Lemma semaphores_at_import_run :
  (∀ c, Some 2 = Some c → 0 < c ≤ 2 ^ 53) ∧
  import_semaphores (Some 2) 1024
    = inr [("MAX_PROCESS", Some 0); ("MAX_FILES_OPEN", Some 994);
           ("SLURM_CLUSTER_MEDIATOR", Some 1); ("SLURM_MAX_JOB", None)] ∧
  import_semaphores (Some 2) 20 = inl ValueError.
Proof.
  assert (Hcpu : ∀ c, Some 2 = Some c → 0 < c ≤ 2 ^ 53) by (intros c [= <-]; lia).
  split_and!; [exact Hcpu | |].
  - apply (proj1 (proj2 (semaphores_at_import (Some 2) 1024 Hcpu))). lia.
  - apply (proj1 (semaphores_at_import (Some 2) 20 Hcpu)). lia.
Defined.

(** A store that holds both options as asked, [continuation] with a second
    item. *)
Lemma ensure_mdp_options_quiet_run :
  let mdp := {| _config := [("gen-vel", Ref 0); ("continuation", Ref 1)];
                _changed := false;
                _original_file := Some "/md/run.mdp" |} in
  let w := {| fs := disk; log := [];
              heap := [FlagChangeList.mk [PStr "no"] false (Some Dstr);
                       FlagChangeList.mk [PStr "yes"; PStr "always"] false (Some Dstr)] |} in
  option_is "gen-vel" "no" mdp w ∧
  option_is "continuation" "yes" mdp w ∧
  ensure_mdp_options MDP mdp "no" "yes" w [] = (inr (), (mdp, w, [])).
Proof.
  intros mdp w.
  assert (Hg : option_is "gen-vel" "no" mdp w) by (exists (Ref 0); split; reflexivity).
  assert (Hc : option_is "continuation" "yes" mdp w) by (exists (Ref 1); split; reflexivity).
  split_and!; [exact Hg | exact Hc |].
  exact (proj2 (ensure_mdp_options_quiet MDP mdp "no" "yes" w []) (conj Hg Hc)).
Defined.

End MoreRuns.

(** ** The lowest output frequency on the runtime that compares *)
Section InfRuns.
Import ExampleInf.
#[local] Existing Instance ExampleInf.python.
#[local] Existing Instance ExampleInf.comparisons.

(** The lowest frequency of the [TRR] output of [store_out]. *)
Lemma nstout_from_mdp_least_run :
  compares_ints None ∧
  nstout_keys "trr" = inr ["nstxout"; "nstvout"; "nstfout"] ∧
  (∀ k v, k ∈ ["nstxout"; "nstvout"; "nstfout"] → __getitem__ store_out k = inr v →
          ∃ z, v = Plain (PInt z)) ∧
  nstout_from_mdp store_out "trr" = inr (Plain (PInt 1000)) ∧
  ∃ m k, Plain (PInt 1000) = Plain (PInt m) ∧ m ≠ 0 ∧
         k ∈ ["nstxout"; "nstvout"; "nstfout"] ∧
         __getitem__ store_out k = inr (Plain (PInt m)) ∧
         ∀ k' z, k' ∈ ["nstxout"; "nstvout"; "nstfout"] →
                 __getitem__ store_out k' = inr (Plain (PInt z)) → z ≠ 0 → m ≤ z.
Proof.
  assert (Hlaws : compares_ints None).
  { split_and!; try reflexivity; intros; reflexivity. }
  assert (Hints : ∀ k v, k ∈ ["nstxout"; "nstvout"; "nstfout"] →
                         __getitem__ store_out k = inr v → ∃ z, v = Plain (PInt z)).
  { intros k v Hk Hget.
    repeat (apply elem_of_cons in Hk as [->|Hk]); [..|by apply elem_of_nil in Hk];
      injection Hget as <-; by eexists. }
  split_and!; [exact Hlaws | reflexivity | exact Hints | reflexivity |].
  exact (nstout_from_mdp_least store_out "trr" _ None Hlaws eq_refl Hints).
Defined.

(** A store without entries, asked for the [XTC] output; and a trajectory
    type that is not known. *)
Lemma nstout_from_mdp_no_output_run :
  let mdp := {| _config := []; _changed := false; _original_file := Some "/md/out.mdp" |} in
  (∀ keys k, nstout_keys "xtc" = inr keys → k ∈ keys → __getitem__ mdp k = inl KeyError) ∧
  nstout_from_mdp mdp "xtc" = inl ValueError ∧
  str_upper "gro" ≠ "TRR" ∧ str_upper "gro" ≠ "XTC" ∧
  nstout_from_mdp store_out "gro" = inl ValueError.
Proof.
  intros mdp.
  assert (Hnone : ∀ keys k, nstout_keys "xtc" = inr keys → k ∈ keys →
                            __getitem__ mdp k = inl KeyError) by reflexivity.
  assert (Htrr : str_upper "gro" ≠ "TRR") by (change ("GRO" ≠ "TRR"); discriminate).
  assert (Hxtc : str_upper "gro" ≠ "XTC") by (change ("GRO" ≠ "XTC"); discriminate).
  split_and!; [exact Hnone | | exact Htrr | exact Hxtc |].
  - exact (proj2 (proj2 (nstout_from_mdp_no_output mdp "xtc")) Hnone).
  - exact (proj1 (proj2 (nstout_from_mdp_no_output store_out "gro")) Htrr Hxtc).
Defined.

End InfRuns.
